(** * A shallow embedding of parts of redex and of its oatmeal tool

    The development follows the sources it embeds:
    - [libredex/PatriciaTreeMap.h]: Patricia-tree maps with abstract-domain
      values, with the identity of heap nodes made explicit so that sharing
      (pointer equality of [std::shared_ptr]) can be stated;
    - [tools/oatmeal/dump-oat.cpp], [util.h] and [main.cpp]: the parser
      dispatch, the container builder with its Adler-32 checksum and the
      exit codes of the command-line tool;
    - [opt/regalloc/GraphColoring.cpp]: the select stage of the allocator;
    - [libredex/ClassHierarchy.cpp]: the class-hierarchy index and the
      collision search;
    - [opt/redundant_move_elimination/AliasedRegisters.h]: [AliasDomain]. *)

From Stdlib Require Import ZArith List Lia Bool String.
From stdpp Require Import base option gmap sets list strings relations.

Set Warnings "-clear-no-such-hyp".

Local Open Scope Z_scope.

(** ** Abstract domains: the interface the map requires of its values *)

Module Domain.

(** The part of [AbstractDomain<Value>] that [PatriciaTreeMap.h] calls:
    [Value::top()], [is_top()], [leq], [equals] and [meet]. *)
Class AbstractDomain (Value : Type) := {
  top : Value;
  is_top : Value -> bool;
  leq : Value -> Value -> bool;
  equals : Value -> Value -> bool;
  meet : Value -> Value -> Value;
  join : Value -> Value -> Value;
}.

End Domain.

(** ** PatriciaTreeUtil.h *)

Module pt_util.

(** Keys are unsigned integers of [KEY_BITS] bits ([uint32_t] in the unit
    tests); they are modelled as [Z] and arithmetic wraps. *)
Definition KEY_BITS : Z := 32.

Definition wrap (x : Z) : Z := x mod 2 ^ KEY_BITS.

(** Modelled from the spec: [PatriciaTreeUtil.h] is not among the sources.
    The tries are little endian (the comment on [PatriciaTreeBranch] in
    [PatriciaTreeSet.h] and the tests [m < n && match_prefix(q, p, m)] of
    [merge]): the branching bit of two prefixes is the lowest bit at
    which they differ, and the prefix of a node is made of the bits below
    its branching bit. *)
Definition is_zero_bit (k m : Z) : bool := Z.land k m =? 0.

Definition get_lowest_bit (x : Z) : Z :=
  Z.land x (wrap (wrap (Z.lnot x) + 1)).

Definition get_branching_bit (prefix0 prefix1 : Z) : Z :=
  get_lowest_bit (Z.lxor prefix0 prefix1).

Definition mask (k m : Z) : Z := Z.land k (wrap (m - 1)).

Definition match_prefix (k p m : Z) : bool := mask k m =? p.

End pt_util.

(** ** PatriciaTreeMap.h *)

Module ptmap_impl.
Import pt_util.

(** A node created by [std::make_shared] has an identity: its address.
    Two [shared_ptr]s are equal when they are both null or point to the
    same node. *)
Definition addr := N.

(** [std::shared_ptr<PatriciaTree<IntegerType, Value>>]. *)
Inductive PatriciaTree (Value : Type) : Type :=
| nullptr
| PatriciaTreeLeaf (self : addr) (key : Z) (value : Value)
| PatriciaTreeBranch (self : addr) (prefix branching_bit : Z)
    (left_tree right_tree : PatriciaTree Value).

Arguments nullptr {Value}.
Arguments PatriciaTreeLeaf {Value} self key value.
Arguments PatriciaTreeBranch {Value} self prefix branching_bit
  left_tree right_tree.

(** Allocation threads the next free address. *)
Definition Alloc (A : Type) : Type := addr -> A * addr.

Definition ret {A} (a : A) : Alloc A := fun n => (a, n).

Definition bind {A B} (c : Alloc A) (k : A -> Alloc B) : Alloc B :=
  fun n => let (a, n') := c n in k a n'.

Notation "'let*' x ':=' c 'in' k" := (bind c (fun x => k))
  (at level 10, x name, c at level 100, k at level 200, only parsing).

Section Map.
Context {Value : Type} `{Domain.AbstractDomain Value}.

Local Abbreviation tree := (PatriciaTree Value).

Definition CombiningFunction := Value -> Value -> Value.

Definition make_shared_leaf (key : Z) (value : Value) : Alloc tree :=
  fun n => (PatriciaTreeLeaf n key value, N.succ n).

Definition make_shared_branch (prefix branching_bit : Z)
    (left_tree right_tree : tree) : Alloc tree :=
  fun n =>
    (PatriciaTreeBranch n prefix branching_bit left_tree right_tree,
     N.succ n).

Definition get (t : tree) : option addr :=
  match t with
  | nullptr => None
  | PatriciaTreeLeaf a _ _ => Some a
  | PatriciaTreeBranch a _ _ _ _ => Some a
  end.

(** [s == t] on shared pointers. *)
Definition ptr_eq (s t : tree) : bool := bool_decide (get s = get t).

Definition snd_ (_ second : Value) : Value := second.

Definition join (prefix0 : Z) (tree0 : tree) (prefix1 : Z) (tree1 : tree)
    : Alloc tree :=
  let m := get_branching_bit prefix0 prefix1 in
  if is_zero_bit prefix0 m
  then make_shared_branch (mask prefix0 m) m tree0 tree1
  else make_shared_branch (mask prefix0 m) m tree1 tree0.

Definition make_branch (prefix branching_bit : Z)
    (left_tree right_tree : tree) : Alloc tree :=
  if ptr_eq left_tree nullptr then ret right_tree
  else if ptr_eq right_tree nullptr then ret left_tree
  else make_shared_branch prefix branching_bit left_tree right_tree.

(** [find_value] returns a pointer into the leaf: the address of the
    leaf together with the value stored there; [None] is the null
    pointer. *)
Fixpoint find_value (key : Z) (t : tree) : option (addr * Value) :=
  match t with
  | nullptr => None
  | PatriciaTreeLeaf a k v => if key =? k then Some (a, v) else None
  | PatriciaTreeBranch _ _ m l r =>
      if is_zero_bit key m then find_value key l else find_value key r
  end.

Fixpoint leq (s t : tree) {struct s} : bool :=
  if ptr_eq s t then true
  else
    match s, t with
    | nullptr, _ => false
    | _, nullptr => true
    | PatriciaTreeLeaf _ _ sv, PatriciaTreeBranch _ _ _ _ _ => false
    | PatriciaTreeLeaf _ _ sv, PatriciaTreeLeaf _ _ tv => Domain.leq sv tv
    | PatriciaTreeBranch _ _ _ _ _, PatriciaTreeLeaf _ tk tv =>
        match find_value tk s with
        | None => false
        | Some (_, s_value) => Domain.leq s_value tv
        end
    | PatriciaTreeBranch _ p m s0 s1, PatriciaTreeBranch _ q n t0 t1 =>
        if (m =? n) && (p =? q) then leq s0 t0 && leq s1 t1
        else if (m <? n) && match_prefix q p m then
          if is_zero_bit q m then leq s0 t else leq s1 t
        else false
    end.

Fixpoint equals (tree1 tree2 : tree) {struct tree1} : bool :=
  if ptr_eq tree1 tree2 then true
  else
    match tree1, tree2 with
    | nullptr, _ => ptr_eq tree2 nullptr
    | _, nullptr => false
    | PatriciaTreeLeaf _ _ _, PatriciaTreeBranch _ _ _ _ _ => false
    | PatriciaTreeLeaf _ k1 v1, PatriciaTreeLeaf _ k2 v2 =>
        (k1 =? k2) && Domain.equals v1 v2
    | PatriciaTreeBranch _ _ _ _ _, PatriciaTreeLeaf _ _ _ => false
    | PatriciaTreeBranch _ p1 m1 l1 r1, PatriciaTreeBranch _ p2 m2 l2 r2 =>
        (p1 =? p2) && (m1 =? m2) && equals l1 l2 && equals r1 r2
    end.

(** [combine_leaf]: the leaf is given by its address, key and value. *)
Definition combine_leaf (combine : CombiningFunction) (value : Value)
    (self : addr) (key : Z) (leaf_value : Value) : Alloc tree :=
  let combined_value := combine leaf_value value in
  if Domain.is_top combined_value then ret nullptr
  else if negb (Domain.equals combined_value leaf_value)
  then make_shared_leaf key combined_value
  else ret (PatriciaTreeLeaf self key leaf_value).

(** The new leaf holds Top and takes the next free address. *)
Definition combine_new_leaf (combine : CombiningFunction) (key : Z)
    (value : Value) : Alloc tree :=
  fun n => combine_leaf combine value n key Domain.top (N.succ n).

Fixpoint update (combine : CombiningFunction) (key : Z) (value : Value)
    (t : tree) {struct t} : Alloc tree :=
  match t with
  | nullptr => combine_new_leaf combine key value
  | PatriciaTreeLeaf a k v =>
      if key =? k then combine_leaf combine value a k v
      else
        let* new_leaf := combine_new_leaf combine key value in
        if ptr_eq new_leaf nullptr then ret t
        else join key new_leaf k t
  | PatriciaTreeBranch a p m l r =>
      if match_prefix key p m then
        if is_zero_bit key m then
          let* new_left_tree := update combine key value l in
          if ptr_eq new_left_tree l then ret t
          else make_branch p m new_left_tree r
        else
          let* new_right_tree := update combine key value r in
          if ptr_eq new_right_tree r then ret t
          else make_branch p m l new_right_tree
      else
        let* new_leaf := combine_new_leaf combine key value in
        if ptr_eq new_leaf nullptr then ret t
        else join key new_leaf p t
  end.

Fixpoint merge (combine : CombiningFunction) (s : tree) {struct s}
    : tree -> Alloc tree :=
  fix merge_s (t : tree) {struct t} : Alloc tree :=
    if ptr_eq s t then ret s
    else
      match s, t with
      | nullptr, _ => ret t
      | _, nullptr => ret s
      | PatriciaTreeLeaf _ k v, _ => update combine k v t
      | _, PatriciaTreeLeaf _ k v => update combine k v s
      | PatriciaTreeBranch _ p m s0 s1, PatriciaTreeBranch _ q n t0 t1 =>
          if (m =? n) && (p =? q) then
            let* new_left := merge combine s0 t0 in
            let* new_right := merge combine s1 t1 in
            if ptr_eq new_left s0 && ptr_eq new_right s1 then ret s
            else if ptr_eq new_left t0 && ptr_eq new_right t1 then ret t
            else make_shared_branch p m new_left new_right
          else if (m <? n) && match_prefix q p m then
            if is_zero_bit q m then
              let* new_left := merge combine s0 t in
              if ptr_eq s0 new_left then ret s
              else make_shared_branch p m new_left s1
            else
              let* new_right := merge combine s1 t in
              if ptr_eq s1 new_right then ret s
              else make_shared_branch p m s0 new_right
          else if (m >? n) && match_prefix p q n then
            if is_zero_bit p n then
              let* new_left := merge_s t0 in
              if ptr_eq t0 new_left then ret t
              else make_shared_branch q n new_left t1
            else
              let* new_right := merge_s t1 in
              if ptr_eq t1 new_right then ret t
              else make_shared_branch q n t0 new_right
          else join p s q t
      end.

(** The two recursive calls in the arguments of the inner [merge] are
    evaluated left to right here; C++ leaves the order open, and it
    only changes which fresh addresses the new nodes get. *)
Fixpoint intersect (combine : CombiningFunction) (s : tree) {struct s}
    : tree -> Alloc tree :=
  fix intersect_s (t : tree) {struct t} : Alloc tree :=
    if ptr_eq s t then ret s
    else
      match s, t with
      | nullptr, _ => ret nullptr
      | _, nullptr => ret nullptr
      | PatriciaTreeLeaf a k v, _ =>
          match find_value k t with
          | None => ret nullptr
          | Some (_, value) => combine_leaf combine value a k v
          end
      | _, PatriciaTreeLeaf a k v =>
          match find_value k s with
          | None => ret nullptr
          | Some (_, value) => combine_leaf combine value a k v
          end
      | PatriciaTreeBranch _ p m s0 s1, PatriciaTreeBranch _ q n t0 t1 =>
          if (m =? n) && (p =? q) then
            let* i0 := intersect combine s0 t0 in
            let* i1 := intersect combine s1 t1 in
            merge (fun x y => Domain.meet x y) i0 i1
          else if (m <? n) && match_prefix q p m then
            if is_zero_bit q m then intersect combine s0 t
            else intersect combine s1 t
          else if (m >? n) && match_prefix p q n then
            if is_zero_bit p n then intersect_s t0 else intersect_s t1
          else ret nullptr
      end.

(** The iterator: the leaves from left to right. *)
Fixpoint bindings (t : tree) : list (Z * Value) :=
  match t with
  | nullptr => []
  | PatriciaTreeLeaf _ k v => [(k, v)]
  | PatriciaTreeBranch _ _ _ l r => bindings l ++ bindings r
  end.

End Map.

End ptmap_impl.

(** The class [PatriciaTreeMap<Key, Value>] for an integer key type: a
    wrapper around [m_tree]. *)
Module PatriciaTreeMap.
Import ptmap_impl.

Section Map.
Context {Value : Type} `{Domain.AbstractDomain Value}.

Definition t := PatriciaTree Value.

Definition empty : t := nullptr.

Definition is_empty (m : t) : bool := ptr_eq m nullptr.

Definition at_ (m : t) (key : Z) : Value :=
  match find_value key m with
  | None => Domain.top
  | Some (_, value) => value
  end.

Definition leq (m other : t) : bool := ptmap_impl.leq m other.

Definition equals (m other : t) : bool := ptmap_impl.equals m other.

Definition update (operation : Value -> Value) (key : Z) (m : t)
    : Alloc t :=
  ptmap_impl.update (fun x _ => operation x) key Domain.top m.

Definition insert_or_assign (key : Z) (value : Value) (m : t) : Alloc t :=
  ptmap_impl.update snd_ key value m.

Definition union_with (combine : CombiningFunction) (m other : t)
    : Alloc t :=
  merge combine m other.

Definition intersection_with (combine : CombiningFunction) (m other : t)
    : Alloc t :=
  intersect combine m other.

End Map.

End PatriciaTreeMap.

(** ** The hashed-set domain of the unit tests *)

Module HashedSet.

(** Modelled from the spec: [HashedSetAbstractDomain.h] and the
    [AbstractDomainScaffolding] it is built on are not among the sources.
    A domain wraps a value with three states, bottom, top and a value;
    the value is a finite set of strings, ordered by inclusion, joined by
    union and met by intersection; top and bottom are sentinels that
    collapse every operation. *)
Inductive HashedSetAbstractDomain : Type :=
| Bottom
| Value (elements : gset string)
| Top.

Definition is_top (x : HashedSetAbstractDomain) : bool :=
  match x with Top => true | _ => false end.

Definition is_bottom (x : HashedSetAbstractDomain) : bool :=
  match x with Bottom => true | _ => false end.

Definition leq (x other : HashedSetAbstractDomain) : bool :=
  match x, other with
  | Bottom, _ => true
  | _, Bottom => false
  | _, Top => true
  | Top, _ => false
  | Value a, Value b => bool_decide (a ⊆ b)
  end.

Definition equals (x other : HashedSetAbstractDomain) : bool :=
  match x, other with
  | Bottom, Bottom => true
  | Top, Top => true
  | Value a, Value b => bool_decide (a = b)
  | _, _ => false
  end.

Definition join (x other : HashedSetAbstractDomain)
    : HashedSetAbstractDomain :=
  match x, other with
  | Top, _ | _, Top => Top
  | Bottom, y => y
  | y, Bottom => y
  | Value a, Value b => Value (a ∪ b)
  end.

Definition meet (x other : HashedSetAbstractDomain)
    : HashedSetAbstractDomain :=
  match x, other with
  | Bottom, _ | _, Bottom => Bottom
  | Top, y => y
  | y, Top => y
  | Value a, Value b => Value (a ∩ b)
  end.

#[export] Instance domain : Domain.AbstractDomain HashedSetAbstractDomain :=
  {| Domain.top := Top;
     Domain.is_top := is_top;
     Domain.leq := leq;
     Domain.equals := equals;
     Domain.meet := meet;
     Domain.join := join |}.

End HashedSet.

(** ** The union and intersection scenario *)

Module Scenario.
Import ptmap_impl HashedSet.

Local Open Scope string_scope.

Definition of_list (l : list (Z * HashedSetAbstractDomain))
    : Alloc (PatriciaTreeMap.t (Value := HashedSetAbstractDomain)) :=
  fold_left
    (fun acc kv => let* m := acc in
                   PatriciaTreeMap.insert_or_assign (fst kv) (snd kv) m)
    l (ret PatriciaTreeMap.empty).

Definition m1_bindings : list (Z * HashedSetAbstractDomain) :=
  [(1, Value {["a"]}); (2, Value {["b"]}); (3, Value {["d"; "e"]})].

Definition m2_bindings : list (Z * HashedSetAbstractDomain) :=
  [(2, Value {["c"]}); (3, Value {["e"; "f"]}); (4, Value {["g"]})].

Definition union_expected : list (Z * HashedSetAbstractDomain) :=
  [(1, Value {["a"]}); (2, Value {["b"; "c"]});
   (3, Value {["d"; "e"; "f"]}); (4, Value {["g"]})].

Definition intersection_claimed : list (Z * HashedSetAbstractDomain) :=
  [(3, Value {["e"]})].

Definition intersection_actual : list (Z * HashedSetAbstractDomain) :=
  [(2, Value ∅); (3, Value {["e"]})].

Record run := {
  m1 : PatriciaTree HashedSetAbstractDomain;
  m2 : PatriciaTree HashedSetAbstractDomain;
  (* m1.get_union_with(join, m2) *)
  m1_union_m2 : PatriciaTree HashedSetAbstractDomain;
  (* m1.get_intersection_with(meet, m2) *)
  m1_inter_m2 : PatriciaTree HashedSetAbstractDomain;
  (* m1.union_with(join, m2) followed by m1.intersection_with(meet, m2) *)
  m1_union_then_inter : PatriciaTree HashedSetAbstractDomain;
  expected_union : PatriciaTree HashedSetAbstractDomain;
  claimed_inter : PatriciaTree HashedSetAbstractDomain;
  actual_inter : PatriciaTree HashedSetAbstractDomain;
}.

Definition scenario : Alloc run :=
  let* a := of_list m1_bindings in
  let* b := of_list m2_bindings in
  let* u := PatriciaTreeMap.union_with join a b in
  let* i := PatriciaTreeMap.intersection_with meet a b in
  let* ui := PatriciaTreeMap.intersection_with meet u b in
  let* eu := of_list union_expected in
  let* ci := of_list intersection_claimed in
  let* ai := of_list intersection_actual in
  ret {| m1 := a; m2 := b; m1_union_m2 := u; m1_inter_m2 := i;
         m1_union_then_inter := ui; expected_union := eu;
         claimed_inter := ci; actual_inter := ai |}.

Definition the_run : run := fst (scenario 0%N).

End Scenario.

(** ** Two one-element maps with different keys *)

Module LeqScenario.
Import ptmap_impl HashedSet.
Local Open Scope string_scope.

Definition two_maps
    : Alloc (PatriciaTree HashedSetAbstractDomain
             * PatriciaTree HashedSetAbstractDomain) :=
  let* s := Scenario.of_list [(1, Value {["a"]})] in
  let* t := Scenario.of_list [(2, Value {["a"]})] in
  ret (s, t).

Definition s : PatriciaTree HashedSetAbstractDomain :=
  fst (fst (two_maps 0%N)).

Definition t : PatriciaTree HashedSetAbstractDomain :=
  snd (fst (two_maps 0%N)).

End LeqScenario.

(** ** tools/oatmeal: buffers, CHECK and the memory accounter *)

Module oatmeal.

(** A failed [CHECK] prints a message and trips [assert]: the run stops
    there and nothing is returned. *)
Inductive Checked (A : Type) : Type :=
| CheckFailed
| Done (a : A).

Arguments CheckFailed {A}.
Arguments Done {A} a.

(** [ConstBuffer]: [ptr] is kept as the offset of the first byte of the
    view within the file image, [bytes] are the [len] bytes in view.
    Bytes are integers in [0, 256). *)
Record ConstBuffer := {
  ptr : nat;
  bytes : list Z;
}.

Definition len (buf : ConstBuffer) : nat := length (bytes buf).

Definition slice2 (buf : ConstBuffer) (new_begin new_end : nat)
    : Checked ConstBuffer :=
  if negb (new_end <=? len buf)%nat then CheckFailed
  else if negb (new_begin <=? new_end)%nat then CheckFailed
  else Done {| ptr := ptr buf + new_begin;
               bytes := take (new_end - new_begin)
                             (drop new_begin (bytes buf)) |}.

Definition slice (buf : ConstBuffer) (new_begin : nat)
    : Checked ConstBuffer :=
  slice2 buf new_begin (len buf).

(** Modelled from the spec: [memory-accounter.h] is not among the sources.
    The accounter records which ranges of the input have been consumed;
    [memcpyAndMark(dest, src, n)] copies [n] bytes and records the range
    [(src, n)]. The record is the list of ranges, latest first. *)
Definition MemoryAccounter := list (nat * nat).

(** Parsing threads the accounter and may stop at a failed [CHECK]. *)
Definition Parser (A : Type) : Type :=
  MemoryAccounter -> Checked (A * MemoryAccounter).

Definition pure {A} (a : A) : Parser A := fun ma => Done (a, ma).

Definition check (cond : bool) : Parser unit :=
  fun ma => if cond then Done (tt, ma) else CheckFailed.

Definition lift {A} (c : Checked A) : Parser A :=
  fun ma => match c with CheckFailed => CheckFailed | Done a => Done (a, ma) end.

Definition and_then {A B} (c : Parser A) (k : A -> Parser B) : Parser B :=
  fun ma =>
    match c ma with
    | CheckFailed => CheckFailed
    | Done (a, ma') => k a ma'
    end.

Notation "'do*' x '<-' c ';' k" := (and_then c (fun x => k))
  (at level 10, x name, c at level 100, k at level 200, only parsing).

Definition memcpyAndMark (src : ConstBuffer) (n : nat) : Parser (list Z) :=
  fun ma => Done (take n (bytes src), (ptr src, n) :: ma).

(** A 32-bit word read from memory on a little-endian host. *)
Definition le32 (l : list Z) (i : nat) : Z :=
  Z.lor (nth i l 0)
    (Z.lor (Z.shiftl (nth (i + 1) l 0) 8)
       (Z.lor (Z.shiftl (nth (i + 2) l 0) 16)
              (Z.shiftl (nth (i + 3) l 0) 24))).

Definition kOatMagicNum : Z := 0x0a74616F.

(** [enum class OatVersion : uint32_t] *)
Definition UNKNOWN : Z := 0.
Definition V_045 : Z := 0x00353430.
Definition V_064 : Z := 0x00343630.
Definition V_079 : Z := 0x00393730.
Definition V_088 : Z := 0x00383830.

Inductive Status : Type :=
| PARSE_SUCCESS
| PARSE_UNKNOWN_VERSION
| PARSE_BAD_MAGIC_NUMBER
| PARSE_FAILURE
| BUILD_SUCCESS
| BUILD_UNSUPPORTED_VERSION
| BUILD_IO_ERROR.

Record OatHeader_Common := {
  magic : Z;
  version : Z;
  adler32_checksum : Z;
}.

Definition sizeof_OatHeader_Common : nat := 12.

(** [sizeof(Elf32_Ehdr)], from the system header [elf.h]. *)
Definition sizeof_Elf32_Ehdr : nat := 52.

Definition OatHeader_Common_parse (buf : ConstBuffer)
    : Parser OatHeader_Common :=
  do* _ <- check (sizeof_OatHeader_Common <=? len buf)%nat;
  do* raw <- memcpyAndMark buf sizeof_OatHeader_Common;
  pure {| magic := le32 raw 0;
          version := le32 raw 4;
          adler32_checksum := le32 raw 8 |}.

Section Parse.
(** What a successfully parsed file of version 045/064, respectively
    079/088, holds, and the two version-specific parsers
    ([OatFile_064::parse], [OatFile_079::parse]); the dispatch below
    does not depend on what they do. *)
Variables Contents_064 Contents_079 : Type.
Variable OatFile_064_parse :
  bool -> ConstBuffer -> nat -> Parser Contents_064.
Variable OatFile_079_parse :
  bool -> ConstBuffer -> nat -> Parser Contents_079.

(** The subclasses of [OatFile]. *)
Inductive OatFile : Type :=
| OatFile_064 (contents : Contents_064)
| OatFile_079 (contents : Contents_079)
| OatFile_Unknown (header_ : OatHeader_Common)
| OatFile_Bad (header_ : OatHeader_Common).

Definition status (f : OatFile) : Status :=
  match f with
  | OatFile_064 _ => PARSE_SUCCESS
  | OatFile_079 _ => PARSE_SUCCESS
  | OatFile_Unknown _ => PARSE_UNKNOWN_VERSION
  | OatFile_Bad _ => PARSE_BAD_MAGIC_NUMBER
  end.

Definition OatFile_Unknown_parse (buf : ConstBuffer) : Parser OatFile :=
  do* header <- OatHeader_Common_parse buf;
  pure (OatFile_Unknown header).

Definition OatFile_Bad_parse (buf : ConstBuffer) : Parser OatFile :=
  do* header <- OatHeader_Common_parse buf;
  pure (OatFile_Bad header).

(** The first block of [parse_oatfile_impl]: when the buffer starts
    with an ELF header the AOT data is taken to start at [0x1000].
    Returns [oat_offset] and the buffer to parse. *)
Definition oat_data_section (buf : ConstBuffer)
    : Checked (nat * ConstBuffer) :=
  if (sizeof_Elf32_Ehdr <=? len buf)%nat
     && (nth 0 (bytes buf) 0 =? 0x7f)
     && (nth 1 (bytes buf) 0 =? 0x45)
     && (nth 2 (bytes buf) 0 =? 0x4c)
     && (nth 3 (bytes buf) 0 =? 0x46)
  then
    match slice buf 0x1000 with
    | CheckFailed => CheckFailed
    | Done buf' => Done (0x1000%nat, buf')
    end
  else Done (0%nat, buf).

(** [parse_oatfile_impl]; [None] is the null [unique_ptr] returned
    after the message "Unhandled oat version". *)
Definition parse_oatfile_impl (dex_files_only : bool) (buf : ConstBuffer)
    : Parser (option OatFile) :=
  do* section <- lift (oat_data_section buf);
  let oat_offset := fst section in
  let buf := snd section in
  do* header <- OatHeader_Common_parse buf;
  if negb (magic header =? kOatMagicNum) then
    do* f <- OatFile_Bad_parse buf; pure (Some f)
  else if (version header =? V_045) || (version header =? V_064) then
    do* c <- OatFile_064_parse dex_files_only buf oat_offset;
    pure (Some (OatFile_064 c))
  else if (version header =? V_079) || (version header =? V_088) then
    do* c <- OatFile_079_parse dex_files_only buf oat_offset;
    pure (Some (OatFile_079 c))
  else if version header =? UNKNOWN then
    do* f <- OatFile_Unknown_parse buf; pure (Some f)
  else pure None.

Definition parse (buf : ConstBuffer) : Parser (option OatFile) :=
  parse_oatfile_impl false buf.

Definition parse_dex_files_only (buf : ConstBuffer)
    : Parser (option OatFile) :=
  parse_oatfile_impl true buf.

End Parse.

Arguments OatFile_064 {Contents_064 Contents_079} contents.
Arguments OatFile_079 {Contents_064 Contents_079} contents.
Arguments OatFile_Unknown {Contents_064 Contents_079} header_.
Arguments OatFile_Bad {Contents_064 Contents_079} header_.
Arguments status {Contents_064 Contents_079} f.
Arguments parse_oatfile_impl {Contents_064 Contents_079}
  OatFile_064_parse OatFile_079_parse dex_files_only buf.
Arguments parse {Contents_064 Contents_079}
  OatFile_064_parse OatFile_079_parse buf.
Arguments parse_dex_files_only {Contents_064 Contents_079}
  OatFile_064_parse OatFile_079_parse buf.

(** A version-specific parser that reads nothing, to run the dispatch
    on inputs that never reach it. *)
Definition skip_contents (dex_files_only : bool) (buf : ConstBuffer)
    (oat_offset : nat) : Parser unit :=
  pure tt.

(** Input buffers used below. *)
Definition whole (l : list Z) : ConstBuffer := {| ptr := 0; bytes := l |}.

Definition bad_magic_short : ConstBuffer :=
  whole [0xDE; 0xAD; 0xBE; 0xEF].

Definition bad_magic_header : ConstBuffer :=
  whole [0xDE; 0xAD; 0xBE; 0xEF; 0x30; 0x37; 0x39; 0x00; 0; 0; 0; 0].

(** Magic "oat\n", version "099\0", checksum 0. *)
Definition version_099 : ConstBuffer :=
  whole [0x6F; 0x61; 0x74; 0x0A; 0x30; 0x39; 0x39; 0x00; 0; 0; 0; 0].

(** Magic "oat\n", version field 0, checksum 0. *)
Definition version_zero : ConstBuffer :=
  whole [0x6F; 0x61; 0x74; 0x0A; 0; 0; 0; 0; 0; 0; 0; 0].

End oatmeal.

(** ** tools/oatmeal: writing files *)

Module oatmeal_build.
Import oatmeal.

Definition wrap32 (x : Z) : Z := x mod 2 ^ 32.

(** [align<Width>(in)] and [is_aligned<Width>(in)] on [uint32_t]. *)
Definition align (width in_ : Z) : Z :=
  Z.land (wrap32 (in_ + (width - 1))) (wrap32 (- width)).

Definition is_aligned (width in_ : Z) : bool :=
  Z.land in_ (width - 1) =? 0.

(** *** [class Adler32] *)

Record Adler32 := { a : Z; b : Z }.

Definition kModAdler : Z := 65521.

Definition Adler32_new : Adler32 := {| a := 1; b := 0 |}.

Definition Adler32_step (c : Adler32) (byte : Z) : Adler32 :=
  let a' := wrap32 (a c + byte) mod kModAdler in
  {| a := a'; b := wrap32 (b c + a') mod kModAdler |}.

Definition Adler32_update (c : Adler32) (data : list Z) : Adler32 :=
  fold_left Adler32_step data c.

Definition Adler32_get (c : Adler32) : Z :=
  Z.lor (wrap32 (Z.shiftl (b c) 16)) (a c).

Definition Adler32_compute (buf : list Z) : Z :=
  Adler32_get (Adler32_update Adler32_new buf).

(** *** [class FileHandle] and [class ChecksummingFileHandle] *)

(** Modelled from the spec: [util.cpp] is not among the sources. A file
    handle is the content of its file, the position of the next write,
    the count [bytes_written_] and the reference [seek_ref_] that
    [seek_set] is relative to. A write replaces the bytes at the position
    and extends the file as needed. The internal buffer of the
    checksumming handle is flushed before every seek and before the
    checksum is read, so it is left out. *)
Record FileHandle := {
  content : list Z;
  fpos : nat;
  bytes_written_ : nat;
  seek_ref_ : nat;
}.

Definition write_at (pos : nat) (data old : list Z) : list Z :=
  take pos old ++ repeat 0 (pos - length old) ++ data
  ++ drop (pos + length data) old.

Definition fwrite_impl (fh : FileHandle) (data : list Z) : FileHandle :=
  {| content := write_at (fpos fh) data (content fh);
     fpos := fpos fh + length data;
     bytes_written_ := bytes_written_ fh + length data;
     seek_ref_ := seek_ref_ fh |}.

Definition fopen_w : FileHandle :=
  {| content := []; fpos := 0; bytes_written_ := 0; seek_ref_ := 0 |}.

Definition reset_bytes_written (fh : FileHandle) : FileHandle :=
  {| content := content fh; fpos := fpos fh; bytes_written_ := 0;
     seek_ref_ := seek_ref_ fh |}.

Definition seek_set (fh : FileHandle) (offset : nat) : FileHandle :=
  {| content := content fh; fpos := offset + seek_ref_ fh;
     bytes_written_ := bytes_written_ fh; seek_ref_ := seek_ref_ fh |}.

Definition seek_begin (fh : FileHandle) : FileHandle := seek_set fh 0.

Definition set_seek_reference (fh : FileHandle) (offset : nat)
    : FileHandle :=
  {| content := content fh; fpos := fpos fh;
     bytes_written_ := bytes_written_ fh; seek_ref_ := offset |}.

Definition set_seek_reference_to_fpos (fh : FileHandle) : FileHandle :=
  set_seek_reference fh (fpos fh).

Record ChecksummingFileHandle := {
  base : FileHandle;
  cksum_ : Adler32;
}.

(** The virtual [fwrite] and [bytes_written()]. *)
Class Handle (H : Type) := {
  fwrite : H -> list Z -> H;
  bytes_written : H -> nat;
}.

#[export] Instance FileHandle_Handle : Handle FileHandle :=
  {| fwrite := fwrite_impl; bytes_written := bytes_written_ |}.

#[export] Instance ChecksummingFileHandle_Handle
    : Handle ChecksummingFileHandle :=
  {| fwrite := fun h data =>
       {| base := fwrite_impl (base h) data;
          cksum_ := Adler32_update (cksum_ h) data |};
     bytes_written := fun h => bytes_written_ (base h) |}.

Definition le32_bytes (value : Z) : list Z :=
  [Z.land value 255; Z.land (Z.shiftr value 8) 255;
   Z.land (Z.shiftr value 16) 255; Z.land (Z.shiftr value 24) 255].

Definition le16_bytes (value : Z) : list Z :=
  [Z.land value 255; Z.land (Z.shiftr value 8) 255].

Fixpoint string_bytes (s : string) : list Z :=
  match s with
  | EmptyString => []
  | String c s' => Z.of_N (Ascii.N_of_ascii c) :: string_bytes s'
  end.

Section Writers.
Context {H : Type} `{Handle H}.

Definition write_word (fh : H) (value : Z) : H :=
  fwrite fh (le32_bytes value).

Definition write_buf (fh : H) (buf : list Z) : H := fwrite fh buf.

Definition write_padding (fh : H) (byte : Z) (num : nat) : H :=
  fwrite fh (repeat byte num).

Definition write_str_and_null (fh : H) (str : string) : H :=
  fwrite fh (string_bytes str ++ [0]).

End Writers.

(** *** The header *)

Definition common_bytes (h : OatHeader_Common) : list Z :=
  le32_bytes (magic h) ++ le32_bytes (version h)
  ++ le32_bytes (adler32_checksum h).

Record OatHeader := {
  common : OatHeader_Common;
  instruction_set : Z;
  instruction_set_features_bitmap : Z;
  dex_file_count : Z;
  executable_offset : Z;
  interpreter_to_interpreter_bridge_offset : Z;
  interpreter_to_compiled_code_bridge_offset : Z;
  jni_dlsym_lookup_offset : Z;
  portable_imt_conflict_trampoline_offset : Z;
  portable_resolution_trampoline_offset : Z;
  portable_to_interpreter_bridge_offset : Z;
  quick_generic_jni_trampoline_offset : Z;
  quick_imt_conflict_trampoline_offset : Z;
  quick_resolution_trampoline_offset : Z;
  quick_to_interpreter_bridge_offset : Z;
  image_patch_delta : Z;
  image_file_location_oat_checksum : Z;
  image_file_location_oat_data_begin : Z;
  key_value_store_size : Z;
}.

Definition sizeof_OatHeader : Z := 84.

Definition OatHeader_size (version : Z) : Z :=
  if version =? V_045 then sizeof_OatHeader else sizeof_OatHeader - 3 * 4.

(** [OatHeader::update_checksum]: "we don't even bother". *)
Definition update_checksum (h : OatHeader) (cksum : Adler32) : Adler32 :=
  cksum.

(** The words that [OatHeader::write] emits after the common header. *)
Definition OatHeader_fields (h : OatHeader) : list Z :=
  [instruction_set h; instruction_set_features_bitmap h; dex_file_count h;
   executable_offset h; interpreter_to_interpreter_bridge_offset h;
   interpreter_to_compiled_code_bridge_offset h; jni_dlsym_lookup_offset h]
  ++ (if version (common h) =? V_045
      then [portable_imt_conflict_trampoline_offset h;
            portable_resolution_trampoline_offset h;
            portable_to_interpreter_bridge_offset h]
      else [])
  ++ [quick_generic_jni_trampoline_offset h;
      quick_imt_conflict_trampoline_offset h;
      quick_resolution_trampoline_offset h;
      quick_to_interpreter_bridge_offset h; image_patch_delta h;
      image_file_location_oat_checksum h;
      image_file_location_oat_data_begin h; key_value_store_size h].

Definition OatHeader_write {H} `{Handle H} (h : OatHeader) (fh : H) : H :=
  fold_left write_word (OatHeader_fields h)
    (write_buf fh (common_bytes (common h))).

Record ImageInfo_064 := {
  patch_delta : Z;
  oat_checksum : Z;
  data_begin : Z;
}.

Record DexInput := {
  filename : string;
  location : string;
}.

Definition build_header (oat_version : Z) (dex_input : list DexInput)
    (isa : Z) (keyvalue_size oat_size : Z)
    (image_info : option ImageInfo_064) : OatHeader :=
  {| common := {| magic := 0xcdcdcdcd; version := 0xcdcdcdcd;
                  adler32_checksum := 0xcdcdcdcd |};
     instruction_set := isa;
     instruction_set_features_bitmap := 1;
     dex_file_count := wrap32 (Z.of_nat (length dex_input));
     executable_offset := oat_size;
     interpreter_to_interpreter_bridge_offset := 0;
     interpreter_to_compiled_code_bridge_offset := 0;
     jni_dlsym_lookup_offset := 0;
     portable_imt_conflict_trampoline_offset := 0;
     portable_resolution_trampoline_offset := 0;
     portable_to_interpreter_bridge_offset := 0;
     quick_generic_jni_trampoline_offset := 0;
     quick_imt_conflict_trampoline_offset := 0;
     quick_resolution_trampoline_offset := 0;
     quick_to_interpreter_bridge_offset := 0;
     image_patch_delta :=
       match image_info with Some i => patch_delta i | None => 0 end;
     image_file_location_oat_checksum :=
       match image_info with Some i => oat_checksum i | None => 0 end;
     image_file_location_oat_data_begin :=
       match image_info with Some i => data_begin i | None => 0 end;
     key_value_store_size := keyvalue_size |}.

(** *** The key-value store *)

Definition KeyValue : Type := string * string.

Definition KeyValueStore_write {H} `{Handle H} (fh : H)
    (kv_pairs : list KeyValue) : H :=
  fold_left
    (fun fh e => write_str_and_null (write_str_and_null fh (fst e)) (snd e))
    kv_pairs fh.

Definition KeyValueStore_compute_size (kv_pairs : list KeyValue) : Z :=
  fold_left
    (fun ret e =>
       wrap32 (wrap32 (ret + Z.of_nat (String.length (fst e)) + 1)
               + Z.of_nat (String.length (snd e)) + 1))
    kv_pairs 0.

(** *** The files on disk *)

(** [fopen(name, "r")] yields the content of the file or null;
    [fopen(name, "w")] succeeds on the names in [can_create]. *)
Record FileSystem := {
  fopen_r : string -> option (list Z);
  can_create : string -> bool;
}.

Definition sizeof_DexFileHeader : nat := 112.

Record DexFileHeader := {
  checksum : Z;
  class_defs_size : Z;
}.

(** [fopen], [get_filesize], the check of the size and the [fread] of
    the header, as done for each input by the [compute_size] and [build]
    functions. Returns the size of the file and its header. *)
Definition read_dex_header (fs : FileSystem) (e : DexInput)
    : Checked (nat * DexFileHeader) :=
  match fopen_r fs (filename e) with
  | None => CheckFailed
  | Some data =>
      if (sizeof_DexFileHeader <=? length data)%nat
      then Done (length data,
                 {| checksum := le32 data 8;
                    class_defs_size := le32 data 96 |})
      else CheckFailed
  end.

Definition sizeof_ArtImageHeader_064 : nat := 52.

Definition read_image_info_064 (fs : FileSystem)
    (art_image_location : string) : option ImageInfo_064 :=
  match fopen_r fs art_image_location with
  | None => None
  | Some data =>
      if (sizeof_ArtImageHeader_064 <=? length data)%nat
      then Some {| patch_delta := le32 data 36;
                   oat_checksum := le32 data 16;
                   data_begin := le32 data 24 |}
      else None
  end.

(** *** The template parameters of [build_oatfile] *)

(** [DexFileListingType], [OatClassesType] and [LookupTablesType]. A
    [write] function receives the handle by reference and only calls
    [fwrite] and [bytes_written()] on it: it is given as the bytes it
    emits, as a function of the count of bytes written before, and it
    may fail a [CHECK]. *)
Class Layout := {
  DexFileT : Type;
  file_offset : DexFileT -> Z;
  compute_size : FileSystem -> list DexInput -> Checked Z;
  build : FileSystem -> list DexInput -> Z -> Checked (list DexFileT * Z);
  listing_write : list DexFileT -> list Z;
  classes_write : list DexFileT -> nat -> Checked (list Z);
  lookup_write :
    FileSystem -> list DexInput -> list DexFileT -> nat -> Checked (list Z);
}.

(** [write_dex_files]: the bytes streamed into the handle. *)
Fixpoint write_dex_files `{Layout} (fs : FileSystem)
    (dex_input : list DexInput) (dex_files : list DexFileT)
    (written : nat) : Checked (list Z) :=
  match dex_input, dex_files with
  | [], [] => Done []
  | input :: dex_input', dex_file :: dex_files' =>
      if file_offset dex_file =? Z.of_nat written then
        match fopen_r fs (filename input) with
        | None => CheckFailed
        | Some data =>
            match write_dex_files fs dex_input' dex_files'
                    (written + length data) with
            | CheckFailed => CheckFailed
            | Done rest => Done (data ++ rest)
            end
        end
      else CheckFailed
  | _, _ => CheckFailed
  end.

Definition key_value (art_image_location : string) : list KeyValue :=
  [("classpath", EmptyString); ("compiler-filter", "verify-none");
   ("debuggable", "false");
   ("dex2oat-cmdline", "--oat-file=/dev/null --dex-file=/dev/null");
   ("dex2oat-host", "X86"); ("has-patch-info", "false");
   ("native-debuggable", "false"); ("image-location", art_image_location);
   ("pic", "false")]%string.

Definition bind {A B} (c : Checked A) (k : A -> Checked B) : Checked B :=
  match c with CheckFailed => CheckFailed | Done a => k a end.

Notation "'try*' x '<-' c ';' k" := (bind c (fun x => k))
  (at level 10, x name, c at level 100, k at level 200, only parsing).

(** Under an ELF wrapper the AOT data starts at 0x1000. *)
Definition elf_rodata_offset : nat := 0x1000.

Section Build.
Context `{Layout}.

(** [ElfWriter] is not among the sources: what it does to the handle
    is left open. *)
Variable write_elf_headers :
  FileSystem -> list DexInput -> Z -> Z -> Z ->
  ChecksummingFileHandle -> ChecksummingFileHandle.

(** [build_oatfile] up to the rewriting of the common header (the
    statement [write_obj(cksum_fh, common_header)]). Returns
    [oat_size] and the handle, or [None] when the output file cannot
    be opened. *)
Definition write_oat_data (fs : FileSystem) (oat_file_name : string)
    (dex_input : list DexInput) (oat_version isa : Z) (write_elf : bool)
    (art_image_location : string)
    : Checked (option (Z * ChecksummingFileHandle)) :=
  let key_value := key_value art_image_location in
  let image_info :=
    if oat_version =? V_064
    then read_image_info_064 fs art_image_location else None in
  let keyvalue_size := KeyValueStore_compute_size key_value in
  try* dex_file_listing_size <- compute_size fs dex_input;
  let next_offset :=
    align 4 (wrap32 (OatHeader_size oat_version + keyvalue_size
                     + dex_file_listing_size)) in
  try* built <- build fs dex_input next_offset;
  let dex_files := fst built in
  let next_offset := snd built in
  let oat_size := align 0x1000 next_offset in
  let cksum := Adler32_new in
  let header :=
    build_header oat_version dex_input isa keyvalue_size oat_size
      image_info in
  let cksum := update_checksum header cksum in
  if negb (can_create fs oat_file_name) then Done None
  else
  let oat_fh := fopen_w in
  let oat_fh :=
    if write_elf
    then reset_bytes_written
           (set_seek_reference_to_fpos
              (write_padding oat_fh 0 elf_rodata_offset))
    else oat_fh in
  let oat_fh := OatHeader_write header oat_fh in
  let cksum_fh := {| base := oat_fh; cksum_ := cksum |} in
  let cksum_fh := KeyValueStore_write cksum_fh key_value in
  let cksum_fh := write_buf cksum_fh (listing_write dex_files) in
  let padding :=
    Z.to_nat (align 4 (wrap32 (Z.of_nat (bytes_written cksum_fh)))
              - Z.of_nat (bytes_written cksum_fh)) in
  let cksum_fh := write_buf cksum_fh (repeat 0 padding) in
  try* dex_bytes <-
    write_dex_files fs dex_input dex_files (bytes_written cksum_fh);
  let cksum_fh := write_buf cksum_fh dex_bytes in
  try* class_bytes <- classes_write dex_files (bytes_written cksum_fh);
  let cksum_fh := write_buf cksum_fh class_bytes in
  try* lookup_bytes <-
    lookup_write fs dex_input dex_files (bytes_written cksum_fh);
  let cksum_fh := write_buf cksum_fh lookup_bytes in
  let cksum_fh :=
    write_padding cksum_fh 0
      (Z.to_nat ((oat_size - Z.of_nat (bytes_written cksum_fh))
                 mod 2 ^ 64)) in
  let final_checksum := Adler32_get (cksum_ cksum_fh) in
  let cksum_fh :=
    {| base := seek_begin (base cksum_fh); cksum_ := cksum_ cksum_fh |} in
  let common_header :=
    {| magic := kOatMagicNum; version := oat_version;
       adler32_checksum := final_checksum |} in
  Done (Some (oat_size,
              write_buf cksum_fh (common_bytes common_header))).

(** [build_oatfile]: the status and the content of the file written. *)
Definition build_oatfile (fs : FileSystem) (oat_file_name : string)
    (dex_input : list DexInput) (oat_version isa : Z) (write_elf : bool)
    (art_image_location : string) : Checked (Status * list Z) :=
  try* r <- write_oat_data fs oat_file_name dex_input oat_version isa
              write_elf art_image_location;
  match r with
  | None => Done (BUILD_IO_ERROR, [])
  | Some (oat_size, cksum_fh) =>
      let cksum_fh :=
        if write_elf
        then
          write_elf_headers fs dex_input oat_version isa oat_size
            {| base := seek_begin (set_seek_reference (base cksum_fh) 0);
               cksum_ := cksum_ cksum_fh |}
        else cksum_fh in
      Done (BUILD_SUCCESS, content (base cksum_fh))
  end.

End Build.

(** *** The layout of versions 045 and 064 *)

Record DexFile_064 := {
  location_064 : string;
  location_checksum : Z;
  file_offset_064 : Z;
  class_offsets : list Z;
  (* ClassInfo: status and type *)
  class_info : list (Z * Z);
}.

Definition kStatusVerified : Z := 8.
Definition kOatClassNoneCompiled : Z := 2.
Definition sizeof_ClassInfo : Z := 4.

Fixpoint total_class_data_size (fs : FileSystem)
    (dex_input : list DexInput) (acc : Z) : Checked Z :=
  match dex_input with
  | [] => Done acc
  | e :: rest =>
      try* r <- read_dex_header fs e;
      total_class_data_size fs rest
        (wrap32 (acc + wrap32 (class_defs_size (snd r) * 4)))
  end.

Definition DexFileListing_064_compute_size (fs : FileSystem)
    (dex_input : list DexInput) : Checked Z :=
  let num_files := Z.of_nat (length dex_input) in
  let total_file_location_size :=
    fold_left
      (fun acc e => wrap32 (acc + Z.of_nat (String.length (location e))))
      dex_input 0 in
  try* total_class_data_size <- total_class_data_size fs dex_input 0;
  Done (wrap32 (total_file_location_size + total_class_data_size
                + num_files * 4 + num_files * 4 + num_files * 4)).

(** The first loop of [DexFileListing_064::build]; the accumulator holds
    [total_dex_size], [total_class_info_size] and the files so far. *)
Fixpoint build_064_loop (fs : FileSystem) (dex_input : list DexInput)
    (next_offset total_dex_size total_class_info_size : Z)
    (dex_files : list DexFile_064) : Checked (Z * Z * list DexFile_064) :=
  match dex_input with
  | [] => Done (total_dex_size, total_class_info_size, dex_files)
  | dex :: rest =>
      let dex_offset := wrap32 (next_offset + total_dex_size) in
      try* r <- read_dex_header fs dex;
      let file_size := fst r in
      let header := snd r in
      let padded_size := align 4 (wrap32 (Z.of_nat file_size)) in
      let num_classes := class_defs_size header in
      build_064_loop fs rest next_offset
        (wrap32 (total_dex_size + padded_size))
        (wrap32 (total_class_info_size + wrap32 (num_classes * 4)))
        (dex_files ++
         [{| location_064 := location dex;
             location_checksum := checksum header;
             file_offset_064 := dex_offset;
             class_offsets := repeat 0 (Z.to_nat num_classes);
             class_info :=
               repeat (kStatusVerified, kOatClassNoneCompiled)
                      (Z.to_nat num_classes) |}])
  end.

(** The second loop: the class offsets of each file in turn. *)
Fixpoint assign_class_offsets (dex_files : list DexFile_064)
    (first_class_info_offset : Z) : list DexFile_064 :=
  match dex_files with
  | [] => []
  | dex :: rest =>
      let n := length (class_offsets dex) in
      {| location_064 := location_064 dex;
         location_checksum := location_checksum dex;
         file_offset_064 := file_offset_064 dex;
         class_offsets :=
           map (fun i => wrap32 (first_class_info_offset
                                 + Z.of_nat i * sizeof_ClassInfo))
               (seq 0 n);
         class_info := class_info dex |}
      :: assign_class_offsets rest
           (wrap32 (first_class_info_offset
                    + Z.of_nat n * sizeof_ClassInfo))
  end.

Definition DexFileListing_064_build (fs : FileSystem)
    (dex_input : list DexInput) (next_offset : Z)
    : Checked (list DexFile_064 * Z) :=
  try* r <- build_064_loop fs dex_input next_offset 0 0 [];
  let total_dex_size := fst (fst r) in
  let total_class_info_size := snd (fst r) in
  let dex_files := snd r in
  let next_offset := wrap32 (next_offset + total_dex_size) in
  let first_class_info_offset := next_offset in
  let next_offset := wrap32 (next_offset + total_class_info_size) in
  Done (assign_class_offsets dex_files first_class_info_offset, next_offset).

Definition DexFileListing_064_write (dex_files : list DexFile_064)
    : list Z :=
  flat_map
    (fun file =>
       le32_bytes (wrap32 (Z.of_nat (String.length (location_064 file))))
       ++ string_bytes (location_064 file)
       ++ le32_bytes (location_checksum file)
       ++ le32_bytes (file_offset_064 file)
       ++ flat_map le32_bytes (class_offsets file))
    dex_files.

Fixpoint OatClasses_064_write (dex_files : list DexFile_064)
    (written : nat) : Checked (list Z) :=
  match dex_files with
  | [] => Done []
  | file :: rest =>
      match class_offsets file with
      | [] => OatClasses_064_write rest written
      | first :: _ =>
          if first =? Z.of_nat written then
            let data :=
              flat_map (fun info => le16_bytes (fst info)
                                    ++ le16_bytes (snd info))
                       (class_info file) in
            try* more <- OatClasses_064_write rest (written + length data);
            Done (data ++ more)
          else CheckFailed
      end
  end.

Definition LookupTables_Nil_write (fs : FileSystem)
    (dex_input : list DexInput) (dex_files : list DexFile_064)
    (written : nat) : Checked (list Z) :=
  Done [].

#[export] Instance Layout_064 : Layout :=
  {| DexFileT := DexFile_064;
     file_offset := file_offset_064;
     compute_size := DexFileListing_064_compute_size;
     build := DexFileListing_064_build;
     listing_write := DexFileListing_064_write;
     classes_write := OatClasses_064_write;
     lookup_write := LookupTables_Nil_write |}.

(** [OatFile_064::build] *)
Definition OatFile_064_build := @build_oatfile Layout_064.

(** *** A build of version 064 from one class-less dex file *)

Definition empty_dex : list Z := repeat 0 112.

Definition disk : FileSystem :=
  {| fopen_r := fun name =>
       if String.eqb name "a.dex" then Some empty_dex else None;
     can_create := fun name => String.eqb name "out.oat" |}.

Definition one_dex : list DexInput :=
  [{| filename := "a.dex"; location := "a.dex" |}].

Definition kArm : Z := 1.

Definition no_elf_writer (_ : FileSystem) (_ : list DexInput) (_ _ _ : Z)
    (h : ChecksummingFileHandle) : ChecksummingFileHandle := h.

Definition sample_build : Checked (Status * list Z) :=
  OatFile_064_build no_elf_writer disk "out.oat" one_dex V_064 kArm false EmptyString.

Definition sample_file : list Z :=
  match sample_build with
  | Done (_, file) => file
  | CheckFailed => []
  end.

Definition sample_data : Checked (option (Z * ChecksummingFileHandle)) :=
  @write_oat_data Layout_064 disk "out.oat" one_dex V_064 kArm false EmptyString.

Definition sample_size : Z :=
  match sample_data with Done (Some (size, _)) => size | _ => 0 end.

Definition sample_handle : ChecksummingFileHandle :=
  match sample_data with
  | Done (Some (_, h)) => h
  | _ => {| base := fopen_w; cksum_ := Adler32_new |}
  end.

(** *** Predicates on handles used to state what a build writes *)

(** The handle writes at the end of its file. *)
Definition at_end (fh : FileHandle) : Prop :=
  fpos fh = length (content fh).

(** What holds of the checksumming handle while the body is written:
    the file is [front] followed by [body], and the checksum is that of
    [body]. *)
Definition covers (front : list Z) (start : nat)
    (h : ChecksummingFileHandle) (body : list Z) : Prop :=
  content (base h) = front ++ body
  /\ at_end (base h)
  /\ seek_ref_ (base h) = start
  /\ cksum_ h = Adler32_update Adler32_new body.

(** The common header as [build_header] fills it. *)
Definition placeholder : OatHeader_Common :=
  {| magic := 0xcdcdcdcd; version := 0xcdcdcdcd;
     adler32_checksum := 0xcdcdcdcd |}.

End oatmeal_build.


(** ** opt/regalloc/GraphColoring.cpp: the select stage *)

Module regalloc.

Local Open Scope nat_scope.

(** [reg_t] is a 32-bit unsigned integer; the numbers met here are bounded
    by the size of the register file, so [nat] is used. *)
Abbreviation reg_t := nat.

(** What [select] reads of a node of the interference graph. *)
Record Node := {
  adjacent : list reg_t;
  width : nat;
  max_vreg : reg_t;
}.

Record Graph := {
  get_node : reg_t -> Node;
}.

(** Modelled from the spec: [VirtualRegistersFile.h] is not among the
    sources. The file is a bitmap of vregs, [true] for a free one; the
    vregs beyond its end are free. [alloc_at] marks [width] vregs from
    [pos] on as occupied, growing the file as needed; [alloc] allocates
    the lowest [width] contiguous free vregs and returns the first. *)
Abbreviation VirtualRegistersFile := (list bool).

Definition is_free_at (f : VirtualRegistersFile) (j : reg_t) : bool :=
  match f !! j with
  | Some free => free
  | None => true
  end.

Definition is_free (f : VirtualRegistersFile) (pos : reg_t) (width : nat)
    : bool :=
  forallb (is_free_at f) (seq pos width).

Definition alloc_at (f : VirtualRegistersFile) (pos : reg_t) (width : nat)
    : VirtualRegistersFile :=
  (fun j => if (pos <=? j) && (j <? pos + width) then false
            else is_free_at f j)
  <$> seq 0 (Nat.max (length f) (pos + width)).

Fixpoint first_fit (f : VirtualRegistersFile) (width : nat) (i : reg_t)
    (fuel : nat) : reg_t :=
  match fuel with
  | O => i
  | S fuel' => if is_free f i width then i
               else first_fit f width (S i) fuel'
  end.

Definition alloc (f : VirtualRegistersFile) (width : nat)
    : reg_t * VirtualRegistersFile :=
  let pos := first_fit f width 0 (length f) in
  (pos, alloc_at f pos width).

(** [transform::RegMap] *)
Record RegisterTransform := {
  map : gmap reg_t reg_t;
  size : reg_t;
}.

Record SpillPlan := {
  global_spills : gmap reg_t reg_t;
  spill_costs : gmap reg_t nat;
}.

(** [std::unordered_map::emplace] keeps an existing entry. *)
Definition emplace {V} (k : reg_t) (v : V) (m : gmap reg_t V)
    : gmap reg_t V :=
  match m !! k with
  | Some _ => m
  | None => <[k := v]> m
  end.

Definition mark_adjacent (ig : Graph) (reg : reg_t)
    (reg_map : gmap reg_t reg_t) (vreg_file : VirtualRegistersFile)
    : VirtualRegistersFile :=
  fold_left
    (fun vreg_file adj =>
       match reg_map !! adj with
       | Some vreg => alloc_at vreg_file vreg (width (get_node ig adj))
       | None => vreg_file
       end)
    (adjacent (get_node ig reg)) vreg_file.

(** The state of the loop of [Allocator::select]. *)
Record SelectState := {
  reg_transform : RegisterTransform;
  spill_plan : SpillPlan;
  vregs_size : reg_t;
}.

(** The vreg that [vreg_file.alloc(node.width())] returns for [reg]. *)
Definition candidate (ig : Graph) (reg : reg_t)
    (reg_map : gmap reg_t reg_t) : reg_t :=
  fst (alloc (mark_adjacent ig reg reg_map []) (width (get_node ig reg))).

(** One iteration of the loop, for the register popped. *)
Definition select_step (ig : Graph) (st : SelectState) (reg : reg_t)
    : SelectState :=
  let node := get_node ig reg in
  let vreg_file := mark_adjacent ig reg (map (reg_transform st)) [] in
  let allocated := alloc vreg_file (width node) in
  let vreg := fst allocated in
  let vreg_file := snd allocated in
  let st' :=
    if vreg <=? max_vreg node then
      {| reg_transform :=
           {| map := emplace reg vreg (map (reg_transform st));
              size := size (reg_transform st) |};
         spill_plan := spill_plan st;
         vregs_size := vregs_size st |}
    else
      {| reg_transform := reg_transform st;
         spill_plan :=
           {| global_spills :=
                emplace reg vreg (global_spills (spill_plan st));
              spill_costs := emplace reg 0 (spill_costs (spill_plan st)) |};
         vregs_size := vregs_size st |} in
  {| reg_transform := reg_transform st';
     spill_plan := spill_plan st';
     vregs_size := Nat.max (vregs_size st') (length vreg_file) |}.

(** The loop: the stack is popped from its head. *)
Definition select_loop (ig : Graph) (select_stack : list reg_t)
    (st : SelectState) : SelectState :=
  fold_left (select_step ig) select_stack st.

Definition select (ig : Graph) (select_stack : list reg_t)
    (rt : RegisterTransform) (sp : SpillPlan)
    : RegisterTransform * SpillPlan :=
  let st := select_loop ig select_stack
              {| reg_transform := rt; spill_plan := sp; vregs_size := 0 |} in
  ({| map := map (reg_transform st); size := vregs_size st |},
   spill_plan st).

(** Vreg [j] holds a neighbour of [reg] that is already coloured. *)
Definition occupied (ig : Graph) (reg : reg_t) (reg_map : gmap reg_t reg_t)
    (j : reg_t) : Prop :=
  exists adj vreg,
    adj ∈ adjacent (get_node ig reg)
    /\ reg_map !! adj = Some vreg
    /\ vreg <= j < vreg + width (get_node ig adj).

(** The [width] vregs from [i] on are free of coloured neighbours. *)
Definition fits (ig : Graph) (reg : reg_t) (reg_map : gmap reg_t reg_t)
    (i : reg_t) : Prop :=
  forall j, i <= j < i + width (get_node ig reg) ->
            ~ occupied ig reg reg_map j.

(** A small graph: 0 - 1 - 2, node 2 is wide and must stay below 1. *)
Definition triangle : Graph :=
  {| get_node := fun r =>
       match r with
       | 0 => {| adjacent := [1]; width := 1; max_vreg := 15 |}
       | 1 => {| adjacent := [0; 2]; width := 1; max_vreg := 15 |}
       | _ => {| adjacent := [1]; width := 2; max_vreg := 0 |}
       end |}.

Definition empty_transform : RegisterTransform :=
  {| map := ∅; size := 0 |}.

Definition empty_plan : SpillPlan :=
  {| global_spills := ∅; spill_costs := ∅ |}.

(** The entries of a register: its vreg, its global spill and its cost. *)
Definition entries (st : SelectState) (reg : reg_t)
    : option reg_t * option reg_t * option nat :=
  (map (reg_transform st) !! reg,
   global_spills (spill_plan st) !! reg,
   spill_costs (spill_plan st) !! reg).

End regalloc.

(** ** libredex/ClassHierarchy.cpp *)

Module ClassHierarchy.

(** Types, strings and protos are interned: a pointer stands for its
    value, and is modelled by it. *)
Abbreviation DexType := string.
Abbreviation DexString := string.
Abbreviation DexProto := string.

(** A method is interned too: it is its container, name and proto. *)
Record DexMethod := {
  get_class : DexType;
  get_name : DexString;
  get_proto : DexProto;
}.

#[export] Instance DexMethod_eq_dec : EqDecision DexMethod.
Proof. solve_decision. Defined.

Record DexClass := {
  get_type : DexType;
  get_super_class : option DexType;
  is_interface : bool;
  is_external : bool;
  get_dmethods : list DexMethod;
  get_vmethods : list DexMethod;
}.

(** [using TypeSet = std::set<const DexType*, dextypes_comparator>] and
    [using ClassHierarchy = std::unordered_map<const DexType*, TypeSet>]. *)
Abbreviation TypeSet := (gset string).
Abbreviation ClassHierarchy := (gmap string (gset string)).

Definition get_object_type : DexType := "Ljava/lang/Object;".

(** [hierarchy[type]]: the entry, created empty when missing. *)
Definition entry (hierarchy : ClassHierarchy) (type : DexType) : TypeSet :=
  default ∅ (hierarchy !! type).

Definition add_child (hierarchy : ClassHierarchy) (parent child : DexType)
    : ClassHierarchy :=
  <[parent := {[child]} ∪ entry hierarchy parent]> hierarchy.

Definition build_class_hierarchy (hierarchy : ClassHierarchy)
    (cls : DexClass) : ClassHierarchy :=
  let hierarchy :=
    <[get_type cls := entry hierarchy (get_type cls)]> hierarchy in
  let type := get_type cls in
  match get_super_class cls with
  | Some super => add_child hierarchy super type
  | None =>
      if negb (String.eqb type get_object_type)
      then add_child hierarchy get_object_type type
      else hierarchy
  end.

(** [g_redex->walk_type_class] visits every class known to the context,
    given here as [all_classes]. *)
Definition build_external_hierarchy (all_classes : list DexClass)
    (hierarchy : ClassHierarchy) : ClassHierarchy :=
  fold_left
    (fun hierarchy cls =>
       if negb (is_external cls) || is_interface cls then hierarchy
       else build_class_hierarchy hierarchy cls)
    all_classes hierarchy.

Definition build_type_hierarchy (all_classes : list DexClass)
    (scope : list DexClass) : ClassHierarchy :=
  let hierarchy :=
    fold_left
      (fun hierarchy cls =>
         if is_interface cls then hierarchy
         else build_class_hierarchy hierarchy cls)
      scope ∅ in
  build_external_hierarchy all_classes hierarchy.

(** Modelled from the spec: [get_children] is declared in
    [ClassHierarchy.h], which is not among the sources;
    [direct_children(t)] are the immediate subclasses recorded for [t],
    none when [t] has no entry. *)
Definition get_children (hierarchy : ClassHierarchy) (type : DexType)
    : TypeSet :=
  default ∅ (hierarchy !! type).

(** [get_all_children]; [children] is the set the caller passes by
    reference. The recursion ends only when the hierarchy has no cycle
    below [type]: [fuel] bounds its depth and [None] means that the
    bound was hit. The set is visited in the order of [elements]. *)
Fixpoint get_all_children (fuel : nat) (hierarchy : ClassHierarchy)
    (type : DexType) (children : TypeSet) : option TypeSet :=
  match fuel with
  | O => None
  | S fuel' =>
      fold_left
        (fun acc child =>
           match acc with
           | None => None
           | Some children =>
               get_all_children fuel' hierarchy child ({[child]} ∪ children)
           end)
        (elements (get_children hierarchy type)) (Some children)
  end.

(** [c] is a direct child of [p]. *)
Definition child (hierarchy : ClassHierarchy) (p c : DexType) : Prop :=
  c ∈ get_children hierarchy p.

(** [x] is a transitive descendant of [t]. *)
Definition descendant (hierarchy : ClassHierarchy) : relation DexType :=
  tc (child hierarchy).

Definition acyclic (hierarchy : ClassHierarchy) : Prop :=
  forall t, ~ descendant hierarchy t t.

(** With enough fuel the walk from [t] returns, and adds exactly the
    descendants of [t] to the set it is given. *)
Definition walks (hierarchy : ClassHierarchy) (t : DexType) (n : nat)
    (D : TypeSet) : Prop :=
  (forall x, x ∈ D <-> descendant hierarchy t x)
  /\ forall fuel acc, (n <= fuel)%nat ->
       get_all_children fuel hierarchy t acc = Some (acc ∪ D).

(** *** The collision search *)

Definition match_ (name : DexString) (proto : DexProto)
    (cls_meth : DexMethod) : bool :=
  bool_decide (name = get_name cls_meth)
  && bool_decide (proto = get_proto cls_meth).

Definition differs (method : DexMethod) (except : option DexMethod)
    : bool :=
  bool_decide (Some method <> except).

Section Resolver.
(** [type_class] looks a class up in the context; [resolve_virtual] is
    declared in [Resolver.h], which is not among the sources. *)
Variable type_class : DexType -> option DexClass.
Variable resolve_virtual :
  DexClass -> DexString -> DexProto -> option DexMethod.

(** [None] when [type] has no class: the source dereferences null. *)
Definition check_vmethods (name : DexString) (proto : DexProto)
    (type : DexType) : option (option DexMethod) :=
  match type_class type with
  | None => None
  | Some cls => Some (List.find (match_ name proto) (get_vmethods cls))
  end.

Definition check_dmethods (name : DexString) (proto : DexProto)
    (type : DexType) : option (option DexMethod) :=
  match type_class type with
  | None => None
  | Some cls => Some (List.find (match_ name proto) (get_dmethods cls))
  end.

Definition colliding (except : option DexMethod) (name : DexString)
    (proto : DexProto) (method : DexMethod) : bool :=
  match_ name proto method && differs method except.

(** [m && m != except] *)
Definition hit (m : option DexMethod) (except : option DexMethod)
    : bool :=
  match m with
  | Some method => differs method except
  | None => false
  end.

(** The loop over the descendants. *)
Fixpoint check_children (except : option DexMethod) (name : DexString)
    (proto : DexProto) (check_direct : bool) (children : list DexType)
    : option (option DexMethod) :=
  match children with
  | [] => Some None
  | child :: rest =>
      match check_vmethods name proto child with
      | None => None
      | Some vmethod =>
          if hit vmethod except then Some vmethod
          else if check_direct then
            match check_dmethods name proto child with
            | None => None
            | Some dmethod =>
                if hit dmethod except then Some dmethod
                else check_children except name proto check_direct rest
            end
          else check_children except name proto check_direct rest
      end
  end.

(** [find_collision_excepting]. The result is [Some r] when the call
    returns [r] ([r = None] is the null method); it is [None] when the
    call does not return: the walk over the descendants does not end
    within [fuel], or a descendant has no class. *)
Definition find_collision_excepting (fuel : nat) (ch : ClassHierarchy)
    (except : option DexMethod) (name : DexString) (proto : DexProto)
    (cls : DexClass) (is_virtual check_direct : bool)
    : option (option DexMethod) :=
  match List.find (colliding except name proto) (get_dmethods cls) with
  | Some method => Some (Some method)
  | None =>
  match List.find (colliding except name proto) (get_vmethods cls) with
  | Some method => Some (Some method)
  | None =>
  if negb is_virtual then Some None
  else
    let from_super :=
      match get_super_class cls with
      | None => None
      | Some super_type =>
          match type_class super_type with
          | None => None
          | Some super =>
              match resolve_virtual super name proto with
              | Some method =>
                  if differs method except then Some method else None
              | None => None
              end
          end
      end in
    match from_super with
    | Some method => Some (Some method)
    | None =>
        match get_all_children fuel ch (get_type cls) ∅ with
        | None => None
        | Some children =>
            check_children except name proto check_direct
              (elements children)
        end
    end
  end
  end.

End Resolver.

(** *** A small scope *)

Definition cls (type : DexType) (super : option DexType) : DexClass :=
  {| get_type := type; get_super_class := super; is_interface := false;
     is_external := false; get_dmethods := []; get_vmethods := [] |}.

Definition small_scope : list DexClass :=
  [cls "LA;" (Some get_object_type); cls "LAB;" (Some "LA;");
   cls "LAC;" (Some "LA;"); cls "LABD;" (Some "LAB;")].

Definition small_hierarchy : ClassHierarchy :=
  build_type_hierarchy [] small_scope.

(** In the small scope a subclass has a longer name than its parent,
    except for the root. *)
Definition rank (type : DexType) : nat :=
  if String.eqb type get_object_type then 0%nat else String.length type.

Definition m_foo : DexMethod :=
  {| get_class := "LA;"; get_name := "foo"; get_proto := "()V" |}.

Definition m_bar : DexMethod :=
  {| get_class := "LA;"; get_name := "bar"; get_proto := "()V" |}.

Definition class_with_methods : DexClass :=
  {| get_type := "LA;"; get_super_class := Some get_object_type;
     is_interface := false; is_external := false;
     get_dmethods := [m_bar]; get_vmethods := [m_foo] |}.

End ClassHierarchy.

(** ** opt/redundant_move_elimination/AliasedRegisters.h *)

Module AliasedRegisters.

Inductive AbstractValueKind : Type := Bottom | Value | Top.

(** [AbstractValue<Derived>]: what the scaffolding calls of a value. *)
Class AbstractValue (V : Type) := {
  clear : V -> V;
  kind : V -> AbstractValueKind;
}.

(** [AbstractDomainScaffolding<Value, Derived>]: a kind and a value. *)
Record AbstractDomainScaffolding (V : Type) := {
  m_kind : AbstractValueKind;
  m_value : V;
}.

Arguments m_kind {V} _.
Arguments m_value {V} _.

Section Scaffolding.
Context {V : Type} `{AbstractValue V}.

Definition is_bottom (d : AbstractDomainScaffolding V) : bool :=
  match m_kind d with Bottom => true | _ => false end.

Definition is_top (d : AbstractDomainScaffolding V) : bool :=
  match m_kind d with Top => true | _ => false end.

Definition get_value (d : AbstractDomainScaffolding V) : V := m_value d.

(** Modelled from the spec: [AbstractDomain.h] is not among the
    sources. [normalize()] canonicalizes a value that is effectively
    top or bottom back to the sentinel: the kind becomes the kind of
    the value, and the value of a sentinel is cleared. A domain that
    is bottom is left as it is. *)
Definition normalize (d : AbstractDomainScaffolding V)
    : AbstractDomainScaffolding V :=
  match m_kind d with
  | Bottom => d
  | _ =>
      match kind (m_value d) with
      | Value => {| m_kind := Value; m_value := m_value d |}
      | k => {| m_kind := k; m_value := clear (m_value d) |}
      end
  end.

(** [AliasDomain::update]. The operation is a [std::function] that
    mutates the value it is given and may act on whatever it has
    captured: it is a function of the value and of a state [W] of
    the rest of the program. *)
Definition update {W : Type} (operation : W -> V -> W * V)
    (w : W) (d : AbstractDomainScaffolding V)
    : W * AbstractDomainScaffolding V :=
  if is_bottom d then (w, d)
  else
    let r := operation w (get_value d) in
    (fst r, normalize {| m_kind := m_kind d; m_value := snd r |}).

(** A sequence of updates. *)
Definition updates {W : Type} (operations : list (W -> V -> W * V))
    (w : W) (d : AbstractDomainScaffolding V)
    : W * AbstractDomainScaffolding V :=
  fold_left (fun s operation => update operation (fst s) (snd s))
    operations (w, d).

End Scaffolding.

(** [struct RegisterValue] *)
Inductive RegisterValue : Type :=
| REGISTER (reg : Z)
| CONST_LITERAL (literal : Z)
| CONST_STRING (str : string)
| CONST_TYPE (type : string)
| NONE.

(** Modelled from the spec: [AliasedRegisters.cpp] is not among the
    sources. An instance is an undirected graph over register values,
    given by its edges; without edges it says nothing and is Top. *)
Definition AliasedRegisters := list (RegisterValue * RegisterValue).

#[global] Instance AliasedRegisters_value : AbstractValue AliasedRegisters :=
  {| clear := fun _ => [];
     kind := fun g => match g with [] => Top | _ => Value end |}.

Definition make_aliased (r1 r2 : RegisterValue) (g : AliasedRegisters)
    : AliasedRegisters :=
  (r1, r2) :: g.

Definition AliasDomain := AbstractDomainScaffolding AliasedRegisters.

Definition bottom : AliasDomain := {| m_kind := Bottom; m_value := [] |}.

Definition top : AliasDomain := {| m_kind := Top; m_value := [] |}.

(** An operation that aliases v0 and v1 and counts its invocations. *)
Definition counting_alias (calls : nat) (g : AliasedRegisters)
    : nat * AliasedRegisters :=
  (S calls, make_aliased (REGISTER 0) (REGISTER 1) g).

End AliasedRegisters.

(** ** tools/oatmeal/main.cpp *)

Module oatmeal_main.
Import oatmeal oatmeal_build.

Local Open Scope string_scope.

(** [versionInt]: a version that is not known fails the [CHECK]. *)
Definition versionInt (version_str : string) : Checked Z :=
  if String.eqb version_str "045" then Done V_045
  else if String.eqb version_str "064" then Done V_064
  else if String.eqb version_str "079" then Done V_079
  else if String.eqb version_str "088" then Done V_088
  else CheckFailed.

Definition kMax : Z := 8.

Definition arch_strings : list (Z * string) :=
  [(0, "NONE"); (1, "arm"); (2, "arm64"); (3, "thumb2"); (4, "x86");
   (5, "x86_64"); (6, "mips"); (7, "mips64")].

Definition instruction_set (isa : string) : Z :=
  match List.find (fun e => String.eqb isa (snd e)) arch_strings with
  | Some e => fst e
  | None => kMax
  end.

Inductive Action : Type := DUMP | BUILD | NONE.

Record Arguments := {
  action : Action;
  write_elf : bool;
  oat_file : string;
  dex_files : list DexInput;
  oat_version : string;
  dump_classes : bool;
  dump_tables : bool;
  dump_memory_usage : bool;
  print_unverified_classes : bool;
  arch : string;
  art_image_location : string;
}.

(** What a run of the tool ends with: an exit code (from [return] in
    [main] or from [exit]), or an abort (a failed [CHECK], a null
    pointer dereferenced). *)
Inductive Outcome : Type :=
| Exit (code : Z)
| Abort.

(** The options as [getopt_long] returns them, with [optarg]. *)
Inductive Opt : Type :=
| opt_dump
| opt_write_elf
| opt_print_unverified_classes
| opt_build
| opt_arch (optarg : string)
| opt_oat (optarg : string)
| opt_dex (optarg : string)
| opt_dex_location (optarg : string)
| opt_dump_classes
| opt_dump_tables
| opt_dump_memory_usage
| opt_oat_version (optarg : string)
| opt_art_image_location (optarg : string)
| opt_missing_argument
| opt_invalid.

(** The state of the loop of [parse_args]: [ret], [dex_files] and
    [dex_locations]. *)
Record ParseState := {
  ret : Arguments;
  files : list string;
  locations : list string;
}.

Definition with_ret (st : ParseState) (f : Arguments -> Arguments)
    : ParseState :=
  {| ret := f (ret st); files := files st; locations := locations st |}.

Definition set_action (a : Action) (r : Arguments) : Arguments :=
  {| action := a; write_elf := write_elf r; oat_file := oat_file r;
     dex_files := dex_files r; oat_version := oat_version r;
     dump_classes := dump_classes r; dump_tables := dump_tables r;
     dump_memory_usage := dump_memory_usage r;
     print_unverified_classes := print_unverified_classes r;
     arch := arch r; art_image_location := art_image_location r |}.

Definition set_oat_file (s : string) (r : Arguments) : Arguments :=
  {| action := action r; write_elf := write_elf r; oat_file := s;
     dex_files := dex_files r; oat_version := oat_version r;
     dump_classes := dump_classes r; dump_tables := dump_tables r;
     dump_memory_usage := dump_memory_usage r;
     print_unverified_classes := print_unverified_classes r;
     arch := arch r; art_image_location := art_image_location r |}.

Definition set_oat_version (s : string) (r : Arguments) : Arguments :=
  {| action := action r; write_elf := write_elf r; oat_file := oat_file r;
     dex_files := dex_files r; oat_version := s;
     dump_classes := dump_classes r; dump_tables := dump_tables r;
     dump_memory_usage := dump_memory_usage r;
     print_unverified_classes := print_unverified_classes r;
     arch := arch r; art_image_location := art_image_location r |}.

Definition set_dex_files (l : list DexInput) (r : Arguments) : Arguments :=
  {| action := action r; write_elf := write_elf r; oat_file := oat_file r;
     dex_files := l; oat_version := oat_version r;
     dump_classes := dump_classes r; dump_tables := dump_tables r;
     dump_memory_usage := dump_memory_usage r;
     print_unverified_classes := print_unverified_classes r;
     arch := arch r; art_image_location := art_image_location r |}.

Definition set_flags (elf classes tables memory unverified : bool)
    (arch_ art : string) (r : Arguments) : Arguments :=
  {| action := action r; write_elf := elf; oat_file := oat_file r;
     dex_files := dex_files r; oat_version := oat_version r;
     dump_classes := classes; dump_tables := tables;
     dump_memory_usage := memory; print_unverified_classes := unverified;
     arch := arch_; art_image_location := art |}.

Definition is_dump (a : Action) : bool :=
  match a with DUMP => true | _ => false end.

Definition is_build (a : Action) : bool :=
  match a with BUILD => true | _ => false end.

Definition is_none (a : Action) : bool :=
  match a with NONE => true | _ => false end.

Definition is_empty (s : string) : bool := String.eqb s EmptyString.

Definition default_arguments : Arguments :=
  {| action := NONE; write_elf := false; oat_file := EmptyString;
     dex_files := []; oat_version := EmptyString; dump_classes := false;
     dump_tables := false; dump_memory_usage := false;
     print_unverified_classes := false; arch := EmptyString;
     art_image_location := EmptyString |}.

Section Tool.
(** [expand] relies on [wordexp]; the builder of versions 079 and 088
    ([OatFile_079::build]) and the two parsers are taken as given. *)
Variable expand : string -> string.
Variable OatFile_079_build :
  FileSystem -> string -> list DexInput -> Z -> Z -> bool -> string ->
  Checked (Status * list Z).
Variables Contents_064 Contents_079 : Type.
Variable OatFile_064_parse :
  bool -> ConstBuffer -> nat -> Parser Contents_064.
Variable OatFile_079_parse :
  bool -> ConstBuffer -> nat -> Parser Contents_079.

(** One turn of the loop of [parse_args]; [inr code] is [exit(code)]. *)
Definition parse_opt (st : ParseState) (c : Opt) : ParseState + Z :=
  let r := ret st in
  match c with
  | opt_dump =>
      if negb (is_dump (action r)) && negb (is_none (action r))
      then inr 1 else inl (with_ret st (set_action DUMP))
  | opt_write_elf =>
      inl (with_ret st
             (set_flags true (dump_classes r) (dump_tables r)
                (dump_memory_usage r) (print_unverified_classes r)
                (arch r) (art_image_location r)))
  | opt_print_unverified_classes =>
      inl (with_ret st
             (set_flags (write_elf r) (dump_classes r) (dump_tables r)
                (dump_memory_usage r) true (arch r)
                (art_image_location r)))
  | opt_build =>
      if negb (is_build (action r)) && negb (is_none (action r))
      then inr 1 else inl (with_ret st (set_action BUILD))
  | opt_arch optarg =>
      inl (with_ret st
             (set_flags (write_elf r) (dump_classes r) (dump_tables r)
                (dump_memory_usage r) (print_unverified_classes r)
                optarg (art_image_location r)))
  | opt_oat optarg =>
      if negb (is_empty (oat_file r)) then inr 1
      else inl (with_ret st (set_oat_file (expand optarg)))
  | opt_dex optarg =>
      inl {| ret := r; files := files st ++ [expand optarg];
             locations := locations st |}
  | opt_dex_location optarg =>
      inl {| ret := r; files := files st;
             locations := locations st ++ [optarg] |}
  | opt_dump_classes =>
      inl (with_ret st
             (set_flags (write_elf r) true (dump_tables r)
                (dump_memory_usage r) (print_unverified_classes r)
                (arch r) (art_image_location r)))
  | opt_dump_tables =>
      inl (with_ret st
             (set_flags (write_elf r) (dump_classes r) true
                (dump_memory_usage r) (print_unverified_classes r)
                (arch r) (art_image_location r)))
  | opt_dump_memory_usage =>
      inl (with_ret st
             (set_flags (write_elf r) (dump_classes r) (dump_tables r)
                true (print_unverified_classes r) (arch r)
                (art_image_location r)))
  | opt_oat_version optarg =>
      inl (with_ret st (set_oat_version optarg))
  | opt_art_image_location optarg =>
      inl (with_ret st
             (set_flags (write_elf r) (dump_classes r) (dump_tables r)
                (dump_memory_usage r) (print_unverified_classes r)
                (arch r) optarg))
  | opt_missing_argument => inr 1
  | opt_invalid => inr 1
  end.

Fixpoint parse_opts (st : ParseState) (argv : list Opt)
    : ParseState + Z :=
  match argv with
  | [] => inl st
  | c :: rest =>
      match parse_opt st c with
      | inl st' => parse_opts st' rest
      | inr code => inr code
      end
  end.

Definition parse_args (argv : list Opt) : Arguments + Z :=
  match parse_opts {| ret := default_arguments; files := [];
                      locations := [] |} argv with
  | inr code => inr code
  | inl st =>
      let r := ret st in
      if negb (is_dump (action r)) && print_unverified_classes r
      then inr 1
      else if (0 <? length (locations st))%nat then
        if negb (length (locations st) =? length (files st))%nat
        then inr 1
        else
          inl (set_dex_files
                 (zip_with (fun file loc =>
                              {| filename := file; location := loc |})
                           (files st) (locations st)) r)
      else
        inl (set_dex_files
               (List.map (fun f => {| filename := f; location := f |})
                         (files st)) r)
  end.

(** [OatFile::build] *)
Definition OatFile_build (fs : FileSystem) (oat_file_name : string)
    (dex_files : list DexInput) (oat_version arch : string)
    (write_elf : bool) (art_image_location : string)
    : Checked (Status * list Z) :=
  match versionInt oat_version with
  | CheckFailed => CheckFailed
  | Done version =>
      let isa := instruction_set arch in
      if ((version =? V_079) || (version =? V_088))%Z then
        OatFile_079_build fs oat_file_name dex_files version isa
          write_elf art_image_location
      else
        OatFile_064_build no_elf_writer fs oat_file_name dex_files
          version isa write_elf art_image_location
  end.

Definition dump (fs : FileSystem) (args : Arguments) : Outcome :=
  if is_empty (oat_file args) then Exit 1
  else
    match fopen_r fs (oat_file args) with
    | None => Exit 1
    | Some file_contents =>
        match parse OatFile_064_parse OatFile_079_parse
                (whole file_contents) [] with
        | CheckFailed => Abort
        | Done (None, _) => Abort
        | Done (Some oatfile, _) =>
            match status oatfile with
            | PARSE_SUCCESS => Exit 0
            | _ => Exit 1
            end
        end
    end.

Definition build (fs : FileSystem) (args : Arguments) : Outcome :=
  if is_empty (oat_file args) then Exit 1
  else if (length (dex_files args) =? 0)%nat then Exit 1
  else if is_empty (oat_version args) then Exit 1
  else
    match OatFile_build fs (oat_file args) (dex_files args)
            (oat_version args) (arch args) (write_elf args)
            (art_image_location args) with
    | CheckFailed => Abort
    | Done _ => Exit 0
    end.

Definition main (fs : FileSystem) (argv : list Opt) : Outcome :=
  match parse_args argv with
  | inr code => Exit code
  | inl args =>
      match action args with
      | BUILD => build fs args
      | DUMP => dump fs args
      | NONE => Exit 1
      end
  end.

End Tool.

Arguments dump {Contents_064 Contents_079}
  OatFile_064_parse OatFile_079_parse fs args.
Arguments main expand OatFile_079_build {Contents_064 Contents_079}
  OatFile_064_parse OatFile_079_parse fs argv.

(** Building into a directory that does not exist. *)
Definition build_into_missing_directory : list Opt :=
  [opt_build; opt_oat "/missing/out.oat"; opt_dex "a.dex";
   opt_oat_version "064"; opt_arch "arm"].

End oatmeal_main.

(** ** tools/oatmeal/util.h: the rest of [ConstBuffer], and bit tricks *)

Module util_h.
Import oatmeal oatmeal_build.


(** [ConstBuffer::operator[]] *)
Definition index (buf : ConstBuffer) (n : nat) : Checked Z :=
  if negb (n <? len buf)%nat then CheckFailed
  else Done (nth n (bytes buf) 0).

(** The sum of the bytes, and the sum in which the byte at index [i] of
    [n] bytes counts [n - i] times: the two sums of Adler-32. *)
Definition byte_sum (data : list Z) : Z := fold_right Z.add 0 data.

Fixpoint weighted_sum (data : list Z) : Z :=
  match data with
  | [] => 0
  | d :: rest => Z.of_nat (length data) * d + weighted_sum rest
  end.

(** A byte, as [uint8_t]. *)
Definition is_byte (c : Z) : Prop := 0 <= c < 256.

End util_h.

(** ** tools/oatmeal/dump-oat.cpp: reading back what the builder writes *)

Module dump_oat.
Import oatmeal oatmeal_build util_h.

(** What a piece of the reader ends with. The reader copies from raw
    pointers: a copy that leaves the view of its buffer reads memory the
    buffer does not describe. *)
Inductive Outcome (A : Type) : Type :=
| OutOfFuel
| FailsCheck
| ReadsPastEnd
| Returns (a : A).

Arguments OutOfFuel {A}.
Arguments FailsCheck {A}.
Arguments ReadsPastEnd {A}.
Arguments Returns {A} a.

(** Conversion of an unsigned value to [int]. *)
Definition to_int (x : Z) : Z := (x + 2 ^ 31) mod 2 ^ 32 - 2 ^ 31.

(** [strnlen(s, maxlen)] *)
Fixpoint strnlen (s : list Z) (maxlen : nat) : nat :=
  match maxlen, s with
  | S maxlen', c :: s' => if c =? 0 then O else S (strnlen s' maxlen')
  | _, _ => O
  end.

(** The strings of the store as the reader keeps them: the bytes up to
    and including the terminator. *)
Definition KeyValueBytes : Type := list Z * list Z.

(** One of the two blocks of the loop of [KeyValueStore::KeyValueStore]:
    [len = strnlen(&buf[next], remaining) + 1] and the string of [len]
    bytes copied from [&buf[next]]. *)
Definition read_str (buf : ConstBuffer) (remaining : Z) (next : nat)
    : Outcome (list Z * nat) :=
  if negb (next <? len buf)%nat then FailsCheck
  else
    let len_ := S (strnlen (drop next (bytes buf)) (Z.to_nat remaining)) in
    if (next + len_ <=? len buf)%nat
    then Returns (take len_ (drop next (bytes buf)), len_)
    else ReadsPastEnd.

(** The loop of the constructor, for [remaining] and [next]. *)
Fixpoint KeyValueStore_loop (fuel : nat) (buf : ConstBuffer) (remaining : Z)
    (next : nat) (kv_pairs : list KeyValueBytes)
    : Outcome (list KeyValueBytes) :=
  match fuel with
  | O => OutOfFuel
  | S fuel' =>
      if negb (0 <? remaining) then Returns kv_pairs
      else
        match read_str buf remaining next with
        | Returns (first, len_) =>
            let next := (next + len_)%nat in
            let remaining := to_int (remaining - Z.of_nat len_) in
            if remaining <=? 0 then Returns kv_pairs
            else
              match read_str buf remaining next with
              | Returns (second, len_) =>
                  KeyValueStore_loop fuel' buf
                    (to_int (remaining - Z.of_nat len_)) (next + len_)%nat
                    (kv_pairs ++ [(first, second)])
              | OutOfFuel => OutOfFuel
              | FailsCheck => FailsCheck
              | ReadsPastEnd => ReadsPastEnd
              end
        | OutOfFuel => OutOfFuel
        | FailsCheck => FailsCheck
        | ReadsPastEnd => ReadsPastEnd
        end
  end.

(** [KeyValueStore::KeyValueStore(ConstBuffer)]; the marking of the
    buffer as consumed is recorded where the accounter is threaded, in
    [OatFile_064_parse_dex_files_only] below. *)
Definition KeyValueStore_new (fuel : nat) (buf : ConstBuffer)
    : Outcome (list KeyValueBytes) :=
  KeyValueStore_loop fuel buf (to_int (Z.of_nat (len buf))) 0 [].

(** A string without an embedded terminator. *)
Definition c_string (s : string) : Prop :=
  Forall (fun c => c <> 0) (string_bytes s).

(** The bytes of a string followed by its terminator, and the bytes of a
    list of pairs as [write_str_and_null] emits them one after the
    other. *)
Definition terminated (s : string) : list Z := string_bytes s ++ [0].

Definition KeyValueStore_bytes (kv_pairs : list KeyValue) : list Z :=
  flat_map (fun e => terminated (fst e) ++ terminated (snd e)) kv_pairs.

(** *** [OatHeader::parse] *)

(** [READ_WORD(dest, ptr)] at offset [off] of the buffer: the word and the
    range marked as consumed. *)
Definition READ_WORD (buf : ConstBuffer) (off : nat) (ma : MemoryAccounter)
    : Outcome (Z * MemoryAccounter) :=
  if (off + 4 <=? len buf)%nat
  then Returns (le32 (bytes buf) off, (ptr buf + off, 4)%nat :: ma)
  else ReadsPastEnd.

(** A sequence of [READ_WORD]s from [off] on, the pointer moving on by
    four each time. *)
Fixpoint READ_WORDS (count : nat) (buf : ConstBuffer) (off : nat)
    (ma : MemoryAccounter) : Outcome (list Z * MemoryAccounter) :=
  match count with
  | O => Returns ([], ma)
  | S count' =>
      match READ_WORD buf off ma with
      | Returns (word, ma) =>
          match READ_WORDS count' buf (off + 4) ma with
          | Returns (more, ma) => Returns (word :: more, ma)
          | OutOfFuel => OutOfFuel
          | FailsCheck => FailsCheck
          | ReadsPastEnd => ReadsPastEnd
          end
      | OutOfFuel => OutOfFuel
      | FailsCheck => FailsCheck
      | ReadsPastEnd => ReadsPastEnd
      end
  end.

Definition word (l : list Z) (i : nat) : Z := nth i l 0.

(** [OatHeader::parse]. The common header is copied after a check of the
    length; the words that follow are copied without one. The three
    portable offsets are read for version 045 only and are zero
    otherwise; [image_patch_delta] is an [int32_t]. *)
Definition OatHeader_parse (buf : ConstBuffer) (ma : MemoryAccounter)
    : Outcome (OatHeader * MemoryAccounter) :=
  if negb (sizeof_OatHeader_Common <=? len buf)%nat then FailsCheck
  else
    let common :=
      {| magic := le32 (bytes buf) 0; version := le32 (bytes buf) 4;
         adler32_checksum := le32 (bytes buf) 8 |} in
    let ma := (ptr buf, sizeof_OatHeader_Common) :: ma in
    match READ_WORDS 7 buf 12 ma with
    | Returns (w, ma) =>
        let is_045 := version common =? V_045 in
        match READ_WORDS (if is_045 then 3 else 0) buf 40 ma with
        | Returns (p, ma) =>
            match READ_WORDS 8 buf (if is_045 then 52 else 40) ma with
            | Returns (q, ma) =>
                if negb (magic common =? kOatMagicNum) then FailsCheck
                else
                  Returns
                    ({| common := common;
                        instruction_set := word w 0;
                        instruction_set_features_bitmap := word w 1;
                        dex_file_count := word w 2;
                        executable_offset := word w 3;
                        interpreter_to_interpreter_bridge_offset := word w 4;
                        interpreter_to_compiled_code_bridge_offset :=
                          word w 5;
                        jni_dlsym_lookup_offset := word w 6;
                        portable_imt_conflict_trampoline_offset := word p 0;
                        portable_resolution_trampoline_offset := word p 1;
                        portable_to_interpreter_bridge_offset := word p 2;
                        quick_generic_jni_trampoline_offset := word q 0;
                        quick_imt_conflict_trampoline_offset := word q 1;
                        quick_resolution_trampoline_offset := word q 2;
                        quick_to_interpreter_bridge_offset := word q 3;
                        image_patch_delta := to_int (word q 4);
                        image_file_location_oat_checksum := word q 5;
                        image_file_location_oat_data_begin := word q 6;
                        key_value_store_size := word q 7 |}, ma)
            | OutOfFuel => OutOfFuel
            | FailsCheck => FailsCheck
            | ReadsPastEnd => ReadsPastEnd
            end
        | OutOfFuel => OutOfFuel
        | FailsCheck => FailsCheck
        | ReadsPastEnd => ReadsPastEnd
        end
    | OutOfFuel => OutOfFuel
    | FailsCheck => FailsCheck
    | ReadsPastEnd => ReadsPastEnd
    end.

(** The fields of a header are 32-bit words, [image_patch_delta] a signed
    one; the portable offsets exist in version 045 only. *)
Definition uint32 (x : Z) : Prop := 0 <= x < 2 ^ 32.

Definition representable (h : OatHeader) : Prop :=
  Forall uint32
    [magic (common h); version (common h); adler32_checksum (common h);
     instruction_set h; instruction_set_features_bitmap h; dex_file_count h;
     executable_offset h; interpreter_to_interpreter_bridge_offset h;
     interpreter_to_compiled_code_bridge_offset h; jni_dlsym_lookup_offset h;
     portable_imt_conflict_trampoline_offset h;
     portable_resolution_trampoline_offset h;
     portable_to_interpreter_bridge_offset h;
     quick_generic_jni_trampoline_offset h;
     quick_imt_conflict_trampoline_offset h;
     quick_resolution_trampoline_offset h;
     quick_to_interpreter_bridge_offset h;
     image_file_location_oat_checksum h;
     image_file_location_oat_data_begin h; key_value_store_size h]
  /\ - 2 ^ 31 <= image_patch_delta h < 2 ^ 31
  /\ (version (common h) <> V_045 ->
      portable_imt_conflict_trampoline_offset h = 0
      /\ portable_resolution_trampoline_offset h = 0
      /\ portable_to_interpreter_bridge_offset h = 0).

(** A header of version 064 with every field set. *)
Definition sample_header : OatHeader :=
  {| common := {| magic := kOatMagicNum; version := V_064;
                  adler32_checksum := 0xdeadbeef |};
     instruction_set := 1;
     instruction_set_features_bitmap := 1;
     dex_file_count := 2;
     executable_offset := 0x3000;
     interpreter_to_interpreter_bridge_offset := 4;
     interpreter_to_compiled_code_bridge_offset := 5;
     jni_dlsym_lookup_offset := 6;
     portable_imt_conflict_trampoline_offset := 0;
     portable_resolution_trampoline_offset := 0;
     portable_to_interpreter_bridge_offset := 0;
     quick_generic_jni_trampoline_offset := 7;
     quick_imt_conflict_trampoline_offset := 8;
     quick_resolution_trampoline_offset := 9;
     quick_to_interpreter_bridge_offset := 10;
     image_patch_delta := -4096;
     image_file_location_oat_checksum := 0xffffffff;
     image_file_location_oat_data_begin := 0x70000000;
     key_value_store_size := 0x123 |}.

End dump_oat.

(** ** tools/oatmeal/main.cpp: what a command line asks for *)

Module command_line.
Import oatmeal_build oatmeal_main.

(** The arguments of the [--dex] options and of the [--dex-location]
    options of a command line, in order. *)
Definition dex_args (argv : list Opt) : list string :=
  omap (fun c => match c with opt_dex optarg => Some optarg | _ => None end)
       argv.

Definition dex_location_args (argv : list Opt) : list string :=
  omap (fun c => match c with
                 | opt_dex_location optarg => Some optarg
                 | _ => None
                 end) argv.

End command_line.

(** ** libredex/ClassHierarchy.cpp: which edges the index holds *)

Module hierarchy_edges.
Import ClassHierarchy.

(** The parent under which [build_class_hierarchy] records a class: its
    super class, or [java.lang.Object] when it has none and is not
    [java.lang.Object] itself. *)
Definition recorded_parent (cls : DexClass) : option DexType :=
  match get_super_class cls with
  | Some super => Some super
  | None =>
      if negb (String.eqb (get_type cls) get_object_type)
      then Some get_object_type else None
  end.

(** The classes that [build_type_hierarchy] records: the classes of the
    scope and the external classes of the context, interfaces apart. *)
Definition recorded (all_classes scope : list DexClass) : list DexClass :=
  filter (fun cls => is_interface cls = false) scope
  ++ filter (fun cls => is_external cls = true /\ is_interface cls = false)
       all_classes.

(** A hierarchy with a cycle: [LA;] and [LB;] extend one another. *)
Definition cyclic_hierarchy : ClassHierarchy :=
  build_type_hierarchy [] [cls "LA;" (Some "LB;"); cls "LB;" (Some "LA;")].

End hierarchy_edges.

(** ** libredex/PatriciaTreeMap.h: the shape of the trees *)

Module ptmap_shape.
Import pt_util ptmap_impl.

(** What the map asks of the domain of its values: [equals] decides
    equality and [is_top] recognizes [top]. *)
Class Lawful (Value : Type) `{Domain.AbstractDomain Value} : Prop := {
  equals_eq : forall x y : Value, Domain.equals x y = true <-> x = y;
  is_top_eq : forall x : Value, Domain.is_top x = true <-> x = Domain.top;
}.

Section Shape.
Context {Value : Type} `{Domain.AbstractDomain Value}.

(** The keys bound in a tree, from left to right. *)
Definition keys (t : PatriciaTree Value) : list Z := (bindings t).*1.

(** The trees that the operations build, for nodes allocated below
    address [n]: a node is allocated after its children; a leaf holds a
    key of [KEY_BITS] bits and a value that is not Top; the branching bit
    of a branch is a single bit, its prefix is made of the bits below
    it, the keys on the left have the prefix and a zero branching bit,
    those on the right the prefix and a one, and no side is empty. *)
Inductive wf : addr -> PatriciaTree Value -> Prop :=
| wf_nullptr n : wf n nullptr
| wf_leaf n a k v :
    (a < n)%N -> 0 <= k < 2 ^ KEY_BITS -> Domain.is_top v = false ->
    wf n (PatriciaTreeLeaf a k v)
| wf_branch n a p m i l r :
    (a < n)%N -> m = 2 ^ i -> 0 <= i < KEY_BITS -> 0 <= p < 2 ^ i ->
    l <> nullptr -> r <> nullptr -> wf a l -> wf a r ->
    (forall k, k ∈ keys l -> k mod 2 ^ i = p /\ Z.testbit k i = false) ->
    (forall k, k ∈ keys r -> k mod 2 ^ i = p /\ Z.testbit k i = true) ->
    wf n (PatriciaTreeBranch a p m l r).

End Shape.

End ptmap_shape.

(** ** tools/oatmeal/dump-oat.cpp: the sizes of a build *)

Module build_sizes.
Import oatmeal oatmeal_build util_h.

(** The files of the disk hold bytes. *)
Definition holds_bytes (fs : FileSystem) : Prop :=
  forall name data, fopen_r fs name = Some data -> Forall is_byte data.

(** The count of classes that the header of a dex input announces, and
    the size of the input as [get_filesize] returns it. *)
Definition classes_of (fs : FileSystem) (e : DexInput) : Z :=
  match read_dex_header fs e with
  | Done r => class_defs_size (snd r)
  | CheckFailed => 0
  end.

Definition size_of (fs : FileSystem) (e : DexInput) : Z :=
  match read_dex_header fs e with
  | Done r => Z.of_nat (fst r)
  | CheckFailed => 0
  end.


(** The sums of [DexFileListing_064::compute_size] and of
    [DexFileListing_064::build] without the wrap of the 32-bit additions:
    the lengths of the locations, four bytes per class, the sizes of the
    inputs; and the size of the listing: for each input the length of the
    location, its checksum and its offset (three words), the location,
    and an offset per class. *)
Definition locations_size (dex_input : list DexInput) : Z :=
  fold_right (fun e acc => Z.of_nat (String.length (location e)) + acc)
    0 dex_input.

Definition class_data_size (fs : FileSystem) (dex_input : list DexInput)
    : Z :=
  fold_right (fun e acc => 4 * classes_of fs e + acc) 0 dex_input.


Definition listing_size (fs : FileSystem) (dex_input : list DexInput) : Z :=
  locations_size dex_input + class_data_size fs dex_input
  + 12 * Z.of_nat (length dex_input).

(** What [DexFileListing_064::build] makes of one input. *)
Definition built_from (fs : FileSystem) (e : DexInput) (f : DexFile_064)
    : Prop :=
  location_064 f = location e
  /\ length (class_offsets f) = Z.to_nat (classes_of fs e)
  /\ length (class_info f) = Z.to_nat (classes_of fs e).




(** A disk with a dex file of 113 bytes. *)
Definition unaligned_disk : FileSystem :=
  {| fopen_r := fun name =>
       if String.eqb name "a.dex" then Some (repeat 0 113) else None;
     can_create := fun name => String.eqb name "out.oat" |}.

End build_sizes.

(** ** tools/oatmeal/dump-oat.cpp: the listing of the dex files, read back *)

Module dex_file_listing.
Import oatmeal oatmeal_build util_h dump_oat.

(** Sequencing of the pieces of the reader: the first piece that does
    not return ends the run. *)
Definition and_then {A B} (c : Outcome A) (k : A -> Outcome B)
    : Outcome B :=
  match c with
  | Returns a => k a
  | OutOfFuel => OutOfFuel
  | FailsCheck => FailsCheck
  | ReadsPastEnd => ReadsPastEnd
  end.

Notation "'run*' x '<-' c ';' k" := (and_then c (fun x => k))
  (at level 10, x name, c at level 100, k at level 200, only parsing).


(** [std::string(ptr, n)] *)
Fixpoint string_of_bytes (l : list Z) : string :=
  match l with
  | [] => EmptyString
  | c :: l' => String (Ascii.ascii_of_N (Z.to_N c)) (string_of_bytes l')
  end.

(** [file.location = std::string(ptr, location_len)], the marking of
    these bytes and [ptr += location_len]: the location, the offset after
    it and the accounter. Nothing checks that the bytes are in the
    buffer. *)
Definition read_location (buf : ConstBuffer) (off : nat) (location_len : Z)
    (ma : MemoryAccounter) : Outcome (string * nat * MemoryAccounter) :=
  let n := Z.to_nat location_len in
  if (off + n <=? len buf)%nat
  then Returns (string_of_bytes (take n (drop off (bytes buf))),
                (off + n)%nat, (ptr buf + off, n)%nat :: ma)
  else ReadsPastEnd.

(** *** Versions 079 and 088 *)

Record DexFile_079 := {
  location_079 : string;
  location_checksum_079 : Z;
  file_offset_079 : Z;
  num_classes_079 : Z;
  classes_offset : Z;
  lookup_table_offset : Z;
}.

(** The constructor [DexFileListing_079(numDexFiles, buf)]; [off] is
    [ptr - buf.ptr]. The constructor sets every member of an entry but
    [num_classes], which keeps the value that the default constructor
    left: [indeterminate]. *)
Fixpoint DexFileListing_079_loop (numDexFiles : nat) (indeterminate : Z)
    (buf : ConstBuffer) (off : nat) (ma : MemoryAccounter)
    (dex_files : list DexFile_079)
    : Outcome (list DexFile_079 * MemoryAccounter) :=
  match numDexFiles with
  | O => Returns (dex_files, ma)
  | S numDexFiles' =>
      run* r <- READ_WORD buf off ma;
      let '(location_len, ma) := r in
      run* r <- read_location buf (off + 4) location_len ma;
      let '(location, off, ma) := r in
      run* r <- READ_WORDS 4 buf off ma;
      let '(w, ma) := r in
      DexFileListing_079_loop numDexFiles' indeterminate buf (off + 16) ma
        (dex_files ++
         [{| location_079 := location;
             location_checksum_079 := word w 0;
             file_offset_079 := word w 1;
             num_classes_079 := indeterminate;
             classes_offset := word w 2;
             lookup_table_offset := word w 3 |}])
  end.

(** [numDexFiles] is an [int]: the loop runs while it is positive. *)
Definition DexFileListing_079_new (indeterminate : Z) (numDexFiles : Z)
    (buf : ConstBuffer) (ma : MemoryAccounter)
    : Outcome (list DexFile_079 * MemoryAccounter) :=
  DexFileListing_079_loop (Z.to_nat numDexFiles) indeterminate buf 0 ma [].

(** [DexFileListing_079::compute_size] *)
Definition DexFileListing_079_compute_size (dex_input : list DexInput) : Z :=
  let num_files := Z.of_nat (length dex_input) in
  let total_file_location_size :=
    fold_left
      (fun acc e => wrap32 (acc + Z.of_nat (String.length (location e))))
      dex_input 0 in
  wrap32 (total_file_location_size + num_files * 4 + num_files * 4
          + num_files * 4 + num_files * 4 + num_files * 4).

(** [DexFileListing_079::write]: the bytes written. *)
Definition DexFileListing_079_write (dex_files : list DexFile_079)
    : list Z :=
  flat_map
    (fun file =>
       le32_bytes (wrap32 (Z.of_nat (String.length (location_079 file))))
       ++ string_bytes (location_079 file)
       ++ le32_bytes (location_checksum_079 file)
       ++ le32_bytes (file_offset_079 file)
       ++ le32_bytes (classes_offset file)
       ++ le32_bytes (lookup_table_offset file))
    dex_files.

(** An entry whose words are 32-bit values and whose location is shorter
    than 2^32 characters. *)
Definition listed_079 (file : DexFile_079) : Prop :=
  Z.of_nat (String.length (location_079 file)) < 2 ^ 32
  /\ uint32 (location_checksum_079 file) /\ uint32 (file_offset_079 file)
  /\ uint32 (classes_offset file) /\ uint32 (lookup_table_offset file).

(** The entry with [num_classes] as the reader leaves it. *)
Definition as_read (indeterminate : Z) (file : DexFile_079) : DexFile_079 :=
  {| location_079 := location_079 file;
     location_checksum_079 := location_checksum_079 file;
     file_offset_079 := file_offset_079 file;
     num_classes_079 := indeterminate;
     classes_offset := classes_offset file;
     lookup_table_offset := lookup_table_offset file |}.

(** A listing of two entries. *)
Definition sample_listing_079 : list DexFile_079 :=
  [{| location_079 := "base.apk"; location_checksum_079 := 0xcafebabe;
      file_offset_079 := 0x200; num_classes_079 := 3;
      classes_offset := 0x1200; lookup_table_offset := 0x1300 |};
   {| location_079 := "base.apk:classes2.dex";
      location_checksum_079 := 0x12345678;
      file_offset_079 := 0x800; num_classes_079 := 0;
      classes_offset := 0x120c; lookup_table_offset := 0x1320 |}].

(** *** Versions 045 and 064, with [dex_files_only] set *)









(** [class OatFile_064] *)
Record OatFile_064 := {
  header_ : OatHeader;
  key_value_store_ : list KeyValueBytes;
  dex_file_listing_ : list DexFile_064;
  dex_files_ : list (list Z);
  oat_offset_ : nat;
}.




End dex_file_listing.

(** * Theorems *)

(** ** Patricia-tree maps *)

Section PatriciaTreeMapFacts.
Import ptmap_impl HashedSet Scenario.
Local Open Scope string_scope.

(** C1 (as amended). On the maps [m1] and [m2] of the scenario, the union
    with set union as combining function equals
    [{1 -> {a}, 2 -> {b,c}, 3 -> {d,e,f}, 4 -> {g}}] and its leaf for key 1
    is the very leaf of [m1] (same address); the intersection with set
    intersection as combining function equals [{2 -> {}, 3 -> {e}}]: key 2
    is bound in both maps and stays bound, to the empty set. *)
Theorem union_shares_and_intersection_keeps_common_keys :
  PatriciaTreeMap.equals (m1_union_m2 the_run) (expected_union the_run)
    = true
  /\ bindings (m1_union_m2 the_run)
     = [(4, Value {["g"]}); (2, Value {["b"; "c"]});
        (1, Value {["a"]}); (3, Value {["d"; "e"; "f"]})]
  /\ find_value 1 (m1_union_m2 the_run) = find_value 1 (m1 the_run)
  /\ find_value 1 (m1 the_run) = Some (1%N, Value {["a"]})
  /\ PatriciaTreeMap.equals (m1_inter_m2 the_run) (actual_inter the_run)
     = true
  /\ bindings (m1_inter_m2 the_run)
     = [(2, Value ∅); (3, Value {["e"]})].
Proof. repeat split; vm_compute; reflexivity. Qed.

(** Counterexample to C1 as stated: the intersection is not [{3 -> {e}}],
    neither when taken on the original [m1] nor when taken on [m1] as
    the union left it. *)
Lemma intersection_is_not_the_claimed_map :
  PatriciaTreeMap.equals (m1_inter_m2 the_run) (claimed_inter the_run)
    = false
  /\ PatriciaTreeMap.equals (m1_union_then_inter the_run)
       (claimed_inter the_run) = false
  /\ PatriciaTreeMap.at_ (m1_inter_m2 the_run) 2 = Value ∅
  /\ PatriciaTreeMap.at_ (claimed_inter the_run) 2 = Top.
Proof. repeat split; vm_compute; reflexivity. Qed.

End PatriciaTreeMapFacts.

Section PatriciaTreeLeqFacts.
Import ptmap_impl HashedSet.
Local Open Scope string_scope.

(** When both trees are leaves held at different addresses, [leq] compares
    the two values and never looks at the keys. *)
Lemma leq_leaf_leaf {V} `{Domain.AbstractDomain V} a1 k1 (v1 : V) a2 k2 v2 :
  a1 <> a2 ->
  ptmap_impl.leq (PatriciaTreeLeaf a1 k1 v1) (PatriciaTreeLeaf a2 k2 v2)
  = Domain.leq v1 v2.
Proof.
  intros Hne. simpl. unfold ptr_eq. simpl.
  rewrite bool_decide_eq_false_2; [reflexivity | congruence].
Qed.

(** C2 at the failing input [s = {1 -> {a}}], [t = {2 -> {a}}]: [s.leq(t)]
    returns true although key 2 is bound in [t] and not in [s], that is,
    although [s.at(2)], which is Top, is not below [t.at(2)]. *)
Theorem leq_of_two_leaves_ignores_the_keys :
  PatriciaTreeMap.leq LeqScenario.s LeqScenario.t = true
  /\ bindings LeqScenario.s = [(1, Value {["a"]})]
  /\ bindings LeqScenario.t = [(2, Value {["a"]})]
  /\ find_value 2 LeqScenario.s = None
  /\ PatriciaTreeMap.at_ LeqScenario.s 2 = Top
  /\ PatriciaTreeMap.at_ LeqScenario.t 2 = Value {["a"]}
  /\ Domain.leq (PatriciaTreeMap.at_ LeqScenario.s 2)
       (PatriciaTreeMap.at_ LeqScenario.t 2) = false.
Proof. repeat split; vm_compute; reflexivity. Qed.

End PatriciaTreeLeqFacts.

(** ** The parser of the AOT container *)

Section ParserFacts.
Import oatmeal.
Variables Contents_064 Contents_079 : Type.
Variable OatFile_064_parse :
  bool -> ConstBuffer -> nat -> Parser Contents_064.
Variable OatFile_079_parse :
  bool -> ConstBuffer -> nat -> Parser Contents_079.

Local Abbreviation parse_impl :=
  (parse_oatfile_impl OatFile_064_parse OatFile_079_parse).

Lemma OatHeader_Common_parse_ok buf ma :
  (sizeof_OatHeader_Common <= len buf)%nat ->
  OatHeader_Common_parse buf ma
  = Done ({| magic := le32 (bytes buf) 0;
             version := le32 (bytes buf) 4;
             adler32_checksum := le32 (bytes buf) 8 |},
          (ptr buf, sizeof_OatHeader_Common) :: ma).
Proof.
  intros Hlen. unfold OatHeader_Common_parse, and_then, check.
  destruct (Nat.leb_spec sizeof_OatHeader_Common (len buf)) as [_|]; [|lia].
  unfold memcpyAndMark, pure. do 2 f_equal.
  unfold len, sizeof_OatHeader_Common in *.
  destruct (bytes buf) as [|b0 [|b1 [|b2 [|b3 [|b4 [|b5 [|b6 [|b7
    [|b8 [|b9 [|b10 [|b11 rest]]]]]]]]]]]]; simpl in Hlen; try lia.
  reflexivity.
Qed.

(** C4 (as amended). Whenever the AOT data section of the buffer holds a
    whole common header (12 bytes) and its first word is not the magic,
    the parser returns an [OatFile_Bad], whose status is
    [PARSE_BAD_MAGIC_NUMBER], which carries the common header, and the
    only range of the input it has consumed is that header. *)
Theorem bad_magic_is_reported dex_files_only buf ma oat_offset data :
  oat_data_section buf = Done (oat_offset, data) ->
  (sizeof_OatHeader_Common <= len data)%nat ->
  le32 (bytes data) 0 <> kOatMagicNum ->
  exists f,
    parse_impl dex_files_only buf ma
    = Done (Some f,
            (ptr data, sizeof_OatHeader_Common)
            :: (ptr data, sizeof_OatHeader_Common) :: ma)
    /\ status f = PARSE_BAD_MAGIC_NUMBER
    /\ f = OatFile_Bad {| magic := le32 (bytes data) 0;
                          version := le32 (bytes data) 4;
                          adler32_checksum := le32 (bytes data) 8 |}.
Proof.
  intros Hsec Hlen Hmagic. eexists. split; [|split; [|reflexivity]].
  - unfold parse_oatfile_impl, and_then, lift. rewrite Hsec. simpl.
    rewrite (OatHeader_Common_parse_ok _ _ Hlen). simpl.
    destruct (Z.eqb_spec (le32 (bytes data) 0) kOatMagicNum) as [|_];
      [contradiction|]. simpl.
    unfold OatFile_Bad_parse, and_then.
    rewrite (OatHeader_Common_parse_ok _ _ Hlen). reflexivity.
  - reflexivity.
Qed.

(** A data section shorter than the common header fails the check of
    [OatHeader_Common::parse], whatever its first bytes are. *)
Lemma short_data_section_fails_the_check dex_files_only buf ma oat_offset
    data :
  oat_data_section buf = Done (oat_offset, data) ->
  (len data < sizeof_OatHeader_Common)%nat ->
  parse_impl dex_files_only buf ma = CheckFailed.
Proof.
  intros Hsec Hlen. unfold parse_oatfile_impl, and_then, lift.
  rewrite Hsec. cbn [fst snd].
  unfold OatHeader_Common_parse, and_then, check.
  destruct (Nat.leb_spec sizeof_OatHeader_Common (len data)); [lia|].
  reflexivity.
Qed.

(** C5 at the failing input: correct magic, version "099". The parser
    returns the null pointer, not a file of status
    [PARSE_UNKNOWN_VERSION]. *)
Theorem unrecognized_version_yields_null :
  parse_impl false version_099 []
  = Done (None, [(0%nat, sizeof_OatHeader_Common)])
  /\ le32 (bytes version_099) 0 = kOatMagicNum
  /\ ~ In (le32 (bytes version_099) 4) [V_045; V_064; V_079; V_088].
Proof.
  repeat split; try (vm_compute; reflexivity).
  vm_compute. intuition congruence.
Qed.

(** Only the version field 0 is reported as an unknown version. *)
Lemma version_zero_is_unknown :
  exists f,
    parse_impl false version_zero [] = Done (Some f, [(0%nat, 12%nat); (0%nat, 12%nat)])
    /\ status f = PARSE_UNKNOWN_VERSION.
Proof. eexists. split; vm_compute; reflexivity. Qed.

End ParserFacts.

(** Counterexample to C4 as stated: on the four bytes DE AD BE EF the
    check of the header length fails and no result is returned. *)
Lemma bad_magic_on_a_short_buffer_fails_the_check :
  oatmeal.oat_data_section oatmeal.bad_magic_short
  = oatmeal.Done (0%nat, oatmeal.bad_magic_short)
  /\ oatmeal.le32 (oatmeal.bytes oatmeal.bad_magic_short) 0
     <> oatmeal.kOatMagicNum
  /\ oatmeal.parse_oatfile_impl oatmeal.skip_contents oatmeal.skip_contents
       false oatmeal.bad_magic_short [] = oatmeal.CheckFailed.
Proof.
  split; [reflexivity|]. split; [vm_compute; discriminate|].
  apply (short_data_section_fails_the_check unit unit) with
    (oat_offset := 0%nat) (data := oatmeal.bad_magic_short).
  - reflexivity.
  - vm_compute. lia.
Qed.

Lemma bad_magic_is_reported_witness :
  exists f : oatmeal.OatFile unit unit,
    oatmeal.parse_oatfile_impl
      (fun _ _ _ => oatmeal.pure tt) (fun _ _ _ => oatmeal.pure tt)
      false oatmeal.bad_magic_header []
    = oatmeal.Done (Some f, [(0%nat, 12%nat); (0%nat, 12%nat)])
    /\ oatmeal.status f = oatmeal.PARSE_BAD_MAGIC_NUMBER.
Proof.
  destruct (bad_magic_is_reported unit unit
              oatmeal.skip_contents oatmeal.skip_contents
              false oatmeal.bad_magic_header [] 0%nat oatmeal.bad_magic_header)
    as [f [Hrun [Hstatus _]]].
  - reflexivity.
  - vm_compute. lia.
  - vm_compute. congruence.
  - exists f. split; [exact Hrun | exact Hstatus].
Defined.

(** ** The builder of the AOT container *)

Section BuilderFacts.
Import oatmeal oatmeal_build.

Lemma write_at_end data old :
  write_at (length old) data old = old ++ data.
Proof.
  unfold write_at. rewrite firstn_all, Nat.sub_diag. simpl.
  rewrite skipn_all2 by lia. now rewrite app_nil_r.
Qed.

Lemma write_at_middle front old new back :
  length old = length new ->
  write_at (length front) new (front ++ old ++ back) = front ++ new ++ back.
Proof.
  intros Hlen. unfold write_at.
  rewrite firstn_app, firstn_all, Nat.sub_diag. simpl.
  rewrite app_nil_r, length_app.
  replace (length front - (length front + length (old ++ back)))%nat
    with 0%nat by lia.
  simpl. rewrite skipn_app, skipn_all2 by lia. simpl.
  replace (length front + length new - length front)%nat
    with (length old) by lia.
  rewrite skipn_app, skipn_all, Nat.sub_diag. reflexivity.
Qed.

Lemma fwrite_impl_at_end fh data :
  at_end fh ->
  content (fwrite_impl fh data) = content fh ++ data
  /\ at_end (fwrite_impl fh data)
  /\ seek_ref_ (fwrite_impl fh data) = seek_ref_ fh.
Proof.
  unfold at_end. intros Hend. unfold fwrite_impl. simpl.
  rewrite Hend, write_at_end, length_app. auto.
Qed.

Lemma Adler32_update_app c x y :
  Adler32_update (Adler32_update c x) y = Adler32_update c (x ++ y).
Proof. unfold Adler32_update. now rewrite fold_left_app. Qed.

Lemma covers_fwrite front start h body data :
  covers front start h body ->
  covers front start (fwrite h data) (body ++ data).
Proof.
  intros (Hc & He & Hs & Hk).
  destruct (fwrite_impl_at_end (base h) data He) as (Hc' & He' & Hs').
  unfold covers. cbn [fwrite ChecksummingFileHandle_Handle base cksum_].
  rewrite Hc', Hc, Hs', Hk, Adler32_update_app, app_assoc. auto.
Qed.

Lemma covers_KeyValueStore_write front start kv : forall h body,
  covers front start h body ->
  exists body', covers front start (KeyValueStore_write h kv) body'.
Proof.
  unfold KeyValueStore_write.
  induction kv as [|e kv IH]; intros h body Hc; cbn [fold_left].
  - eauto.
  - eapply IH. unfold write_str_and_null.
    exact (covers_fwrite _ _ _ _ _ (covers_fwrite _ _ _ _ _ Hc)).
Qed.

Lemma write_words_at_end ws : forall fh,
  at_end fh ->
  content (fold_left write_word ws fh)
  = content fh ++ flat_map le32_bytes ws
  /\ at_end (fold_left write_word ws fh)
  /\ seek_ref_ (fold_left write_word ws fh) = seek_ref_ fh.
Proof.
  induction ws as [|w ws IH]; intros fh Hend; simpl.
  - rewrite app_nil_r. auto.
  - destruct (fwrite_impl_at_end fh (le32_bytes w) Hend) as (Hc & He & Hs).
    destruct (IH (fwrite_impl fh (le32_bytes w)) He) as (Hc' & He' & Hs').
    change (write_word fh w) with (fwrite_impl fh (le32_bytes w)).
    rewrite Hc', Hc, Hs', Hs, <- app_assoc. auto.
Qed.

Lemma OatHeader_write_at_end header fh :
  at_end fh ->
  content (OatHeader_write header fh)
  = content fh ++ common_bytes (common header)
    ++ flat_map le32_bytes (OatHeader_fields header)
  /\ at_end (OatHeader_write header fh)
  /\ seek_ref_ (OatHeader_write header fh) = seek_ref_ fh.
Proof.
  intros Hend. unfold OatHeader_write, write_buf.
  destruct (fwrite_impl_at_end fh (common_bytes (common header)) Hend)
    as (Hc & He & Hs).
  destruct (write_words_at_end (OatHeader_fields header) _ He)
    as (Hc' & He' & Hs').
  cbn [fwrite FileHandle_Handle].
  rewrite Hc', Hc, Hs', Hs, <- app_assoc. auto.
Qed.

Lemma length_flat_map_le32 ws :
  length (flat_map le32_bytes ws) = (4 * length ws)%nat.
Proof. induction ws; simpl; lia. Qed.

(** The header of a build carries the placeholder version, so the three
    words of version 045 are never written: 15 words follow the common
    header. *)
Lemma length_build_header_fields v d isa kv sz img :
  length (OatHeader_fields (build_header v d isa kv sz img)) = 15%nat.
Proof. reflexivity. Qed.

Lemma length_common_bytes c : length (common_bytes c) = 12%nat.
Proof. reflexivity. Qed.

Lemma content_after_seek_begin (before : ChecksummingFileHandle) data :
  content (base (fwrite {| base := seek_begin (base before);
                           cksum_ := cksum_ before |} data))
  = write_at (seek_ref_ (base before)) data (content (base before)).
Proof. reflexivity. Qed.

(** The file as opened, and after the padding that precedes the AOT data
    under an ELF wrapper. *)
Lemma opened_file (write_elf : bool) :
  let start := if write_elf then elf_rodata_offset else 0%nat in
  let oat_fh :=
    if write_elf
    then reset_bytes_written
           (set_seek_reference_to_fpos
              (write_padding fopen_w 0 elf_rodata_offset))
    else fopen_w in
  content oat_fh = repeat 0 start /\ at_end oat_fh
  /\ seek_ref_ oat_fh = start.
Proof.
  assert (Hopen : at_end fopen_w) by reflexivity.
  destruct write_elf; cbv zeta.
  - destruct (fwrite_impl_at_end fopen_w (repeat 0 elf_rodata_offset) Hopen)
      as (Hc & He & _).
    unfold write_padding. cbn [fwrite FileHandle_Handle].
    unfold reset_bytes_written, set_seek_reference_to_fpos,
      set_seek_reference, at_end in *.
    cbn [content fpos seek_ref_]. rewrite He, Hc.
    cbn [content fopen_w app]. rewrite repeat_length. auto.
  - unfold at_end. cbn [content fpos seek_ref_ fopen_w length repeat].
    auto.
Qed.

Context `{Layout}.
Variable write_elf_headers :
  FileSystem -> list DexInput -> Z -> Z -> Z ->
  ChecksummingFileHandle -> ChecksummingFileHandle.

(** C3 (as amended). When the AOT data of a container has been written:
    the body, that is every byte emitted after the whole header (the
    common header and the 15 header words that follow it), is what the
    checksum covers; the header words are not covered. The common header
    with that checksum is the last write, made after seeking back to the
    start of the AOT data (offset 0, or 0x1000 under an ELF wrapper).
    Without ELF wrapper this is the file that [build_oatfile] leaves. *)
Theorem checksum_covers_the_bytes_after_the_whole_header
    fs oat_file_name dex_input oat_version isa write_elf art_image_location
    oat_size h :
  write_oat_data fs oat_file_name dex_input oat_version isa write_elf
    art_image_location = Done (Some (oat_size, h)) ->
  let start := if write_elf then elf_rodata_offset else 0%nat in
  exists (before : ChecksummingFileHandle) (fields body : list Z),
    let final :=
      {| magic := kOatMagicNum; version := oat_version;
         adler32_checksum := Adler32_compute body |} in
    content (base before)
    = repeat 0 start ++ common_bytes placeholder ++ fields ++ body
    /\ length fields = 60%nat
    /\ Adler32_get (cksum_ before) = Adler32_compute body
    /\ h = write_buf {| base := seek_begin (base before);
                        cksum_ := cksum_ before |} (common_bytes final)
    /\ fpos (seek_begin (base before)) = start
    /\ content (base h)
       = repeat 0 start ++ common_bytes final ++ fields ++ body
    /\ (write_elf = false ->
        build_oatfile write_elf_headers fs oat_file_name dex_input
          oat_version isa write_elf art_image_location
        = Done (BUILD_SUCCESS, content (base h))).
Proof.
  intros Hrun start.
  assert (Hbuild : write_elf = false ->
    build_oatfile write_elf_headers fs oat_file_name dex_input
      oat_version isa write_elf art_image_location
    = Done (BUILD_SUCCESS, content (base h))).
  { intros ->. unfold build_oatfile. rewrite Hrun. reflexivity. }
  unfold write_oat_data in Hrun. cbv zeta in Hrun.
  destruct (compute_size fs dex_input) as [|size]; [discriminate|].
  cbn [oatmeal_build.bind] in Hrun.
  destruct (build fs dex_input _) as [|built]; [discriminate|].
  cbn [oatmeal_build.bind] in Hrun.
  destruct (can_create fs oat_file_name); [|discriminate].
  cbn [negb] in Hrun.
  destruct (write_dex_files _ _ _ _) as [|dex_bytes]; [discriminate|].
  cbn [oatmeal_build.bind] in Hrun.
  destruct (classes_write _ _) as [|class_bytes]; [discriminate|].
  cbn [oatmeal_build.bind] in Hrun.
  destruct (lookup_write _ _ _ _) as [|lookup_bytes]; [discriminate|].
  cbn [oatmeal_build.bind] in Hrun.
  match type of Hrun with
  | context [seek_begin (base ?X)] => set (before := X) in Hrun
  end.
  assert (Hh : write_buf
                 {| base := seek_begin (base before);
                    cksum_ := cksum_ before |}
                 (common_bytes
                    {| magic := kOatMagicNum; version := oat_version;
                       adler32_checksum := Adler32_get (cksum_ before) |})
               = h) by congruence.
  clear Hrun.
  let b := eval unfold before in before in
  match b with
  | context [OatHeader_write ?hd ?fh] =>
      set (header := hd) in before; set (oat_fh := fh) in before
  end.
  assert (Hopen : content oat_fh = repeat 0 start /\ at_end oat_fh
                  /\ seek_ref_ oat_fh = start)
    by exact (opened_file write_elf).
  destruct Hopen as (Hc0 & He0 & Hs0).
  destruct (OatHeader_write_at_end header oat_fh He0) as (Hc1 & He1 & Hs1).
  set (fields := flat_map le32_bytes (OatHeader_fields header)) in *.
  set (front := repeat 0 start ++ common_bytes placeholder ++ fields).
  assert (Hcov : exists body, covers front start before body).
  { assert (H0 : covers front start
                   {| base := OatHeader_write header oat_fh;
                      cksum_ := update_checksum header Adler32_new |} []).
    { unfold covers. cbn [base cksum_]. rewrite Hc1, Hc0, Hs1, Hs0.
      unfold front. rewrite app_nil_r. repeat split; auto. }
    destruct (covers_KeyValueStore_write _ _
                (key_value art_image_location) _ _ H0) as [b0 Hb0].
    subst before. unfold write_padding, write_buf.
    eexists. do 6 apply covers_fwrite. exact Hb0. }
  destruct Hcov as [body (Hcb & Heb & Hsb & Hkb)].
  assert (Hfields : length fields = 60%nat).
  { unfold fields. rewrite length_flat_map_le32.
    unfold header. now rewrite length_build_header_fields. }
  clearbody before fields. clear Hc1 He1 Hs1 Hc0 He0 Hs0.
  clearbody oat_fh header.
  exists before, fields, body. cbv zeta.
  assert (Hget : Adler32_get (cksum_ before) = Adler32_compute body).
  { unfold Adler32_compute. now rewrite Hkb. }
  assert (Hpos : fpos (seek_begin (base before)) = start).
  { unfold seek_begin, seek_set. cbn [fpos]. now rewrite Hsb. }
  refine (conj _ (conj Hfields (conj Hget (conj _ (conj Hpos
           (conj _ Hbuild)))))).
  - rewrite Hcb. unfold front. now rewrite <- !app_assoc.
  - rewrite <- Hh, Hget. reflexivity.
  - rewrite <- Hh. unfold write_buf.
    rewrite content_after_seek_begin, Hsb, Hcb, Hget.
    unfold front. rewrite <- app_assoc.
    replace start with (length (repeat 0 start)) at 1
      by apply repeat_length.
    rewrite <- (app_assoc (common_bytes placeholder)).
    apply write_at_middle. now rewrite !length_common_bytes.
Qed.

End BuilderFacts.

Lemma checksum_covers_the_bytes_after_the_whole_header_witness :
  @oatmeal_build.write_oat_data oatmeal_build.Layout_064
    oatmeal_build.disk "out.oat" oatmeal_build.one_dex oatmeal.V_064
    oatmeal_build.kArm false EmptyString
  = oatmeal.Done
      (Some (oatmeal_build.sample_size, oatmeal_build.sample_handle))
  /\ exists fields body,
       oatmeal_build.content
         (oatmeal_build.base oatmeal_build.sample_handle)
       = repeat 0 0
         ++ oatmeal_build.common_bytes
              {| oatmeal.magic := oatmeal.kOatMagicNum;
                 oatmeal.version := oatmeal.V_064;
                 oatmeal.adler32_checksum :=
                   oatmeal_build.Adler32_compute body |}
         ++ fields ++ body
       /\ length fields = 60%nat
       /\ @oatmeal_build.build_oatfile oatmeal_build.Layout_064
            oatmeal_build.no_elf_writer oatmeal_build.disk "out.oat"
            oatmeal_build.one_dex oatmeal.V_064 oatmeal_build.kArm false EmptyString
          = oatmeal.Done
              (oatmeal.BUILD_SUCCESS,
               oatmeal_build.content
                 (oatmeal_build.base oatmeal_build.sample_handle)).
Proof.
  assert (Hrun :
    @oatmeal_build.write_oat_data oatmeal_build.Layout_064
      oatmeal_build.disk "out.oat" oatmeal_build.one_dex oatmeal.V_064
      oatmeal_build.kArm false EmptyString
    = oatmeal.Done
        (Some (oatmeal_build.sample_size, oatmeal_build.sample_handle)))
    by (vm_compute; reflexivity).
  split; [exact Hrun|].
  destruct (@checksum_covers_the_bytes_after_the_whole_header
              oatmeal_build.Layout_064 oatmeal_build.no_elf_writer
              oatmeal_build.disk "out.oat" oatmeal_build.one_dex
              oatmeal.V_064 oatmeal_build.kArm false EmptyString
              oatmeal_build.sample_size oatmeal_build.sample_handle Hrun)
    as (before & fields & body & _ & Hfields & _ & _ & _ & Hfile & Hbuild).
  exists fields, body. split; [exact Hfile|]. split; [exact Hfields|].
  exact (Hbuild eq_refl).
Defined.

(** Counterexample to C3 as stated: in the container of version 064 built
    from one dex file without classes, the stored checksum is not the
    Adler-32 of the bytes after the common header; it is that of the bytes
    from offset 72 on. *)
Lemma checksum_is_not_that_of_the_bytes_after_the_common_header :
  oatmeal_build.sample_build
  = oatmeal.Done (oatmeal.BUILD_SUCCESS, oatmeal_build.sample_file)
  /\ length oatmeal_build.sample_file = 4096%nat
  /\ oatmeal.le32 oatmeal_build.sample_file 8
     <> oatmeal_build.Adler32_compute (drop 12 oatmeal_build.sample_file)
  /\ oatmeal.le32 oatmeal_build.sample_file 8
     = oatmeal_build.Adler32_compute (drop 72 oatmeal_build.sample_file).
Proof.
  split; [vm_compute; reflexivity|].
  split; [vm_compute; reflexivity|].
  split; [|vm_compute; reflexivity].
  vm_compute. discriminate.
Qed.

(** ** The select stage of the register allocator *)

Section SelectFacts.
Import regalloc.
Local Open Scope nat_scope.

Lemma is_free_at_alloc_at f pos w j :
  is_free_at (alloc_at f pos w) j
  = if (pos <=? j) && (j <? pos + w) then false else is_free_at f j.
Proof.
  unfold alloc_at. unfold is_free_at at 1.
  rewrite list_lookup_fmap.
  destruct (decide (j < Nat.max (length f) (pos + w))) as [Hlt|Hge].
  - rewrite lookup_seq_lt by exact Hlt. reflexivity.
  - rewrite lookup_seq_ge by lia. simpl.
    destruct (Nat.leb_spec pos j), (Nat.ltb_spec j (pos + w));
      simpl; try lia;
      unfold is_free_at; rewrite lookup_ge_None_2 by lia; reflexivity.
Qed.

Lemma is_free_at_nil j : is_free_at [] j = true.
Proof. reflexivity. Qed.

Lemma is_free_at_mark ig (reg_map : gmap nat nat) j : forall l f,
  is_free_at
    (fold_left
       (fun vreg_file adj =>
          match reg_map !! adj with
          | Some vreg => alloc_at vreg_file vreg (width (get_node ig adj))
          | None => vreg_file
          end) l f) j = false
  <-> is_free_at f j = false
      \/ exists adj vreg,
           adj ∈ l /\ reg_map !! adj = Some vreg
           /\ vreg <= j < vreg + width (get_node ig adj).
Proof.
  induction l as [|a l IH]; intros f; simpl.
  - split; [auto|]. intros [Hf|(adj & v & Hin & _)]; [exact Hf|].
    inversion Hin.
  - rewrite IH. split.
    + intros [Hf|(adj & v & Hin & Hm & Hr)].
      * destruct (reg_map !! a) as [v|] eqn:Hm; [|auto].
        rewrite is_free_at_alloc_at in Hf.
        destruct (Nat.leb_spec v j), (Nat.ltb_spec j (v + width (get_node ig a)));
          simpl in Hf; auto; right; exists a, v;
          (split; [left|split; [exact Hm|lia]]).
      * right. exists adj, v. split; [right; exact Hin|auto].
    + intros [Hf|(adj & v & Hin & Hm & Hr)].
      * left. destruct (reg_map !! a) as [v|]; [|exact Hf].
        rewrite is_free_at_alloc_at, Hf. now destruct (_ && _).
      * apply elem_of_cons in Hin as [->|Hin].
        -- left. rewrite Hm, is_free_at_alloc_at.
           destruct (Nat.leb_spec v j),
             (Nat.ltb_spec j (v + width (get_node ig a)));
             simpl; try lia; reflexivity.
        -- right. exists adj, v. auto.
Qed.

Lemma occupied_iff ig reg (reg_map : gmap nat nat) j :
  is_free_at (mark_adjacent ig reg reg_map []) j = false
  <-> occupied ig reg reg_map j.
Proof.
  unfold mark_adjacent, occupied. rewrite is_free_at_mark.
  rewrite is_free_at_nil. split; [|auto].
  intros [Hf|Hocc]; [discriminate|exact Hocc].
Qed.

Lemma is_free_true f pos w :
  is_free f pos w = true
  <-> forall j, pos <= j < pos + w -> is_free_at f j = true.
Proof.
  unfold is_free. rewrite forallb_forall. split.
  - intros Hall j Hj. apply Hall, in_seq. lia.
  - intros Hall j Hj. apply in_seq in Hj. apply Hall. lia.
Qed.

Lemma is_free_false f pos w :
  is_free f pos w = false ->
  exists j, pos <= j < pos + w /\ is_free_at f j = false.
Proof.
  unfold is_free. revert pos.
  induction w as [|w IH]; intros pos; simpl; [discriminate|].
  destruct (is_free_at f pos) eqn:Hpos; simpl.
  - intros Hrest. destruct (IH _ Hrest) as (j & Hj & Hf).
    exists j. split; [lia|exact Hf].
  - intros _. exists pos. split; [lia|exact Hpos].
Qed.

Lemma first_fit_spec f w : forall fuel i,
  length f <= i + fuel ->
  is_free f (first_fit f w i fuel) w = true
  /\ forall k, i <= k < first_fit f w i fuel -> is_free f k w = false.
Proof.
  induction fuel as [|fuel IH]; intros i Hlen; simpl.
  - split; [|intros k Hk; lia].
    apply is_free_true. intros j Hj. unfold is_free_at.
    rewrite lookup_ge_None_2 by lia. reflexivity.
  - destruct (is_free f i w) eqn:Hi.
    + split; [exact Hi|intros k Hk; lia].
    + destruct (IH (S i)) as [Hfree Hbelow]; [lia|].
      split; [exact Hfree|]. intros k Hk.
      destruct (decide (k = i)) as [->|Hne]; [exact Hi|].
      apply Hbelow. lia.
Qed.

(** The candidate is the lowest vreg at which the node fits. *)
Lemma candidate_is_lowest_fit ig reg (reg_map : gmap nat nat) :
  fits ig reg reg_map (candidate ig reg reg_map)
  /\ forall i, i < candidate ig reg reg_map -> ~ fits ig reg reg_map i.
Proof.
  unfold candidate, alloc. cbn [fst].
  set (f := mark_adjacent ig reg reg_map []).
  set (w := width (get_node ig reg)).
  destruct (first_fit_spec f w (length f) 0) as [Hfree Hbelow]; [lia|].
  split.
  - intros j Hj Hocc. apply occupied_iff in Hocc. fold f in Hocc.
    rewrite is_free_true in Hfree. rewrite (Hfree j Hj) in Hocc.
    discriminate.
  - intros i Hi Hfits.
    destruct (is_free_false f i w) as (j & Hj & Hf);
      [apply Hbelow; lia|].
    apply (Hfits j Hj). apply occupied_iff. exact Hf.
Qed.

Lemma lookup_emplace_ne {V} k k' (v : V) (m : gmap reg_t V) :
  k <> k' -> emplace k v m !! k' = m !! k'.
Proof.
  intros Hne. unfold emplace. destruct (m !! k); [reflexivity|].
  now rewrite lookup_insert_ne.
Qed.

Lemma lookup_emplace_None {V} k (v : V) (m : gmap reg_t V) :
  m !! k = None -> emplace k v m !! k = Some v.
Proof.
  intros Hnone. unfold emplace. rewrite Hnone. apply lookup_insert_eq.
Qed.

Lemma select_step_other ig st r reg :
  r <> reg -> entries (select_step ig st r) reg = entries st reg.
Proof.
  intros Hne. unfold entries, select_step. cbv zeta.
  destruct (_ <=? _); cbn [reg_transform spill_plan map global_spills
                           spill_costs];
    now rewrite ?lookup_emplace_ne by exact Hne.
Qed.

Lemma select_loop_other ig reg : forall l st,
  reg ∉ l -> entries (select_loop ig l st) reg = entries st reg.
Proof.
  unfold select_loop.
  induction l as [|r l IH]; intros st Hnotin; simpl; [reflexivity|].
  rewrite IH by (intros Hin; apply Hnotin; now right).
  apply select_step_other. intros ->. apply Hnotin. now left.
Qed.

Lemma select_step_self ig st reg :
  entries st reg = (None, None, None) ->
  let vreg := candidate ig reg (map (reg_transform st)) in
  entries (select_step ig st reg) reg
  = if vreg <=? max_vreg (get_node ig reg)
    then (Some vreg, None, None)
    else (None, Some vreg, Some 0).
Proof.
  unfold entries. intros Hnone. injection Hnone as Hm Hg Hc.
  cbv zeta. unfold select_step. cbv zeta.
  fold (candidate ig reg (map (reg_transform st))).
  destruct (_ <=? _); cbn [reg_transform spill_plan map global_spills
                           spill_costs].
  - now rewrite lookup_emplace_None, Hg, Hc.
  - now rewrite !lookup_emplace_None, Hm.
Qed.

(** C6. In [select], for the register [reg] popped after the registers
    [pre] (the stack holds every register once and [reg] enters with no
    vreg and no spill recorded): the candidate vreg is the lowest index
    at which [width] contiguous vregs are free of the vregs assigned to
    the coloured neighbours of [reg]; when it is at most the node's
    [max_vreg] the register is mapped to it and no global spill is
    recorded; when it exceeds [max_vreg] the register is left unmapped
    and is recorded as a global spill at that vreg, with cost 0. *)
Theorem select_assigns_the_lowest_fit_or_spills
    ig select_stack rt sp pre reg post :
  select_stack = pre ++ reg :: post ->
  NoDup select_stack ->
  map rt !! reg = None ->
  global_spills sp !! reg = None ->
  spill_costs sp !! reg = None ->
  let st := select_loop ig pre
              {| reg_transform := rt; spill_plan := sp; vregs_size := 0 |} in
  let reg_map := map (reg_transform st) in
  let vreg := candidate ig reg reg_map in
  let result := select ig select_stack rt sp in
  fits ig reg reg_map vreg
  /\ (forall i, i < vreg -> ~ fits ig reg reg_map i)
  /\ (vreg <= max_vreg (get_node ig reg) ->
      map (fst result) !! reg = Some vreg
      /\ global_spills (snd result) !! reg = None)
  /\ (max_vreg (get_node ig reg) < vreg ->
      map (fst result) !! reg = None
      /\ global_spills (snd result) !! reg = Some vreg
      /\ spill_costs (snd result) !! reg = Some 0).
Proof.
  intros -> Hnodup Hm Hg Hc st reg_map vreg result.
  destruct (candidate_is_lowest_fit ig reg reg_map) as [Hfits Hlow].
  split; [exact Hfits|]. split; [exact Hlow|].
  apply NoDup_app in Hnodup as (_ & Hpre & Hpost).
  apply NoDup_cons in Hpost as [Hpost _].
  assert (Hst : entries st reg = (None, None, None)).
  { unfold st. rewrite select_loop_other.
    - unfold entries. cbn [reg_transform spill_plan]. now rewrite Hm, Hg, Hc.
    - intros Hin. apply (Hpre reg Hin). now left. }
  assert (Hfinal :
    entries (select_loop ig (pre ++ reg :: post)
               {| reg_transform := rt; spill_plan := sp; vregs_size := 0 |})
            reg
    = if vreg <=? max_vreg (get_node ig reg)
      then (Some vreg, None, None) else (None, Some vreg, Some 0)).
  { unfold select_loop. rewrite fold_left_app. cbn [fold_left].
    fold (select_loop ig pre
            {| reg_transform := rt; spill_plan := sp; vregs_size := 0 |}).
    fold st.
    fold (select_loop ig post (select_step ig st reg)).
    rewrite select_loop_other by exact Hpost.
    apply select_step_self. exact Hst. }
  unfold entries in Hfinal.
  unfold result, select. cbv zeta. cbn [fst snd map].
  split; intros Hcmp.
  - destruct (Nat.leb_spec vreg (max_vreg (get_node ig reg))); [|lia].
    injection Hfinal as -> -> _. auto.
  - destruct (Nat.leb_spec vreg (max_vreg (get_node ig reg))); [lia|].
    injection Hfinal as -> -> ->. auto.
Qed.

End SelectFacts.

Lemma select_assigns_the_lowest_fit_or_spills_witness :
  regalloc.candidate regalloc.triangle 2
    (regalloc.map
       (regalloc.reg_transform
          (regalloc.select_loop regalloc.triangle [0; 1]%nat
             {| regalloc.reg_transform := regalloc.empty_transform;
                regalloc.spill_plan := regalloc.empty_plan;
                regalloc.vregs_size := 0 |}))) = 2%nat
  /\ regalloc.map
       (fst (regalloc.select regalloc.triangle [0; 1; 2]%nat
               regalloc.empty_transform regalloc.empty_plan)) !! 2%nat = None
  /\ regalloc.global_spills
       (snd (regalloc.select regalloc.triangle [0; 1; 2]%nat
               regalloc.empty_transform regalloc.empty_plan)) !! 2%nat
     = Some 2%nat.
Proof.
  assert (Hcand :
    regalloc.candidate regalloc.triangle 2
      (regalloc.map
         (regalloc.reg_transform
            (regalloc.select_loop regalloc.triangle [0; 1]%nat
               {| regalloc.reg_transform := regalloc.empty_transform;
                  regalloc.spill_plan := regalloc.empty_plan;
                  regalloc.vregs_size := 0 |}))) = 2%nat)
    by (vm_compute; reflexivity).
  split; [exact Hcand|].
  destruct (select_assigns_the_lowest_fit_or_spills regalloc.triangle
              [0; 1; 2]%nat regalloc.empty_transform regalloc.empty_plan
              [0; 1]%nat 2%nat [])
    as (_ & _ & _ & Hspill).
  - reflexivity.
  - apply (bool_decide_unpack (NoDup [0; 1; 2]%nat)). vm_compute. exact I.
  - reflexivity.
  - reflexivity.
  - reflexivity.
  - rewrite Hcand in Hspill.
    destruct Hspill as (Hmap & Hglobal & _); [simpl; lia|].
    split; [exact Hmap|exact Hglobal].
Defined.

(** ** The class hierarchy *)

Section HierarchyFacts.
Import ClassHierarchy.
Local Open Scope nat_scope.

Variable hierarchy : gmap string (gset string).

Local Abbreviation R := (child hierarchy).

(** Every descendant occurs in some entry of the index. *)
Lemma descendants_finite t : pred_finite (tc R t).
Proof.
  exists (elements (⋃ (snd <$> map_to_list hierarchy))).
  intros x Hx. apply elem_of_elements, elem_of_union_list.
  assert (Hlast : exists p, R p x).
  { induction Hx as [p x Hpx|p c x _ _ IH]; eauto. }
  destruct Hlast as [p Hp]. unfold child, get_children in Hp.
  destruct (hierarchy !! p) as [s|] eqn:Hlook; simpl in Hp;
    [|set_solver].
  exists s. split; [|exact Hp].
  apply list_elem_of_fmap. exists (p, s). split; [reflexivity|].
  now apply elem_of_map_to_list.
Qed.

Lemma acyclic_sn t : acyclic hierarchy -> sn R t.
Proof.
  intros Hacyclic. apply tc_finite_sn.
  - intros x Hx. exact (Hacyclic x Hx).
  - apply descendants_finite.
Qed.

(** The walk over the children of one type, given what the recursive
    calls return. *)
Lemma walk_children fuel (D : string -> gset string) : forall l acc,
  (forall c acc', c ∈ l ->
     get_all_children fuel hierarchy c acc' = Some (acc' ∪ D c)) ->
  fold_left
    (fun acc child =>
       match acc with
       | None => None
       | Some children =>
           get_all_children fuel hierarchy child ({[child]} ∪ children)
       end) l (Some acc)
  = Some (acc ∪ ⋃ ((fun c => {[c]} ∪ D c) <$> l)).
Proof.
  induction l as [|c l IH]; intros acc Hrec; simpl.
  - f_equal. set_solver.
  - rewrite Hrec by left. rewrite IH.
    + f_equal. set_solver.
    + intros c' acc' Hin. apply Hrec. now right.
Qed.

Lemma walks_all (l : list string) :
  (forall c, c ∈ l -> exists n D, walks hierarchy c n D) ->
  exists n (D : string -> gset string), forall c, c ∈ l -> walks hierarchy c n (D c).
Proof.
  induction l as [|c l IH]; intros Hall.
  - exists 0, (fun _ => ∅). intros c Hc. inversion Hc.
  - destruct (Hall c) as (n & Dc & Hdesc & Hrun); [left|].
    destruct IH as (m & D & HD).
    { intros c' Hc'. apply Hall. now right. }
    exists (Nat.max n m), (fun c' => if decide (c' = c) then Dc else D c').
    intros c' Hc'. destruct (decide (c' = c)) as [->|Hne].
    + split; [exact Hdesc|]. intros fuel acc Hfuel. apply Hrun. lia.
    + apply elem_of_cons in Hc' as [?|Hc']; [contradiction|].
      destruct (HD c' Hc') as [Hdesc' Hrun'].
      split; [exact Hdesc'|]. intros fuel acc Hfuel. apply Hrun'. lia.
Qed.

Lemma walks_from t : sn R t -> exists n D, walks hierarchy t n D.
Proof.
  induction 1 as [t _ IH].
  destruct (walks_all (elements (get_children hierarchy t)))
    as (n & D & HD).
  { intros c Hc. apply IH. apply elem_of_elements in Hc. exact Hc. }
  exists (S n),
    (⋃ ((fun c => {[c]} ∪ D c) <$> elements (get_children hierarchy t))).
  split.
  - intros x. rewrite elem_of_union_list. split.
    + intros (X & HX & Hx). apply list_elem_of_fmap in HX as (c & -> & Hc).
      destruct (HD c Hc) as [Hdesc _].
      apply elem_of_elements in Hc.
      apply elem_of_union in Hx as [Hx|Hx].
      * apply elem_of_singleton in Hx as ->. now apply tc_once.
      * apply tc_l with c; [exact Hc|]. now apply Hdesc.
    + intros Hx. unfold descendant in Hx.
      destruct Hx as [t x Htx|t c x Htc Hcx].
      * exists ({[x]} ∪ D x). split; [|set_solver].
        apply list_elem_of_fmap. exists x. split; [reflexivity|].
        now apply elem_of_elements.
      * assert (Hc : c ∈ elements (get_children hierarchy t))
          by now apply elem_of_elements.
        exists ({[c]} ∪ D c). split.
        -- apply list_elem_of_fmap. exists c. auto.
        -- destruct (HD c Hc) as [Hdesc _].
           apply elem_of_union. right. now apply Hdesc.
  - intros fuel acc Hfuel. destruct fuel as [|fuel]; [lia|]. simpl.
    apply walk_children. intros c acc' Hc.
    destruct (HD c Hc) as [_ Hrun]. apply Hrun. lia.
Qed.

End HierarchyFacts.

Section HierarchyClosure.
Import ClassHierarchy.
Local Open Scope nat_scope.

(** A hierarchy in which a rank grows from parent to child has no
    cycle. *)
Lemma ranked_acyclic (hierarchy : gmap string (gset string))
    (rank : string -> nat) :
  map_Forall (fun p s => set_Forall (fun c => rank p < rank c) s) hierarchy ->
  acyclic hierarchy.
Proof.
  intros Hrank.
  assert (Hstep : forall p c, child hierarchy p c -> rank p < rank c).
  { intros p c Hc. unfold child, get_children in Hc.
    destruct (hierarchy !! p) as [s|] eqn:Hlook; simpl in Hc;
      [|set_solver].
    exact (Hrank p s Hlook c Hc). }
  assert (Htc : forall x y, descendant hierarchy x y -> rank x < rank y).
  { intros x y Hxy. induction Hxy as [x y Hxy|x c y Hxc _ IH].
    - now apply Hstep.
    - specialize (Hstep _ _ Hxc). lia. }
  intros t Ht. specialize (Htc _ _ Ht). lia.
Qed.

(** C7. For the index built from a scope, when it has no cycle: for every
    type [T], [get_all_children] returns once it is given enough fuel,
    and the set it fills, starting from the empty set, holds exactly the
    transitive descendants of [T], which are the direct children of [T]
    together with the transitive descendants of each; [T] itself is not
    in it. *)
Theorem all_children_are_the_transitive_descendants
    (all_classes scope : list DexClass) (T : string) :
  let hierarchy := build_type_hierarchy all_classes scope in
  acyclic hierarchy ->
  exists n (children : gset string),
    (forall fuel, n <= fuel ->
       get_all_children fuel hierarchy T ∅ = Some children)
    /\ (forall x, x ∈ children <-> descendant hierarchy T x)
    /\ (forall x, x ∈ children <->
          exists c, c ∈ get_children hierarchy T
                    /\ (x = c \/ descendant hierarchy c x))
    /\ T ∉ children.
Proof.
  intros hierarchy Hacyclic.
  destruct (walks_from hierarchy T (acyclic_sn hierarchy T Hacyclic))
    as (n & D & Hdesc & Hrun).
  exists n, D. split; [|split; [exact Hdesc|split]].
  - intros fuel Hfuel. rewrite (Hrun fuel ∅ Hfuel). f_equal. set_solver.
  - intros x. rewrite Hdesc. unfold descendant. split.
    + intros Hx. destruct Hx as [t x Htx|t c x Htc Hcx].
      * exists x. auto.
      * exists c. auto.
    + intros (c & Hc & [->|Hcx]).
      * now apply tc_once.
      * now apply tc_l with c.
  - rewrite Hdesc. apply Hacyclic.
Qed.

End HierarchyClosure.

Lemma small_hierarchy_acyclic :
  ClassHierarchy.acyclic ClassHierarchy.small_hierarchy.
Proof.
  apply (ranked_acyclic _ ClassHierarchy.rank).
  apply (bool_decide_unpack _). vm_compute. exact I.
Defined.

Lemma all_children_are_the_transitive_descendants_witness :
  exists n children,
    (forall fuel, (n <= fuel)%nat ->
       ClassHierarchy.get_all_children fuel ClassHierarchy.small_hierarchy
         "LA;" ∅ = Some children)
    /\ "LA;" ∉ children.
Proof.
  destruct (all_children_are_the_transitive_descendants
              [] ClassHierarchy.small_scope "LA;" small_hierarchy_acyclic)
    as (n & children & Hrun & _ & _ & Hnot).
  exists n, children. split; [exact Hrun|exact Hnot].
Defined.

(** ** The collision search *)

Section CollisionFacts.
Import ClassHierarchy.

Variable type_class : string -> option DexClass.
Variable resolve_virtual : DexClass -> string -> string -> option DexMethod.

Lemma find_nothing {A} (f : A -> bool) (l : list A) :
  (forall x, x ∈ l -> f x = false) -> List.find f l = None.
Proof.
  induction l as [|a l IH]; intros Hall; simpl; [reflexivity|].
  rewrite (Hall a) by left. apply IH. intros x Hx. apply Hall. now right.
Qed.

(** C9. With [is_virtual = false], when no method of the direct and
    virtual methods of [cls] other than [except] matches the name and
    the proto, [find_collision_excepting] returns null, whatever
    [check_direct] is. It does so for every hierarchy, every class
    lookup and every resolver, and with no fuel for the walk over the
    descendants: no ancestor and no descendant is examined. *)
Theorem non_virtual_search_stays_within_the_class
    fuel (ch : gmap string (gset string)) except name proto cls
    check_direct :
  (forall m, m ∈ get_dmethods cls ++ get_vmethods cls ->
             match_ name proto m = true -> Some m = except) ->
  find_collision_excepting type_class resolve_virtual fuel ch except name
    proto cls false check_direct = Some None.
Proof.
  intros Hown.
  assert (Hnone : forall m, m ∈ get_dmethods cls ++ get_vmethods cls ->
                            colliding except name proto m = false).
  { intros m Hin. unfold colliding, differs.
    destruct (match_ name proto m) eqn:Hmatch; [|reflexivity].
    simpl. apply bool_decide_eq_false. intros Hne.
    apply Hne. now apply Hown. }
  unfold find_collision_excepting.
  rewrite (find_nothing (colliding except name proto) (get_dmethods cls)).
  - rewrite (find_nothing (colliding except name proto)
               (get_vmethods cls)).
    + reflexivity.
    + intros m Hin. apply Hnone, elem_of_app. now right.
  - intros m Hin. apply Hnone, elem_of_app. now left.
Qed.

End CollisionFacts.

Lemma non_virtual_search_stays_within_the_class_witness :
  ClassHierarchy.find_collision_excepting
    (fun _ => None) (fun _ _ _ => None) 0 ClassHierarchy.small_hierarchy
    (Some ClassHierarchy.m_foo) "foo" "()V"
    ClassHierarchy.class_with_methods false true = Some None.
Proof.
  apply non_virtual_search_stays_within_the_class.
  intros m Hin Hmatch.
  apply list_elem_of_In in Hin. simpl in Hin.
  destruct Hin as [<-|[<-|[]]].
  - vm_compute in Hmatch. discriminate.
  - reflexivity.
Defined.

(** ** The alias domain *)

Section AliasDomainFacts.
Import AliasedRegisters.
Context {V : Type} `{AbstractValue V} {W : Type}.

Lemma update_bottom (operation : W -> V -> W * V) w d :
  is_bottom d = true -> update operation w d = (w, d).
Proof. intros Hb. unfold update. now rewrite Hb. Qed.

(** C10. On a domain in the bottom state, [update] returns the domain as
    it is and leaves the state the operation could act on untouched,
    for every operation: the operation is not invoked; so any sequence
    of updates keeps a bottom domain bottom. On a domain that is not
    bottom, the operation is applied to the value of the domain and the
    result is normalized. *)
Theorem update_preserves_bottom_and_normalizes
    (operation : W -> V -> W * V) (operations : list (W -> V -> W * V))
    (w : W) (d : AbstractDomainScaffolding V) :
  (is_bottom d = true ->
     update operation w d = (w, d)
     /\ is_bottom (snd (update operation w d)) = true
     /\ updates operations w d = (w, d))
  /\ (is_bottom d = false ->
        update operation w d
        = (fst (operation w (m_value d)),
           normalize {| m_kind := m_kind d;
                        m_value := snd (operation w (m_value d)) |})).
Proof.
  split.
  - intros Hb. rewrite (update_bottom operation w d Hb).
    split; [reflexivity|]. split; [exact Hb|].
    unfold updates. induction operations as [|op ops IH]; simpl.
    + reflexivity.
    + rewrite (update_bottom op w d Hb). exact IH.
  - intros Hb. unfold update. now rewrite Hb.
Qed.

End AliasDomainFacts.

Lemma update_preserves_bottom_and_normalizes_witness :
  (AliasedRegisters.update AliasedRegisters.counting_alias 0%nat
     AliasedRegisters.bottom = (0%nat, AliasedRegisters.bottom)
   /\ AliasedRegisters.updates
        [AliasedRegisters.counting_alias; AliasedRegisters.counting_alias]
        0%nat AliasedRegisters.bottom = (0%nat, AliasedRegisters.bottom))
  /\ AliasedRegisters.update AliasedRegisters.counting_alias 0%nat
       AliasedRegisters.top
     = (1%nat,
        {| AliasedRegisters.m_kind := AliasedRegisters.Value;
           AliasedRegisters.m_value :=
             [(AliasedRegisters.REGISTER 0, AliasedRegisters.REGISTER 1)] |}).
Proof.
  split.
  - destruct (update_preserves_bottom_and_normalizes
                AliasedRegisters.counting_alias
                [AliasedRegisters.counting_alias;
                 AliasedRegisters.counting_alias]
                0%nat AliasedRegisters.bottom) as [Hbottom _].
    destruct (Hbottom eq_refl) as (Hone & _ & Hmany).
    split; [exact Hone|exact Hmany].
  - destruct (update_preserves_bottom_and_normalizes
                AliasedRegisters.counting_alias [] 0%nat AliasedRegisters.top)
      as [_ Hvalue].
    rewrite (Hvalue eq_refl). reflexivity.
Defined.

(** ** The exit code of the tool *)

Section ToolFacts.
Import oatmeal oatmeal_build oatmeal_main.

Variable OatFile_079_build :
  FileSystem -> string -> list DexInput -> Z -> Z -> bool -> string ->
  Checked (Status * list Z).
Variables Contents_064 Contents_079 : Type.
Variable OatFile_064_parse :
  bool -> ConstBuffer -> nat -> Parser Contents_064.
Variable OatFile_079_parse :
  bool -> ConstBuffer -> nat -> Parser Contents_079.

(** C8 at the failing input: a build whose output file cannot be opened.
    [OatFile::build] reports [BUILD_IO_ERROR] and the tool exits with
    code 0. *)
Theorem failed_build_exits_with_0 :
  OatFile_build OatFile_079_build disk "/missing/out.oat" one_dex "064"
    "arm" false EmptyString = Done (BUILD_IO_ERROR, [])
  /\ main (fun path => path) OatFile_079_build OatFile_064_parse
       OatFile_079_parse disk build_into_missing_directory = Exit 0.
Proof. split; vm_compute; reflexivity. Qed.

(** [build] never looks at the status that [OatFile::build] returns. *)
Lemma build_ignores_the_status fs args outcome :
  OatFile_build OatFile_079_build fs (oat_file args) (dex_files args)
    (oat_version args) (arch args) (write_elf args)
    (art_image_location args) = Done outcome ->
  is_empty (oat_file args) = false ->
  dex_files args <> [] ->
  is_empty (oat_version args) = false ->
  build OatFile_079_build fs args = Exit 0.
Proof.
  intros Hrun Hoat Hdex Hversion. unfold build.
  rewrite Hoat, Hversion, Hrun.
  destruct (dex_files args); [contradiction|reflexivity].
Qed.

End ToolFacts.

(** * Further properties of the code *)

(** ** util.h: buffers, alignment and the checksum *)

Section UtilFacts.
Import oatmeal oatmeal_build util_h.

(** X1. A slice of a slice is a slice of the buffer, and stays within the
    first slice: slicing [s = buf.slice(b, e)] at [(b', e')] fails its
    check when [e'] exceeds the length of [s], and is
    [buf.slice(b + b', b + e')] otherwise. *)
Theorem slice_of_slice buf b e s b' e' :
  slice2 buf b e = Done s ->
  slice2 s b' e'
  = if (e' <=? e - b)%nat then slice2 buf (b + b') (b + e') else CheckFailed.
Proof.
  unfold slice2, len. intros Hs.
  destruct (Nat.leb_spec e (length (bytes buf))) as [He|]; [|discriminate].
  destruct (Nat.leb_spec b e) as [Hb|]; [|discriminate].
  cbn [negb] in Hs. injection Hs as <-. cbn [bytes ptr].
  rewrite length_take, length_drop.
  replace ((e - b) `min` (length (bytes buf) - b))%nat with (e - b)%nat by lia.
  destruct (Nat.leb_spec e' (e - b)) as [He'|He']; cbn [negb]; [|reflexivity].
  destruct (Nat.leb_spec (b + e') (length (bytes buf))); [|lia]. cbn [negb].
  destruct (Nat.leb_spec b' e') as [Hb'|Hb'];
    destruct (Nat.leb_spec (b + b') (b + e')); try lia; cbn [negb];
    [|reflexivity].
  f_equal. f_equal; [lia|].
  replace (b + e' - (b + b'))%nat with (e' - b')%nat by lia.
  replace (e - b)%nat with (b' + (e - b - b'))%nat by lia.
  rewrite <- take_drop_commute, take_take, drop_drop.
  f_equal. lia.
Qed.

(** Masking with [-width] clears the bits below a power of two. *)
Lemma land_opp_pow2 x k :
  0 <= k < 32 -> 0 <= x < 2 ^ 32 ->
  Z.land x (wrap32 (- 2 ^ k)) = x / 2 ^ k * 2 ^ k.
Proof.
  intros Hk Hx. unfold wrap32.
  rewrite <- (Z.land_ones (- 2 ^ k) 32) by lia.
  rewrite (Z.land_comm (- 2 ^ k)), Z.land_assoc, (Z.land_ones x 32) by lia.
  rewrite (Z.mod_small x) by lia.
  rewrite <- (Z.lnot_pred (2 ^ k)), Z.sub_1_r, <- Z.ones_equiv.
  rewrite <- Z.ldiff_land, Z.ldiff_ones_r by lia.
  rewrite Z.shiftr_div_pow2, Z.shiftl_mul_pow2 by lia. reflexivity.
Qed.

Lemma align_fits k x :
  0 <= k < 32 -> 0 <= x -> x + 2 ^ k <= 2 ^ 32 ->
  align (2 ^ k) x mod 2 ^ k = 0 /\ x <= align (2 ^ k) x < x + 2 ^ k.
Proof.
  intros Hk Hx Hfit.
  assert (Hpos : 0 < 2 ^ k) by (apply Z.pow_pos_nonneg; lia).
  unfold align.
  assert (Hw : wrap32 (x + (2 ^ k - 1)) = x + (2 ^ k - 1))
    by (unfold wrap32; apply Z.mod_small; lia).
  rewrite Hw, land_opp_pow2 by lia.
  set (q := (x + (2 ^ k - 1)) / 2 ^ k).
  assert (Hq : x + (2 ^ k - 1) = 2 ^ k * q + (x + (2 ^ k - 1)) mod 2 ^ k)
    by (apply Z.div_mod; lia).
  pose proof (Z.mod_pos_bound (x + (2 ^ k - 1)) (2 ^ k) Hpos) as Hr.
  split; [apply Z.mod_mul; lia | lia].
Qed.

Lemma align_wraps k x :
  0 <= k < 32 -> 0 <= x < 2 ^ 32 -> 2 ^ 32 < x + 2 ^ k ->
  align (2 ^ k) x = 0.
Proof.
  intros Hk Hx Hover.
  assert (Hpos : 0 < 2 ^ k) by (apply Z.pow_pos_nonneg; lia).
  assert (Hle : 2 ^ k <= 2 ^ 31) by (apply Z.pow_le_mono_r; lia).
  unfold align.
  assert (Hw : wrap32 (x + (2 ^ k - 1)) = x + (2 ^ k - 1) - 2 ^ 32).
  { unfold wrap32. symmetry. apply (Z.mod_unique _ _ 1); lia. }
  rewrite Hw, land_opp_pow2 by lia.
  rewrite Z.div_small by lia. reflexivity.
Qed.

(** X2. For a width that is a power of two, [align] rounds up to the next
    multiple of the width: the result is aligned, not below the input and
    less than a width above it. That holds as long as the rounded value
    fits in 32 bits; an input within less than a width of 2^32 wraps
    around and gives 0. *)
Theorem align_rounds_up k in_ :
  0 <= k < 32 -> 0 <= in_ < 2 ^ 32 ->
  (in_ + 2 ^ k <= 2 ^ 32 ->
     align (2 ^ k) in_ mod 2 ^ k = 0
     /\ in_ <= align (2 ^ k) in_ < in_ + 2 ^ k
     /\ is_aligned (2 ^ k) (align (2 ^ k) in_) = true)
  /\ (2 ^ 32 < in_ + 2 ^ k -> align (2 ^ k) in_ = 0).
Proof.
  intros Hk Hin. split.
  - intros Hfit. destruct (align_fits k in_) as [Hmod Hrange]; try lia.
    split; [exact Hmod|]. split; [exact Hrange|].
    unfold is_aligned. rewrite Z.sub_1_r, <- Z.ones_equiv.
    rewrite Z.land_ones, Hmod by lia. reflexivity.
  - intros Hover. apply align_wraps; lia.
Qed.

Lemma testbit_small a n i :
  0 <= a < 2 ^ n -> n <= i -> Z.testbit a i = false.
Proof.
  intros Ha Hi. destruct (Z.eq_dec a 0) as [->|Hne]; [apply Z.bits_0|].
  apply Z.bits_above_log2; [lia|].
  assert (0 <= n) by (destruct (Z.le_gt_cases 0 n); [assumption|];
                      rewrite Z.pow_neg_r in Ha; lia).
  apply Z.lt_le_trans with n; [|exact Hi].
  apply Z.log2_lt_pow2; lia.
Qed.

Lemma lor_shiftl_small b n a :
  0 <= n -> 0 <= a < 2 ^ n -> Z.lor (Z.shiftl b n) a = b * 2 ^ n + a.
Proof.
  intros Hn Ha. rewrite <- Z.shiftl_mul_pow2 by lia.
  rewrite <- Z.add_lor_land.
  replace (Z.land (Z.shiftl b n) a) with 0; [lia|].
  symmetry. apply Z.bits_inj'. intros i Hi.
  rewrite Z.land_spec, Z.bits_0.
  destruct (Z.lt_ge_cases i n).
  - rewrite Z.shiftl_spec_low by lia. reflexivity.
  - rewrite (testbit_small a n i) by lia. apply andb_false_r.
Qed.

(** The two halves of the checksum after more bytes: no 32-bit addition
    wraps, so each half is the sum reduced modulo 65521. *)
Lemma Adler32_update_sums data : forall c,
  Forall is_byte data ->
  0 <= a c < kModAdler -> 0 <= b c < kModAdler ->
  a (Adler32_update c data) = (a c + byte_sum data) mod kModAdler
  /\ b (Adler32_update c data)
     = (b c + Z.of_nat (length data) * a c + weighted_sum data)
       mod kModAdler.
Proof.
  unfold Adler32_update, kModAdler.
  induction data as [|d data IH]; intros c Hbytes Ha Hb.
  - cbn [fold_left byte_sum fold_right weighted_sum length].
    rewrite !Z.mod_small by lia. split; [f_equal; lia | f_equal; lia].
  - apply Forall_cons in Hbytes as [Hd Hbytes]. unfold is_byte in Hd.
    cbn [fold_left].
    set (a' := (a c + d) mod 65521).
    set (b' := (b c + a') mod 65521).
    assert (Hstep : Adler32_step c d = {| a := a'; b := b' |}).
    { unfold Adler32_step, wrap32, kModAdler.
      rewrite (Z.mod_small (a c + d) (2 ^ 32)) by lia. fold a'.
      assert (0 <= a' < 65521) by (apply Z.mod_pos_bound; lia).
      rewrite (Z.mod_small (b c + a') (2 ^ 32)) by lia. reflexivity. }
    rewrite Hstep.
    assert (Ha' : 0 <= a' < 65521) by (apply Z.mod_pos_bound; lia).
    assert (Hb' : 0 <= b' < 65521) by (apply Z.mod_pos_bound; lia).
    destruct (IH {| a := a'; b := b' |} Hbytes Ha' Hb') as [IHa IHb].
    cbn [a b] in IHa, IHb. rewrite IHa, IHb.
    cbn [byte_sum fold_right weighted_sum]. fold (byte_sum data).
    rewrite length_cons, Nat2Z.inj_succ.
    set (n := Z.of_nat (length data)).
    assert (Hqa : a' = a c + d - 65521 * ((a c + d) / 65521))
      by (unfold a'; apply Z.mod_eq; lia).
    assert (Hqb : b' = b c + a' - 65521 * ((b c + a') / 65521))
      by (unfold b'; apply Z.mod_eq; lia).
    set (qa := (a c + d) / 65521) in *. set (qb := (b c + a') / 65521) in *.
    split.
    + replace (a' + byte_sum data)
        with (a c + (d + byte_sum data) + (- qa) * 65521) by lia.
      apply Z_mod_plus_full.
    + replace (b' + n * a' + weighted_sum data)
        with (b c + Z.succ n * a c + (Z.succ n * d + weighted_sum data)
              + (- (qb + (n + 1) * qa)) * 65521) by lia.
      apply Z_mod_plus_full.
Qed.

(** X3. On bytes, the checksum is the Adler-32 of the data: the low half
    is one plus the sum of the bytes, the high half is the count of the
    bytes plus the sum in which the byte at index [i] of [n] counts
    [n - i] times, both modulo 65521. *)
Theorem Adler32_compute_closed_form data :
  Forall is_byte data ->
  Adler32_compute data
  = ((Z.of_nat (length data) + weighted_sum data) mod 65521) * 65536
    + (1 + byte_sum data) mod 65521.
Proof.
  intros Hbytes. unfold Adler32_compute, Adler32_get.
  destruct (Adler32_update_sums data Adler32_new Hbytes) as [Ha Hb];
    [unfold kModAdler; cbn; lia | unfold kModAdler; cbn; lia |].
  rewrite Ha, Hb. unfold kModAdler. cbn [a b Adler32_new].
  set (lo := (1 + byte_sum data) mod 65521).
  set (hi := (0 + Z.of_nat (length data) * 1 + weighted_sum data) mod 65521).
  assert (0 <= lo < 65521) by (apply Z.mod_pos_bound; lia).
  assert (0 <= hi < 65521) by (apply Z.mod_pos_bound; lia).
  rewrite Z.shiftl_mul_pow2 by lia. unfold wrap32.
  rewrite Z.mod_small by lia.
  rewrite <- Z.shiftl_mul_pow2 by lia.
  rewrite lor_shiftl_small by lia.
  unfold hi. do 2 f_equal. f_equal. lia.
Qed.

End UtilFacts.

Lemma slice_of_slice_witness :
  oatmeal.slice2 (oatmeal.whole [10; 11; 12; 13; 14; 15]) 1 5
    = oatmeal.Done {| oatmeal.ptr := 1; oatmeal.bytes := [11; 12; 13; 14] |}
  /\ oatmeal.slice2
       {| oatmeal.ptr := 1; oatmeal.bytes := [11; 12; 13; 14] |} 1 3
     = oatmeal.Done {| oatmeal.ptr := 2; oatmeal.bytes := [12; 13] |}.
Proof.
  split; [reflexivity|].
  rewrite (slice_of_slice (oatmeal.whole [10; 11; 12; 13; 14; 15]) 1 5
             {| oatmeal.ptr := 1; oatmeal.bytes := [11; 12; 13; 14] |} 1 3
             eq_refl).
  reflexivity.
Defined.

Lemma align_rounds_up_witness :
  (5 <= oatmeal_build.align (2 ^ 2) 5 < 5 + 2 ^ 2
   /\ oatmeal_build.is_aligned (2 ^ 2) (oatmeal_build.align (2 ^ 2) 5) = true)
  /\ oatmeal_build.align (2 ^ 2) (2 ^ 32 - 1) = 0.
Proof.
  destruct (align_rounds_up 2 5) as [Hfit _]; [lia | lia |].
  destruct (align_rounds_up 2 (2 ^ 32 - 1)) as [_ Hwrap]; [lia | lia |].
  split; [|apply Hwrap; lia].
  destruct Hfit as (_ & Hrange & Haligned); [lia|].
  split; [exact Hrange | exact Haligned].
Defined.

Lemma Adler32_compute_closed_form_witness :
  oatmeal_build.Adler32_compute [87; 105; 107; 105; 112; 101; 100; 105; 97]
    = 0x11E60398
  /\ oatmeal_build.Adler32_compute
       [87; 105; 107; 105; 112; 101; 100; 105; 97]
     = ((9 + util_h.weighted_sum
               [87; 105; 107; 105; 112; 101; 100; 105; 97]) mod 65521)
       * 65536
       + (1 + util_h.byte_sum
                [87; 105; 107; 105; 112; 101; 100; 105; 97]) mod 65521.
Proof.
  split; [vm_compute; reflexivity|].
  apply (Adler32_compute_closed_form
           [87; 105; 107; 105; 112; 101; 100; 105; 97]).
  repeat (apply List.Forall_cons; [unfold util_h.is_byte; lia|]).
  apply List.Forall_nil.
Defined.

(** ** dump-oat.cpp: what the builder writes, the reader reads back *)

Section RoundTripFacts.
Import oatmeal oatmeal_build util_h dump_oat.

Lemma testbit_255 n : 0 <= n -> Z.testbit 255 n = (n <? 8).
Proof.
  intros Hn. change 255 with (Z.ones 8).
  destruct (Z.ltb_spec n 8).
  - apply Z.ones_spec_low. lia.
  - apply Z.ones_spec_high. lia.
Qed.

(** The four bytes of a word, put together again. *)
Lemma le32_word v :
  Z.lor (Z.land v 255)
    (Z.lor (Z.shiftl (Z.land (Z.shiftr v 8) 255) 8)
       (Z.lor (Z.shiftl (Z.land (Z.shiftr v 16) 255) 16)
              (Z.shiftl (Z.land (Z.shiftr v 24) 255) 24)))
  = v mod 2 ^ 32.
Proof.
  apply Z.bits_inj'. intros n Hn.
  rewrite !Z.lor_spec, !Z.shiftl_spec, !Z.land_spec by lia.
  rewrite (testbit_255 n) by lia.
  destruct (Z.lt_ge_cases n 32) as [Hlt|Hge].
  - rewrite Z.mod_pow2_bits_low by lia.
    destruct (Z.lt_ge_cases n 8); [|destruct (Z.lt_ge_cases n 16);
      [|destruct (Z.lt_ge_cases n 24)]];
      rewrite ?(Z.testbit_neg_r _ (n - 8)), ?(Z.testbit_neg_r _ (n - 16)),
        ?(Z.testbit_neg_r _ (n - 24)) by lia;
      rewrite ?Z.land_spec, ?Z.shiftr_spec, ?testbit_255 by lia;
      repeat match goal with
             | |- context [?a <? 8] =>
                 let H := fresh in
                 destruct (Z.ltb_spec a 8) as [H|H]; try lia; clear H
             end;
      rewrite ?Z.sub_add, ?andb_true_r, ?andb_false_r, ?orb_false_r,
        ?orb_false_l; reflexivity.
  - rewrite Z.mod_pow2_bits_high by lia.
    rewrite ?Z.land_spec, ?Z.shiftr_spec, ?testbit_255 by lia.
    repeat match goal with
           | |- context [?a <? 8] =>
               let H := fresh in
               destruct (Z.ltb_spec a 8) as [H|H]; try lia; clear H
           end;
      rewrite ?andb_false_r; reflexivity.
Qed.

Lemma le32_skip b0 b1 b2 b3 l i :
  le32 (b0 :: b1 :: b2 :: b3 :: l) (4 + i) = le32 l i.
Proof. reflexivity. Qed.

(** Reading the word at index [i] of a sequence of written words. *)
Lemma le32_flat_map ws rest : forall i,
  (i < length ws)%nat ->
  le32 (flat_map le32_bytes ws ++ rest) (4 * i) = nth i ws 0 mod 2 ^ 32.
Proof.
  induction ws as [|w ws IH]; intros i Hi; [simpl in Hi; lia|].
  destruct i as [|i].
  - cbn [flat_map le32_bytes app Nat.mul]. unfold le32.
    cbn [nth Nat.add]. apply le32_word.
  - replace (4 * S i)%nat with (4 + 4 * i)%nat by lia.
    cbn [flat_map le32_bytes app]. rewrite le32_skip.
    cbn [nth]. apply IH. simpl in Hi. lia.
Qed.

Lemma length_flat_map_le32_bytes ws :
  length (flat_map le32_bytes ws) = (4 * length ws)%nat.
Proof. induction ws; simpl; lia. Qed.

Lemma drop_nth_cons (ws : list Z) : forall i,
  (i < length ws)%nat -> drop i ws = nth i ws 0 :: drop (S i) ws.
Proof.
  induction ws as [|w ws IH]; intros i Hi; [simpl in Hi; lia|].
  destruct i as [|i]; [reflexivity|].
  cbn [drop nth]. apply IH. simpl in Hi. lia.
Qed.

Lemma READ_WORDS_written ws rest p : forall n i ma,
  (i + n <= length ws)%nat ->
  exists ma',
    READ_WORDS n {| ptr := p; bytes := flat_map le32_bytes ws ++ rest |}
      (4 * i) ma
    = Returns ((fun w => w mod 2 ^ 32) <$> take n (drop i ws), ma').
Proof.
  induction n as [|n IH]; intros i ma Hn.
  - exists ma. reflexivity.
  - cbn [READ_WORDS]. unfold READ_WORD, len. cbn [bytes ptr].
    rewrite length_app, length_flat_map_le32_bytes.
    destruct (Nat.leb_spec (4 * i + 4) (4 * length ws + length rest));
      [|lia].
    replace (4 * i + 4)%nat with (4 * S i)%nat by lia.
    destruct (IH (S i) ((p + 4 * i, 4)%nat :: ma)) as [ma' ->]; [lia|].
    exists ma'. rewrite le32_flat_map by lia.
    rewrite (drop_nth_cons ws i) by lia. reflexivity.
Qed.

Lemma to_int_mod v : - 2 ^ 31 <= v < 2 ^ 31 -> to_int (v mod 2 ^ 32) = v.
Proof.
  intros Hv. unfold to_int.
  rewrite Zplus_mod_idemp_l. rewrite Z.mod_small by lia. lia.
Qed.

(** X4. A header that carries the magic and whose fields are 32-bit
    words is read back by [OatHeader::parse] from the bytes that
    [OatHeader::write] emits for it, whatever follows them; for a
    version other than 045 the three portable offsets are not written
    and must be zero for that. *)
Theorem OatHeader_parse_reads_what_write_wrote h rest ma :
  representable h ->
  magic (common h) = kOatMagicNum ->
  exists ma',
    OatHeader_parse (whole (content (OatHeader_write h fopen_w) ++ rest)) ma
    = Returns (h, ma').
Proof.
  intros (Hwords & Hdelta & Hportable) Hmagic.
  destruct (OatHeader_write_at_end h fopen_w) as (Hcontent & _);
    [reflexivity|].
  rewrite Hcontent. cbn [content fopen_w app].
  change (common_bytes (common h))
    with (flat_map le32_bytes
            [magic (common h); version (common h);
             adler32_checksum (common h)]).
  rewrite <- flat_map_app.
  set (ws := [magic (common h); version (common h);
              adler32_checksum (common h)] ++ OatHeader_fields h).
  assert (Hlen : (18 <= length ws)%nat
                 /\ (version (common h) = V_045 -> length ws = 21%nat)).
  { unfold ws, OatHeader_fields. rewrite !length_app.
    destruct (Z.eqb_spec (version (common h)) V_045); simpl; split;
      intros; try lia. }
  unfold OatHeader_parse, whole, len. cbn [bytes ptr].
  rewrite length_app, length_flat_map_le32_bytes.
  destruct (Nat.leb_spec sizeof_OatHeader_Common
              (4 * length ws + length rest));
    [|unfold sizeof_OatHeader_Common in *; lia].
  cbn [negb].
  assert (H0 : le32 (flat_map le32_bytes ws ++ rest) 0
               = nth 0 ws 0 mod 2 ^ 32)
    by (apply (le32_flat_map ws rest 0); lia).
  assert (H1 : le32 (flat_map le32_bytes ws ++ rest) 4
               = nth 1 ws 0 mod 2 ^ 32)
    by (apply (le32_flat_map ws rest 1); lia).
  assert (H2 : le32 (flat_map le32_bytes ws ++ rest) 8
               = nth 2 ws 0 mod 2 ^ 32)
    by (apply (le32_flat_map ws rest 2); lia).
  rewrite H0, H1, H2. clear H0 H1 H2.
  apply Forall_cons in Hwords as [Hw0 Hwords].
  apply Forall_cons in Hwords as [Hw1 Hwords].
  apply Forall_cons in Hwords as [Hw2 Hwords].
  unfold uint32 in Hw0, Hw1, Hw2.
  change (nth 0 ws 0) with (magic (common h)).
  change (nth 1 ws 0) with (version (common h)).
  change (nth 2 ws 0) with (adler32_checksum (common h)).
  rewrite !Z.mod_small by lia. cbn [version magic].
  destruct (READ_WORDS_written ws rest 0 7 3
              ((0%nat, sizeof_OatHeader_Common) :: ma)) as [ma1 Hr1]; [lia|].
  change (4 * 3)%nat with 12%nat in Hr1. rewrite Hr1. clear Hr1.
  destruct (Z.eqb_spec (version (common h)) V_045) as [H045|H045].
  - destruct Hlen as [_ Hlen]. specialize (Hlen H045).
    destruct (READ_WORDS_written ws rest 0 3 10 ma1) as [ma2 Hr2]; [lia|].
    change (4 * 10)%nat with 40%nat in Hr2. rewrite Hr2. clear Hr2.
    destruct (READ_WORDS_written ws rest 0 8 13 ma2) as [ma3 Hr3]; [lia|].
    change (4 * 13)%nat with 52%nat in Hr3. rewrite Hr3. clear Hr3.
    rewrite Hmagic, Z.eqb_refl. cbn [negb]. exists ma3.
    unfold ws, OatHeader_fields.
    destruct (Z.eqb_spec (version (common h)) V_045); [|contradiction].
    cbn [app drop take fmap list_fmap word nth].
    repeat match goal with
           | H : Forall uint32 (_ :: _) |- _ =>
               let Hx := fresh in
               apply Forall_cons in H as [Hx H]; unfold uint32 in Hx
           end.
    rewrite to_int_mod by lia. rewrite !Z.mod_small by lia.
    destruct h as [[]]. cbn [common magic] in Hmagic. rewrite Hmagic.
    reflexivity.
  - destruct (Hportable H045) as (Hp0 & Hp1 & Hp2).
    destruct (READ_WORDS_written ws rest 0 0 10 ma1) as [ma2 Hr2]; [lia|].
    change (4 * 10)%nat with 40%nat in Hr2. rewrite Hr2. clear Hr2.
    destruct (READ_WORDS_written ws rest 0 8 10 ma2) as [ma3 Hr3]; [lia|].
    change (4 * 10)%nat with 40%nat in Hr3. rewrite Hr3. clear Hr3.
    rewrite Hmagic, Z.eqb_refl. cbn [negb]. exists ma3.
    unfold ws, OatHeader_fields.
    destruct (Z.eqb_spec (version (common h)) V_045); [contradiction|].
    cbn [app drop take fmap list_fmap word nth].
    repeat match goal with
           | H : Forall uint32 (_ :: _) |- _ =>
               let Hx := fresh in
               apply Forall_cons in H as [Hx H]; unfold uint32 in Hx
           end.
    rewrite to_int_mod by lia. rewrite !Z.mod_small by lia.
    destruct h as [[]].
    cbn [common magic portable_imt_conflict_trampoline_offset
         portable_resolution_trampoline_offset
         portable_to_interpreter_bridge_offset] in Hmagic, Hp0, Hp1, Hp2.
    rewrite Hmagic, Hp0, Hp1, Hp2. reflexivity.
Qed.

(** What [KeyValueStore::write] does to a handle that writes at the end
    of its file. *)
Lemma KeyValueStore_write_at_end kv : forall fh,
  at_end fh ->
  content (KeyValueStore_write fh kv) = content fh ++ KeyValueStore_bytes kv
  /\ at_end (KeyValueStore_write fh kv).
Proof.
  unfold KeyValueStore_write, KeyValueStore_bytes.
  induction kv as [|e kv IH]; intros fh Hend; cbn [fold_left flat_map].
  - rewrite app_nil_r. auto.
  - change (write_str_and_null (write_str_and_null fh (fst e)) (snd e))
      with (fwrite_impl (fwrite_impl fh (string_bytes (fst e) ++ [0]))
              (string_bytes (snd e) ++ [0])).
    destruct (fwrite_impl_at_end fh (string_bytes (fst e) ++ [0]) Hend)
      as (Hc1 & He1 & _).
    destruct (fwrite_impl_at_end _ (string_bytes (snd e) ++ [0]) He1)
      as (Hc2 & He2 & _).
    destruct (IH _ He2) as [Hc He]. split; [|exact He].
    rewrite Hc, Hc2, Hc1. unfold terminated. now rewrite <- !app_assoc.
Qed.

Lemma length_string_bytes s : length (string_bytes s) = String.length s.
Proof. induction s as [|c s IH]; simpl; auto. Qed.

Lemma wrap32_idemp_add x y : wrap32 (wrap32 x + y) = wrap32 (x + y).
Proof. unfold wrap32. apply Zplus_mod_idemp_l. Qed.

Lemma KeyValueStore_write_bytes_written kv_pairs :
  forall h : ChecksummingFileHandle,
  bytes_written (KeyValueStore_write h kv_pairs)
  = (bytes_written h + length (KeyValueStore_bytes kv_pairs))%nat.
Proof.
  unfold KeyValueStore_write, KeyValueStore_bytes.
  induction kv_pairs as [|e kv IH]; intros h; cbn [fold_left flat_map].
  - cbn [length]. lia.
  - rewrite IH. unfold write_str_and_null, terminated.
    cbn [fwrite bytes_written ChecksummingFileHandle_Handle base
         fwrite_impl bytes_written_].
    rewrite !length_app. lia.
Qed.

Lemma KeyValueStore_compute_size_wrap kv_pairs :
  KeyValueStore_compute_size kv_pairs
  = wrap32 (Z.of_nat (length (KeyValueStore_bytes kv_pairs))).
Proof.
  unfold KeyValueStore_compute_size, KeyValueStore_bytes.
  assert (Hgen : forall acc,
    fold_left
      (fun ret e =>
         wrap32 (wrap32 (ret + Z.of_nat (String.length (fst e)) + 1)
                 + Z.of_nat (String.length (snd e)) + 1))
      kv_pairs (wrap32 acc)
    = wrap32 (acc + Z.of_nat
                      (length
                         (flat_map
                            (fun e => terminated (fst e)
                                      ++ terminated (snd e)) kv_pairs)))).
  { induction kv_pairs as [|e kv IH]; intros acc; cbn [fold_left flat_map].
    - cbn [length]. f_equal. lia.
    - rewrite <- (Z.add_assoc (wrap32 acc)), wrap32_idemp_add.
      rewrite <- (Z.add_assoc (wrap32 _)), wrap32_idemp_add.
      rewrite IH. f_equal.
      unfold terminated. rewrite !length_app, !length_string_bytes.
      cbn [length]. lia. }
  exact (Hgen 0).
Qed.

(** X5. The size that [KeyValueStore::compute_size] announces is the
    count of bytes that [KeyValueStore::write] emits, reduced modulo
    2^32; [write] emits, for each pair in order, the key and the value,
    each followed by a zero byte. *)
Theorem KeyValueStore_compute_size_counts_what_write_emits
    (h : ChecksummingFileHandle) kv_pairs :
  bytes_written (KeyValueStore_write h kv_pairs)
  = (bytes_written h + length (KeyValueStore_bytes kv_pairs))%nat
  /\ KeyValueStore_compute_size kv_pairs
     = wrap32 (Z.of_nat (length (KeyValueStore_bytes kv_pairs))).
Proof.
  split.
  - apply KeyValueStore_write_bytes_written.
  - apply KeyValueStore_compute_size_wrap.
Qed.

Lemma strnlen_terminated s t : forall maxlen,
  Forall (fun c => c <> 0) s -> (length s < maxlen)%nat ->
  strnlen (s ++ 0 :: t) maxlen = length s.
Proof.
  induction s as [|c s IH]; intros maxlen Hs Hlen.
  - destruct maxlen; [simpl in Hlen; lia|]. reflexivity.
  - apply Forall_cons in Hs as [Hc Hs].
    destruct maxlen as [|maxlen]; [simpl in Hlen; lia|].
    cbn [app strnlen]. destruct (Z.eqb_spec c 0); [contradiction|].
    cbn [length]. f_equal. apply IH; [exact Hs|]. simpl in Hlen. lia.
Qed.

Lemma to_int_small x : 0 <= x < 2 ^ 31 -> to_int x = x.
Proof. intros Hx. unfold to_int. rewrite Z.mod_small by lia. lia. Qed.

(** Reading one terminated string that starts at [next]. *)
Lemma read_str_terminated p pre s t remaining :
  c_string s ->
  Z.of_nat (String.length s) < remaining ->
  read_str {| ptr := p; bytes := pre ++ terminated s ++ t |} remaining
    (length pre)
  = Returns (terminated s, S (String.length s)).
Proof.
  intros Hs Hrem. rewrite <- length_string_bytes in *.
  unfold read_str, len, terminated. cbn [bytes].
  rewrite !length_app. cbn [length].
  destruct (Nat.ltb_spec (length pre)
              (length pre + (length (string_bytes s) + 1 + length t)));
    [|lia].
  cbn [negb]. rewrite drop_app_length.
  rewrite <- app_assoc. cbn [app].
  rewrite strnlen_terminated by (try exact Hs; lia).
  destruct (Nat.leb_spec (length pre + S (length (string_bytes s)))
              (length pre + (length (string_bytes s) + 1 + length t)));
    [|lia].
  f_equal. f_equal.
  - replace (S (length (string_bytes s)))
      with (length (string_bytes s ++ [0]))
      by (rewrite length_app; simpl; lia).
    change (string_bytes s ++ 0 :: t) with (string_bytes s ++ [0] ++ t).
    rewrite app_assoc. apply take_app_length.
Qed.

Lemma length_terminated s : length (terminated s) = S (String.length s).
Proof.
  unfold terminated. rewrite length_app, length_string_bytes. simpl. lia.
Qed.

(** The loop of the reader on the bytes of a list of pairs that start at
    [next]. *)
Lemma KeyValueStore_loop_written p kv : forall fuel pre acc,
  Forall (fun e => c_string (fst e) /\ c_string (snd e)) kv ->
  Z.of_nat (length (KeyValueStore_bytes kv)) < 2 ^ 31 ->
  (length kv < fuel)%nat ->
  KeyValueStore_loop fuel
    {| ptr := p; bytes := pre ++ KeyValueStore_bytes kv |}
    (Z.of_nat (length (KeyValueStore_bytes kv))) (length pre) acc
  = Returns (acc ++ ((fun e => (terminated (fst e), terminated (snd e)))
                     <$> kv)).
Proof.
  induction kv as [|e kv IH]; intros fuel pre acc Hstr Hsize Hfuel.
  - destruct fuel as [|fuel]; [simpl in Hfuel; lia|].
    transitivity (Returns acc); [reflexivity|].
    f_equal. symmetry. apply app_nil_r.
  - apply Forall_cons in Hstr as [[Hk Hv] Hstr].
    destruct fuel as [|fuel]; [simpl in Hfuel; lia|].
    cbn [KeyValueStore_bytes flat_map] in *.
    fold (KeyValueStore_bytes kv) in *.
    rewrite !length_app, !length_terminated in *.
    set (rest := KeyValueStore_bytes kv) in *.
    cbn [KeyValueStore_loop].
    destruct (Z.ltb_spec 0
                (Z.of_nat (S (String.length (fst e))
                           + S (String.length (snd e)) + length rest)));
      [|lia].
    cbn [negb]. rewrite <- app_assoc.
    rewrite read_str_terminated by (try exact Hk; lia).
    rewrite to_int_small by lia.
    destruct (Z.leb_spec
                (Z.of_nat (S (String.length (fst e))
                           + S (String.length (snd e)) + length rest)
                 - Z.of_nat (S (String.length (fst e)))) 0); [lia|].
    replace (length pre + S (String.length (fst e)))%nat
      with (length (pre ++ terminated (fst e)))
      by (rewrite length_app, length_terminated; lia).
    rewrite (app_assoc pre).
    rewrite read_str_terminated by (try exact Hv; lia).
    rewrite to_int_small by lia.
    replace (length (pre ++ terminated (fst e)) + S (String.length (snd e)))%nat
      with (length ((pre ++ terminated (fst e)) ++ terminated (snd e)))
      by (rewrite !length_app, !length_terminated; lia).
    rewrite (app_assoc (pre ++ terminated (fst e))).
    replace (Z.of_nat (S (String.length (fst e))
                       + S (String.length (snd e)) + length rest)
             - Z.of_nat (S (String.length (fst e)))
             - Z.of_nat (S (String.length (snd e))))
      with (Z.of_nat (length rest)) by lia.
    rewrite IH by (try exact Hstr; simpl in Hfuel; lia).
    rewrite <- app_assoc. reflexivity.
Qed.

(** X6. The store is read back from what was written: on the bytes that
    [KeyValueStore::write] emits for pairs of strings without embedded
    zero bytes, fewer than 2^31 bytes in all, the constructor
    [KeyValueStore(buf)] returns the same pairs in the same order, each
    string kept with its terminator, once the loop is given more turns
    than there are pairs. It fails no check and reads nothing outside
    the buffer. *)
Theorem KeyValueStore_reads_what_write_wrote kv_pairs fuel :
  Forall (fun e => c_string (fst e) /\ c_string (snd e)) kv_pairs ->
  Z.of_nat (length (KeyValueStore_bytes kv_pairs)) < 2 ^ 31 ->
  (length kv_pairs < fuel)%nat ->
  content (KeyValueStore_write fopen_w kv_pairs)
  = KeyValueStore_bytes kv_pairs
  /\ KeyValueStore_new fuel
       (whole (content (KeyValueStore_write fopen_w kv_pairs)))
     = Returns ((fun e => (terminated (fst e), terminated (snd e)))
                <$> kv_pairs).
Proof.
  intros Hstr Hsize Hfuel.
  destruct (KeyValueStore_write_at_end kv_pairs fopen_w) as [Hc _];
    [reflexivity|].
  cbn [content fopen_w app] in Hc. split; [exact Hc|].
  rewrite Hc. unfold KeyValueStore_new, whole, len. cbn [bytes].
  rewrite to_int_small by lia.
  exact (KeyValueStore_loop_written 0 kv_pairs fuel [] [] Hstr Hsize Hfuel).
Qed.

End RoundTripFacts.

Lemma OatHeader_parse_reads_what_write_wrote_witness :
  exists ma',
    dump_oat.OatHeader_parse
      (oatmeal.whole
         (oatmeal_build.content
            (@oatmeal_build.OatHeader_write oatmeal_build.FileHandle
               oatmeal_build.FileHandle_Handle dump_oat.sample_header
               oatmeal_build.fopen_w) ++ [1; 2; 3])) []
    = dump_oat.Returns (dump_oat.sample_header, ma').
Proof.
  apply (OatHeader_parse_reads_what_write_wrote dump_oat.sample_header).
  - split; [|split].
    + unfold dump_oat.uint32. apply (bool_decide_unpack _).
      vm_compute. exact I.
    + cbn. lia.
    + intros _. repeat split.
  - reflexivity.
Defined.

Lemma KeyValueStore_reads_what_write_wrote_witness :
  dump_oat.KeyValueStore_new 10
    (oatmeal.whole
       (oatmeal_build.content
          (@oatmeal_build.KeyValueStore_write oatmeal_build.FileHandle
             oatmeal_build.FileHandle_Handle oatmeal_build.fopen_w
             (oatmeal_build.key_value "/boot.art"))))
  = dump_oat.Returns
      ((fun e => (dump_oat.terminated (fst e), dump_oat.terminated (snd e)))
       <$> oatmeal_build.key_value "/boot.art").
Proof.
  apply (KeyValueStore_reads_what_write_wrote
           (oatmeal_build.key_value "/boot.art") 10).
  - unfold dump_oat.c_string. apply (bool_decide_unpack _).
    vm_compute. exact I.
  - vm_compute. reflexivity.
  - vm_compute. lia.
Defined.

(** ** main.cpp: the command line *)

Section CommandLineFacts.
Import oatmeal oatmeal_build oatmeal_main command_line.

Variable expand : string -> string.
Variable OatFile_079_build :
  FileSystem -> string -> list DexInput -> Z -> Z -> bool -> string ->
  Checked (Status * list Z).
Variables Contents_064 Contents_079 : Type.
Variable OatFile_064_parse :
  bool -> ConstBuffer -> nat -> Parser Contents_064.
Variable OatFile_079_parse :
  bool -> ConstBuffer -> nat -> Parser Contents_079.

Lemma parse_opt_exit st c code :
  parse_opt expand st c = inr code -> code = 1.
Proof.
  destruct c; cbn [parse_opt];
    repeat match goal with
           | |- context [if ?b then _ else _] => destruct b
           end; congruence.
Qed.

Lemma parse_opts_exit argv : forall st code,
  parse_opts expand st argv = inr code -> code = 1.
Proof.
  induction argv as [|c argv IH]; intros st code; cbn [parse_opts].
  - discriminate.
  - destruct (parse_opt expand st c) as [st'|code'] eqn:Hc.
    + apply IH.
    + intros [= <-]. exact (parse_opt_exit _ _ _ Hc).
Qed.

Lemma parse_args_exit argv code :
  parse_args expand argv = inr code -> code = 1.
Proof.
  unfold parse_args.
  destruct (parse_opts expand _ argv) as [st|code'] eqn:Hopts.
  - repeat match goal with
           | |- context [if ?b then _ else _] => destruct b
           end; congruence.
  - intros [= <-]. exact (parse_opts_exit _ _ _ Hopts).
Qed.

(** X7. The tool ends with exit code 0 or 1, whenever it ends with an exit
    code at all: every [exit] in [parse_args] and every error return of
    [dump], [build] and [main] uses 1. *)
Theorem exit_code_is_0_or_1 fs argv code :
  main expand OatFile_079_build OatFile_064_parse OatFile_079_parse fs argv
  = Exit code ->
  code = 0 \/ code = 1.
Proof.
  unfold main.
  destruct (parse_args expand argv) as [args|code'] eqn:Hargs.
  - destruct (action args).
    + unfold dump.
      destruct (is_empty (oat_file args)); [intros [= <-]; auto|].
      destruct (fopen_r fs (oat_file args)); [|intros [= <-]; auto].
      destruct (parse _ _ _ _) as [|[[f|] ma]]; try discriminate.
      destruct (status f); intros [= <-]; auto.
    + unfold build.
      destruct (is_empty (oat_file args)); [intros [= <-]; auto|].
      destruct (length (dex_files args) =? 0)%nat; [intros [= <-]; auto|].
      destruct (is_empty (oat_version args)); [intros [= <-]; auto|].
      destruct (OatFile_build _ _ _ _ _ _ _ _); [discriminate|].
      intros [= <-]. auto.
    + intros [= <-]. auto.
  - intros [= <-]. right. exact (parse_args_exit _ _ Hargs).
Qed.




Lemma parse_opt_lists st c st' :
  parse_opt expand st c = inl st' ->
  files st' = files st ++ (expand <$> dex_args [c])
  /\ locations st' = locations st ++ dex_location_args [c].
Proof.
  destruct c; cbn [parse_opt];
    repeat match goal with
           | |- context [if ?b then _ else _] => destruct b
           end;
    intros [= <-]; cbn; rewrite ?app_nil_r; auto.
Qed.

Lemma parse_opts_lists argv : forall st st',
  parse_opts expand st argv = inl st' ->
  files st' = files st ++ (expand <$> dex_args argv)
  /\ locations st' = locations st ++ dex_location_args argv.
Proof.
  induction argv as [|c argv IH]; intros st st'; cbn [parse_opts].
  - intros [= <-]. cbn. rewrite !app_nil_r. auto.
  - destruct (parse_opt expand st c) as [st1|] eqn:Hc; [|discriminate].
    intros Hrest.
    destruct (parse_opt_lists _ _ _ Hc) as [Hf1 Hl1].
    destruct (IH _ _ Hrest) as [Hf Hl].
    rewrite Hf, Hl, Hf1, Hl1, <- !app_assoc.
    change (c :: argv) with ([c] ++ argv).
    unfold dex_args, dex_location_args.
    rewrite !omap_app, fmap_app. auto.
Qed.

(** X9. When [parse_args] returns, the inputs it hands on are the
    arguments of the [--dex] options in order, each path expanded: with
    no [--dex-location] option each input is located at its own path;
    otherwise there are as many locations as inputs and the i-th input
    gets the i-th location. *)
Theorem parse_args_pairs_inputs_with_locations argv args :
  parse_args expand argv = inl args ->
  let paths := expand <$> dex_args argv in
  let locs := dex_location_args argv in
  (locs = [] ->
   dex_files args = (fun f => {| filename := f; location := f |}) <$> paths)
  /\ (locs <> [] ->
      length locs = length paths
      /\ dex_files args
         = zip_with (fun file loc => {| filename := file; location := loc |})
             paths locs).
Proof.
  unfold parse_args.
  destruct (parse_opts expand _ argv) as [st|] eqn:Hopts; [|discriminate].
  destruct (parse_opts_lists _ _ _ Hopts) as [Hf Hl].
  cbn [files locations app] in Hf, Hl. rewrite Hf, Hl.
  destruct (_ && _); [discriminate|].
  destruct (dex_location_args argv) as [|loc locs] eqn:Hlocs.
  - cbn [length Nat.ltb Nat.leb]. intros [= <-]. cbn zeta. split.
    + intros _. reflexivity.
    + intros Hne. contradiction.
  - cbn [length Nat.ltb Nat.leb].
    destruct (Nat.eqb_spec (S (length locs))
                (length (expand <$> dex_args argv))) as [Hlen|];
      [|discriminate].
    cbn [negb]. intros [= <-]. cbn zeta. split.
    + discriminate.
    + intros _. split; [exact Hlen | reflexivity].
Qed.

End CommandLineFacts.

Lemma exit_code_is_0_or_1_witness :
  oatmeal_main.main (fun path => path)
    (fun _ _ _ _ _ _ _ => oatmeal.CheckFailed)
    oatmeal.skip_contents oatmeal.skip_contents oatmeal_build.disk
    oatmeal_main.build_into_missing_directory = oatmeal_main.Exit 0
  /\ (0 = 0 \/ 0 = 1).
Proof.
  assert (Hrun :
    oatmeal_main.main (fun path => path)
      (fun _ _ _ _ _ _ _ => oatmeal.CheckFailed)
      oatmeal.skip_contents oatmeal.skip_contents oatmeal_build.disk
      oatmeal_main.build_into_missing_directory = oatmeal_main.Exit 0)
    by (vm_compute; reflexivity).
  split; [exact Hrun|].
  exact (exit_code_is_0_or_1 _ _ _ _ _ _ _ _ _ Hrun).
Defined.


Lemma parse_args_pairs_inputs_with_locations_witness :
  exists args,
    oatmeal_main.parse_args (fun path => path)
      [oatmeal_main.opt_dex "a.dex"; oatmeal_main.opt_build;
       oatmeal_main.opt_dex_location "base.apk"] = inl args
    /\ oatmeal_main.dex_files args
       = [{| oatmeal_build.filename := "a.dex";
             oatmeal_build.location := "base.apk" |}].
Proof.
  eexists. split; [vm_compute; reflexivity|].
  match goal with
  | |- oatmeal_main.dex_files ?a = _ =>
      destruct (parse_args_pairs_inputs_with_locations (fun path => path)
                  [oatmeal_main.opt_dex "a.dex"; oatmeal_main.opt_build;
                   oatmeal_main.opt_dex_location "base.apk"] a)
        as [_ Hpairs]; [vm_compute; reflexivity|]
  end.
  destruct Hpairs as [_ ->]; [vm_compute; discriminate|].
  vm_compute. reflexivity.
Defined.

(** ** ClassHierarchy.cpp: the index and the searches *)

Section HierarchyEdges.
Import ClassHierarchy hierarchy_edges.

Lemma get_children_ensure_entry (h : gmap string (gset string)) type q :
  get_children (<[type := entry h type]> h) q = get_children h q.
Proof.
  unfold get_children, entry.
  destruct (decide (type = q)) as [->|Hne].
  - rewrite lookup_insert_eq. now destruct (h !! q).
  - now rewrite lookup_insert_ne.
Qed.

Lemma child_add_child (h : gmap string (gset string)) parent type p c :
  child (add_child h parent type) p c
  <-> child h p c \/ (p = parent /\ c = type).
Proof.
  unfold child, add_child, get_children, entry.
  destruct (decide (parent = p)) as [->|Hne].
  - rewrite lookup_insert_eq. simpl. set_solver.
  - rewrite lookup_insert_ne by exact Hne. split; [auto|].
    intros [H|[-> _]]; [exact H | contradiction].
Qed.

Lemma child_build_class_hierarchy (h : gmap string (gset string)) cls p c :
  child (build_class_hierarchy h cls) p c
  <-> child h p c \/ (c = get_type cls /\ recorded_parent cls = Some p).
Proof.
  unfold build_class_hierarchy, recorded_parent.
  destruct (get_super_class cls) as [super|].
  - rewrite child_add_child. unfold child at 1.
    rewrite get_children_ensure_entry. fold (child h p c).
    split; (intros [H|[H1 H2]]; [left; exact H | right]); split;
      congruence.
  - destruct (negb (String.eqb (get_type cls) get_object_type)).
    + rewrite child_add_child. unfold child at 1.
      rewrite get_children_ensure_entry. fold (child h p c).
      split; (intros [H|[H1 H2]]; [left; exact H | right]); split;
        congruence.
    + unfold child at 1. rewrite get_children_ensure_entry.
      fold (child h p c). split; [auto|].
      intros [H|[_ H]]; [exact H | discriminate].
Qed.

Lemma child_fold step (keep : DexClass -> bool) classes p c :
  (forall h cls,
     step h cls = if keep cls then build_class_hierarchy h cls else h) ->
  forall h : gmap string (gset string),
  child (fold_left step classes h) p c
  <-> child h p c
      \/ exists cls, cls ∈ classes /\ keep cls = true
                     /\ c = get_type cls /\ recorded_parent cls = Some p.
Proof.
  intros Hstep.
  induction classes as [|cls classes IH]; intros h; cbn [fold_left].
  - split; [auto|]. intros [H|(cls & Hin & _)]; [exact H | inversion Hin].
  - rewrite IH, Hstep. destruct (keep cls) eqn:Hkeep.
    + rewrite child_build_class_hierarchy. split.
      * intros [[H|[Hc Hp]]|(cls' & Hin & Hk & Hc & Hp)]; [auto| |].
        -- right. exists cls. split; [left|auto].
        -- right. exists cls'. split; [right; exact Hin|auto].
      * intros [H|(cls' & Hin & Hk & Hc & Hp)]; [auto|].
        apply elem_of_cons in Hin as [->|Hin]; [auto|].
        right. exists cls'. auto.
    + split.
      * intros [H|(cls' & Hin & Hk & Hc & Hp)]; [auto|].
        right. exists cls'. split; [right; exact Hin|auto].
      * intros [H|(cls' & Hin & Hk & Hc & Hp)]; [auto|].
        apply elem_of_cons in Hin as [->|Hin]; [congruence|].
        right. exists cls'. auto.
Qed.

(** X10. The index that [build_type_hierarchy] returns holds exactly the
    edges of the recorded classes: [c] is a direct child of [p] if and
    only if some class of the scope, or some external class of the
    context, that is not an interface has type [c] and has [p] as its
    super class, or has no super class, is not [java.lang.Object] and
    [p] is [java.lang.Object]. *)
Theorem build_type_hierarchy_holds_the_recorded_edges all_classes scope p c :
  child (build_type_hierarchy all_classes scope) p c
  <-> exists cls, cls ∈ recorded all_classes scope
                  /\ get_type cls = c /\ recorded_parent cls = Some p.
Proof.
  unfold build_type_hierarchy, build_external_hierarchy, recorded.
  rewrite (child_fold _
             (fun cls => negb (negb (is_external cls) || is_interface cls))).
  - rewrite (child_fold _ (fun cls => negb (is_interface cls))).
    + split.
      * intros [[H|(cls & Hin & Hk & Hc & Hp)]|(cls & Hin & Hk & Hc & Hp)].
        -- unfold child, get_children in H. rewrite lookup_empty in H.
           set_solver.
        -- exists cls. split; [|auto]. apply elem_of_app. left.
           apply list_elem_of_filter. split; [|exact Hin].
           now destruct (is_interface cls).
        -- exists cls. split; [|auto]. apply elem_of_app. right.
           apply list_elem_of_filter. split; [|exact Hin].
           destruct (is_external cls), (is_interface cls); auto; discriminate.
      * intros (cls & Hin & Hc & Hp).
        apply elem_of_app in Hin as [Hin|Hin];
          apply list_elem_of_filter in Hin as [Hf Hin].
        -- left. right. exists cls. rewrite Hf. auto.
        -- right. exists cls. destruct Hf as [-> ->]. auto.
    + intros. now destruct (is_interface _).
  - intros. now destruct (negb _ || _).
Qed.

End HierarchyEdges.

Section HierarchyCycles.
Import ClassHierarchy hierarchy_edges.

Variable hierarchy : gmap string (gset string).

(** [t] reaches a type that lies on a cycle. *)
Local Abbreviation reaches_cycle t :=
  (exists x, (t = x \/ descendant hierarchy t x) /\ descendant hierarchy x x).

Lemma cycle_below_child t :
  reaches_cycle t ->
  exists c, c ∈ get_children hierarchy t /\ reaches_cycle c.
Proof.
  intros (x & Hreach & Hcycle).
  assert (Hdown : descendant hierarchy t x) by (destruct Hreach; congruence).
  unfold descendant in Hdown. destruct Hdown as [t x Htx|t c x Htc Hcx].
  - exists x. split; [exact Htx|]. exists x. auto.
  - exists c. split; [exact Htc|]. exists x. auto.
Qed.

Lemma walk_stays_lost fuel (l : list string) :
  fold_left
    (fun acc child =>
       match acc with
       | None => None
       | Some children =>
           get_all_children fuel hierarchy child ({[child]} ∪ children)
       end) l None = None.
Proof. induction l as [|c l IH]; [reflexivity | exact IH]. Qed.

(** X11. Below a type from which a cycle of the index can be reached, the
    walk of [get_all_children] does not return: whatever the bound on the
    depth of the recursion, the bound is hit. *)
Theorem get_all_children_does_not_return_on_a_cycle fuel : forall T x acc,
  T = x \/ descendant hierarchy T x ->
  descendant hierarchy x x ->
  get_all_children fuel hierarchy T acc = None.
Proof.
  induction fuel as [|fuel IH]; intros T x acc Hreach Hcycle;
    [reflexivity|].
  destruct (cycle_below_child T) as (c & Hc & y & Hy & Hyy);
    [exists x; auto|].
  cbn [get_all_children].
  apply elem_of_elements, list_elem_of_split in Hc as (l1 & l2 & ->).
  rewrite fold_left_app. cbn [fold_left].
  destruct (fold_left _ l1 (Some acc)) as [acc'|].
  - rewrite (IH c y _ Hy Hyy). apply walk_stays_lost.
  - apply walk_stays_lost.
Qed.

End HierarchyCycles.

Lemma get_all_children_does_not_return_on_a_cycle_witness :
  ClassHierarchy.get_all_children 1000 hierarchy_edges.cyclic_hierarchy
    "LA;" ∅ = None.
Proof.
  apply (get_all_children_does_not_return_on_a_cycle
           hierarchy_edges.cyclic_hierarchy 1000 "LA;" "LA;" ∅).
  - left. reflexivity.
  - apply tc_l with "LB;".
    + unfold ClassHierarchy.child, ClassHierarchy.get_children.
      apply (bool_decide_unpack _). vm_compute. exact I.
    + apply tc_once.
      unfold ClassHierarchy.child, ClassHierarchy.get_children.
      apply (bool_decide_unpack _). vm_compute. exact I.
Defined.

Section CollisionResults.
Import ClassHierarchy.

Variable type_class : string -> option DexClass.
Variable resolve_virtual : DexClass -> string -> string -> option DexMethod.

Lemma check_vmethods_matches name proto type m :
  check_vmethods type_class name proto type = Some (Some m) ->
  match_ name proto m = true.
Proof.
  unfold check_vmethods. destruct (type_class type); [|discriminate].
  intros [= Hfind]. apply find_some in Hfind. tauto.
Qed.

Lemma check_dmethods_matches name proto type m :
  check_dmethods type_class name proto type = Some (Some m) ->
  match_ name proto m = true.
Proof.
  unfold check_dmethods. destruct (type_class type); [|discriminate].
  intros [= Hfind]. apply find_some in Hfind. tauto.
Qed.

Lemma hit_differs m except :
  hit m except = true -> exists method, m = Some method
                                         /\ differs method except = true.
Proof. destruct m as [method|]; [eauto | discriminate]. Qed.

Lemma check_children_result except name proto check_direct children :
  forall m,
  check_children type_class except name proto check_direct children
  = Some (Some m) ->
  match_ name proto m = true /\ differs m except = true.
Proof.
  induction children as [|child rest IH]; intros m; cbn [check_children];
    [discriminate|].
  destruct (check_vmethods type_class name proto child) as [vmethod|] eqn:Hv;
    [|discriminate].
  destruct (hit vmethod except) eqn:Hhit.
  - intros [= ->]. apply hit_differs in Hhit as (m' & [= <-] & Hd).
    split; [|exact Hd]. exact (check_vmethods_matches _ _ _ _ Hv).
  - destruct check_direct; [|apply IH].
    destruct (check_dmethods type_class name proto child) as [dmethod|]
      eqn:Hdm; [|discriminate].
    destruct (hit dmethod except) eqn:Hhit'; [|apply IH].
    intros [= ->]. apply hit_differs in Hhit' as (m' & [= <-] & Hd).
    split; [|exact Hd]. exact (check_dmethods_matches _ _ _ _ Hdm).
Qed.

(** X12. [find_collision_excepting] never returns the excepted method,
    and a method it returns has the name and the proto searched for,
    unless it is the one that [resolve_virtual] found in the super
    class of a virtual search. *)
Theorem find_collision_excepting_returns_a_collision
    fuel (ch : gmap string (gset string)) except name proto cls
    is_virtual check_direct m :
  find_collision_excepting type_class resolve_virtual fuel ch except name
    proto cls is_virtual check_direct = Some (Some m) ->
  Some m <> except
  /\ (match_ name proto m = true
      \/ is_virtual = true
         /\ exists super_type super,
              get_super_class cls = Some super_type
              /\ type_class super_type = Some super
              /\ resolve_virtual super name proto = Some m).
Proof.
  unfold find_collision_excepting.
  destruct (List.find _ (get_dmethods cls)) as [d|] eqn:Hd.
  { intros [= ->]. apply find_some in Hd as [_ Hd].
    unfold colliding, differs in Hd. apply andb_true_iff in Hd as [Hm Hx].
    apply bool_decide_eq_true in Hx. auto. }
  destruct (List.find _ (get_vmethods cls)) as [v|] eqn:Hv.
  { intros [= ->]. apply find_some in Hv as [_ Hv].
    unfold colliding, differs in Hv. apply andb_true_iff in Hv as [Hm Hx].
    apply bool_decide_eq_true in Hx. auto. }
  destruct is_virtual; cbn [negb]; [|discriminate].
  destruct (get_super_class cls) as [super_type|].
  - destruct (type_class super_type) as [super|] eqn:Hsuper.
    + destruct (resolve_virtual super name proto) as [r|] eqn:Hr.
      * destruct (differs r except) eqn:Hx.
        -- intros [= ->]. apply bool_decide_eq_true in Hx. split; [exact Hx|].
           right. split; [reflexivity|]. eauto.
        -- destruct (get_all_children fuel ch (get_type cls) ∅);
             [|discriminate].
           intros Hc. apply check_children_result in Hc as [Hm Hx'].
           apply bool_decide_eq_true in Hx'. auto.
      * destruct (get_all_children fuel ch (get_type cls) ∅);
          [|discriminate].
        intros Hc. apply check_children_result in Hc as [Hm Hx'].
        apply bool_decide_eq_true in Hx'. auto.
    + destruct (get_all_children fuel ch (get_type cls) ∅);
        [|discriminate].
      intros Hc. apply check_children_result in Hc as [Hm Hx'].
      apply bool_decide_eq_true in Hx'. auto.
  - destruct (get_all_children fuel ch (get_type cls) ∅); [|discriminate].
    intros Hc. apply check_children_result in Hc as [Hm Hx'].
    apply bool_decide_eq_true in Hx'. auto.
Qed.

End CollisionResults.

Lemma find_collision_excepting_returns_a_collision_witness :
  ClassHierarchy.find_collision_excepting
    (fun _ => None) (fun _ _ _ => None) 0 ClassHierarchy.small_hierarchy
    (Some ClassHierarchy.m_bar) "foo" "()V"
    ClassHierarchy.class_with_methods true true
  = Some (Some ClassHierarchy.m_foo)
  /\ Some ClassHierarchy.m_foo <> Some ClassHierarchy.m_bar.
Proof.
  assert (Hrun :
    ClassHierarchy.find_collision_excepting
      (fun _ => None) (fun _ _ _ => None) 0 ClassHierarchy.small_hierarchy
      (Some ClassHierarchy.m_bar) "foo" "()V"
      ClassHierarchy.class_with_methods true true
    = Some (Some ClassHierarchy.m_foo)) by (vm_compute; reflexivity).
  split; [exact Hrun|].
  exact (proj1 (find_collision_excepting_returns_a_collision
                  _ _ _ _ _ _ _ _ _ _ _ Hrun)).
Defined.

(** ** GraphColoring.cpp: what select leaves *)

Section ColouringFacts.
Import regalloc.
Local Open Scope nat_scope.

Variable ig : Graph.

Local Abbreviation start rt sp :=
  {| reg_transform := rt; spill_plan := sp; vregs_size := 0 |}.

Lemma select_step_map st r :
  map (reg_transform st) !! r = None ->
  map (reg_transform (select_step ig st r)) !! r
  = if candidate ig r (map (reg_transform st)) <=? max_vreg (get_node ig r)
    then Some (candidate ig r (map (reg_transform st))) else None.
Proof.
  intros Hnone. unfold select_step. cbv zeta.
  fold (candidate ig r (map (reg_transform st))).
  destruct (_ <=? _); cbn [reg_transform map].
  - now apply lookup_emplace_None.
  - exact Hnone.
Qed.

Lemma map_of_entries st r : map (reg_transform st) !! r = (entries st r).1.1.
Proof. reflexivity. Qed.

(** The vreg of a register is decided at its own turn. *)
Lemma map_decided_at_own_turn pre r post st0 :
  NoDup (pre ++ r :: post) ->
  map (reg_transform (select_loop ig (pre ++ r :: post) st0)) !! r
  = map (reg_transform (select_step ig (select_loop ig pre st0) r)) !! r.
Proof.
  intros Hnodup. apply NoDup_app in Hnodup as (_ & _ & Hpost).
  apply NoDup_cons in Hpost as [Hpost _].
  unfold select_loop at 1. rewrite fold_left_app. cbn [fold_left].
  fold (select_loop ig pre st0).
  fold (select_loop ig post (select_step ig (select_loop ig pre st0) r)).
  rewrite !map_of_entries, select_loop_other by exact Hpost. reflexivity.
Qed.

(** A register coloured after a neighbour stays clear of it. *)
Lemma later_avoids_earlier pre a post rt sp b va vb :
  NoDup (pre ++ a :: post) ->
  map rt !! a = None ->
  b ∈ pre ->
  b ∈ adjacent (get_node ig a) ->
  map (reg_transform (select_loop ig (pre ++ a :: post) (start rt sp))) !! a
  = Some va ->
  map (reg_transform (select_loop ig (pre ++ a :: post) (start rt sp))) !! b
  = Some vb ->
  forall j,
    ~ (va <= j < va + width (get_node ig a)
       /\ vb <= j < vb + width (get_node ig b)).
Proof.
  intros Hnodup Hfresh Hb Hadj Ha Hvb j [Hja Hjb].
  set (st := select_loop ig pre (start rt sp)).
  assert (Hpre : a ∉ pre).
  { apply NoDup_app in Hnodup as (_ & Hdisj & _).
    intros Hin. apply (Hdisj a Hin). left. }
  assert (Hst : map (reg_transform st) !! a = None).
  { unfold st. rewrite map_of_entries, select_loop_other by exact Hpre.
    exact Hfresh. }
  rewrite (map_decided_at_own_turn pre a post) in Ha by exact Hnodup.
  fold st in Ha. rewrite (select_step_map st a Hst) in Ha.
  destruct (_ <=? _); [|discriminate]. injection Ha as <-.
  assert (Hstb : map (reg_transform st) !! b = Some vb).
  { apply list_elem_of_split in Hb as (p1 & p2 & ->).
    rewrite <- app_assoc in Hvb, Hnodup. cbn [app] in Hvb, Hnodup.
    rewrite (map_decided_at_own_turn p1 b (p2 ++ a :: post)) in Hvb
      by exact Hnodup.
    rewrite <- Hvb. unfold st.
    apply (map_decided_at_own_turn p1 b p2).
    rewrite app_comm_cons, app_assoc in Hnodup.
    apply NoDup_app in Hnodup as (Hnodup & _). exact Hnodup. }
  destruct (candidate_is_lowest_fit ig a (map (reg_transform st)))
    as [Hfits _].
  apply (Hfits j Hja). exists b, vb. auto.
Qed.

(** X13. [select] colours neighbours apart: when the stack holds every
    register once, none of them has a vreg yet and adjacency is
    symmetric, two adjacent registers of the stack that both get a vreg
    occupy disjoint ranges of vregs. *)
Theorem select_colours_neighbours_apart select_stack rt sp a b va vb :
  NoDup select_stack ->
  (forall r, r ∈ select_stack -> map rt !! r = None) ->
  (forall r s, r ∈ select_stack -> s ∈ select_stack ->
               s ∈ adjacent (get_node ig r) ->
               r ∈ adjacent (get_node ig s)) ->
  a ∈ select_stack -> b ∈ select_stack -> a <> b ->
  b ∈ adjacent (get_node ig a) ->
  map (fst (select ig select_stack rt sp)) !! a = Some va ->
  map (fst (select ig select_stack rt sp)) !! b = Some vb ->
  forall j,
    ~ (va <= j < va + width (get_node ig a)
       /\ vb <= j < vb + width (get_node ig b)).
Proof.
  intros Hnodup Hfresh Hsym Ha Hb Hne Hadj Hva Hvb.
  unfold select in Hva, Hvb. cbv zeta in Hva, Hvb. cbn [fst map] in Hva, Hvb.
  pose proof (Hsym a b Ha Hb Hadj) as Hadj'. clear Hsym.
  pose proof Ha as Hsplit.
  apply list_elem_of_split in Hsplit as (l1 & l2 & ->).
  apply elem_of_app in Hb as [Hb|Hb].
  - exact (later_avoids_earlier l1 a l2 rt sp b va vb Hnodup
             (Hfresh a Ha) Hb Hadj Hva Hvb).
  - apply elem_of_cons in Hb as [->|Hb]; [contradiction|].
    apply list_elem_of_split in Hb as (m1 & m2 & ->).
    rewrite app_comm_cons, app_assoc in Hnodup, Hva, Hvb, Hfresh.
    intros j [Hja Hjb].
    apply (later_avoids_earlier (l1 ++ a :: m1) b m2 rt sp a vb va Hnodup)
      with (j := j); auto.
    + apply Hfresh. apply elem_of_app. right. left.
    + apply elem_of_app. right. left.
Qed.

Lemma length_alloc_at f pos w :
  length (alloc_at f pos w) = Nat.max (length f) (pos + w).
Proof. unfold alloc_at. now rewrite length_fmap, length_seq. Qed.

Lemma vregs_size_step st r :
  vregs_size st <= vregs_size (select_step ig st r)
  /\ candidate ig r (map (reg_transform st)) + width (get_node ig r)
     <= vregs_size (select_step ig st r).
Proof.
  unfold select_step. cbv zeta. cbn [vregs_size].
  unfold candidate, alloc. cbn [fst snd]. rewrite length_alloc_at.
  destruct (_ <=? _); cbn [vregs_size]; lia.
Qed.

Lemma vregs_size_loop l : forall st,
  vregs_size st <= vregs_size (select_loop ig l st).
Proof.
  unfold select_loop. induction l as [|r l IH]; intros st; cbn [fold_left].
  - lia.
  - specialize (IH (select_step ig st r)).
    pose proof (vregs_size_step st r). lia.
Qed.

(** X14. The frame size that [select] reports covers what it assigned:
    under the same conditions on the stack, a register of the stack that
    gets the vreg [v] has its whole range below the size, [v + width]
    being at most the size of the transform. *)
Theorem select_size_covers_the_assigned select_stack rt sp r v :
  NoDup select_stack ->
  r ∈ select_stack ->
  map rt !! r = None ->
  map (fst (select ig select_stack rt sp)) !! r = Some v ->
  v + width (get_node ig r) <= size (fst (select ig select_stack rt sp)).
Proof.
  intros Hnodup Hr Hfresh Hv.
  unfold select in *. cbv zeta in *. cbn [fst map size] in *.
  apply list_elem_of_split in Hr as (pre & post & ->).
  set (st := select_loop ig pre (start rt sp)).
  assert (Hpre : r ∉ pre).
  { apply NoDup_app in Hnodup as (_ & Hdisj & _).
    intros Hin. apply (Hdisj r Hin). left. }
  assert (Hst : map (reg_transform st) !! r = None).
  { unfold st. rewrite map_of_entries, select_loop_other by exact Hpre.
    exact Hfresh. }
  rewrite (map_decided_at_own_turn pre r post) in Hv by exact Hnodup.
  fold st in Hv. rewrite (select_step_map st r Hst) in Hv.
  destruct (_ <=? _); [|discriminate]. injection Hv as <-.
  unfold select_loop. rewrite fold_left_app. cbn [fold_left].
  fold (select_loop ig pre (start rt sp)). fold st.
  fold (select_loop ig post (select_step ig st r)).
  pose proof (vregs_size_loop post (select_step ig st r)).
  pose proof (vregs_size_step st r). lia.
Qed.

End ColouringFacts.

Lemma select_colours_neighbours_apart_witness :
  regalloc.map
    (fst (regalloc.select regalloc.triangle [0; 1; 2]%nat
            regalloc.empty_transform regalloc.empty_plan)) !! 0%nat
  = Some 0%nat
  /\ regalloc.map
       (fst (regalloc.select regalloc.triangle [0; 1; 2]%nat
               regalloc.empty_transform regalloc.empty_plan)) !! 1%nat
     = Some 1%nat
  /\ forall j : nat, ~ ((0 <= j < 0 + 1)%nat /\ (1 <= j < 1 + 1)%nat).
Proof.
  split; [vm_compute; reflexivity|]. split; [vm_compute; reflexivity|].
  apply (select_colours_neighbours_apart regalloc.triangle [0; 1; 2]%nat
           regalloc.empty_transform regalloc.empty_plan 0%nat 1%nat
           0%nat 1%nat).
  - apply (bool_decide_unpack (NoDup [0; 1; 2]%nat)). vm_compute. exact I.
  - intros r _. apply lookup_empty.
  - intros r s Hr Hs Hadj.
    apply list_elem_of_In in Hr, Hs. apply list_elem_of_In.
    simpl in Hr, Hs.
    destruct Hr as [<-|[<-|[<-|[]]]], Hs as [<-|[<-|[<-|[]]]];
      apply list_elem_of_In in Hadj; simpl in Hadj |- *; lia.
  - apply list_elem_of_In. simpl. lia.
  - apply list_elem_of_In. simpl. lia.
  - lia.
  - apply list_elem_of_In. simpl. lia.
  - vm_compute. reflexivity.
  - vm_compute. reflexivity.
Defined.

Lemma select_size_covers_the_assigned_witness :
  (1 + regalloc.width (regalloc.get_node regalloc.triangle 1)
   <= regalloc.size
        (fst (regalloc.select regalloc.triangle [0; 1; 2]%nat
                regalloc.empty_transform regalloc.empty_plan)))%nat.
Proof.
  apply (select_size_covers_the_assigned regalloc.triangle [0; 1; 2]%nat
           regalloc.empty_transform regalloc.empty_plan 1%nat 1%nat).
  - apply (bool_decide_unpack (NoDup [0; 1; 2]%nat)). vm_compute. exact I.
  - apply list_elem_of_In. simpl. lia.
  - apply lookup_empty.
  - vm_compute. reflexivity.
Defined.

(** ** PatriciaTreeMap.h: updates *)

Section PatriciaBits.
Import pt_util.

Lemma land_pow2 k i :
  0 <= i -> Z.land k (2 ^ i) = if Z.testbit k i then 2 ^ i else 0.
Proof.
  intros Hi. apply Z.bits_inj'. intros n Hn.
  rewrite Z.land_spec, Z.pow2_bits_eqb by lia.
  destruct (Z.eqb_spec i n) as [->|Hne].
  - rewrite andb_true_r. destruct (Z.testbit k n).
    + now rewrite Z.pow2_bits_true.
    + now rewrite Z.bits_0.
  - rewrite andb_false_r. destruct (Z.testbit k i).
    + rewrite Z.pow2_bits_false by lia. reflexivity.
    + now rewrite Z.bits_0.
Qed.

Lemma is_zero_bit_pow2 k i :
  0 <= i -> is_zero_bit k (2 ^ i) = negb (Z.testbit k i).
Proof.
  intros Hi. unfold is_zero_bit. rewrite land_pow2 by exact Hi.
  assert (0 < 2 ^ i) by (apply Z.pow_pos_nonneg; lia).
  destruct (Z.testbit k i); cbn [negb].
  - apply Z.eqb_neq. lia.
  - reflexivity.
Qed.

Lemma mask_pow2 k i : 0 <= i < KEY_BITS -> mask k (2 ^ i) = k mod 2 ^ i.
Proof.
  unfold KEY_BITS. intros Hi. unfold mask, wrap, KEY_BITS.
  assert (0 < 2 ^ i) by (apply Z.pow_pos_nonneg; lia).
  assert (2 ^ i <= 2 ^ 31) by (apply Z.pow_le_mono_r; lia).
  rewrite Z.mod_small by lia.
  rewrite Z.sub_1_r, <- Z.ones_equiv. apply Z.land_ones. lia.
Qed.

Lemma match_prefix_pow2 k p i :
  0 <= i < KEY_BITS -> match_prefix k p (2 ^ i) = (k mod 2 ^ i =? p).
Proof. intros Hi. unfold match_prefix. now rewrite mask_pow2. Qed.

(** The lowest bit set in a positive number. *)
Lemma lowest_bit_of_positive p :
  exists i,
    0 <= i /\ Z.land (Z.pos p) (- Z.pos p) = 2 ^ i
    /\ Z.testbit (Z.pos p) i = true
    /\ forall j, 0 <= j < i -> Z.testbit (Z.pos p) j = false.
Proof.
  induction p as [p _|p IH|].
  - exists 0. split; [lia|]. split; [|split].
    + apply Z.bits_inj'. intros n Hn.
      rewrite Z.land_spec.
      change (Z.pos p~1) with (2 * Z.pos p + 1).
      replace (- (2 * Z.pos p + 1)) with (2 * (- Z.pos p - 1) + 1) by lia.
      destruct (Z.eq_dec n 0) as [->|Hne].
      * rewrite !Z.testbit_odd_0. reflexivity.
      * replace n with (Z.succ (n - 1)) by lia.
        rewrite !Z.testbit_odd_succ by lia.
        rewrite <- Z.lnot_eq_pred_opp, Z.lnot_spec by lia.
        rewrite andb_negb_r. symmetry.
        apply (Z.pow2_bits_false 0). lia.
    + reflexivity.
    + intros j Hj. lia.
  - destruct IH as (i & Hi & Hland & Hbit & Hlow).
    exists (Z.succ i). split; [lia|]. split; [|split].
    + change (Z.pos p~0) with (2 * Z.pos p).
      replace (- (2 * Z.pos p)) with (2 * - Z.pos p) by lia.
      replace (2 * Z.pos p) with (Z.shiftl (Z.pos p) 1)
        by (rewrite Z.shiftl_mul_pow2; lia).
      replace (2 * - Z.pos p) with (Z.shiftl (- Z.pos p) 1)
        by (rewrite Z.shiftl_mul_pow2; lia).
      rewrite <- Z.shiftl_land, Hland, Z.shiftl_mul_pow2 by lia.
      rewrite Z.pow_succ_r by lia. lia.
    + change (Z.pos p~0) with (2 * Z.pos p).
      rewrite Z.testbit_even_succ by lia. exact Hbit.
    + intros j Hj. change (Z.pos p~0) with (2 * Z.pos p).
      destruct (Z.eq_dec j 0) as [->|Hne]; [apply Z.testbit_even_0|].
      replace j with (Z.succ (j - 1)) by lia.
      rewrite Z.testbit_even_succ by lia. apply Hlow. lia.
  - exists 0. repeat split; intros; lia.
Qed.

Lemma get_lowest_bit_spec x :
  0 < x < 2 ^ KEY_BITS ->
  exists i,
    0 <= i < KEY_BITS /\ get_lowest_bit x = 2 ^ i
    /\ Z.testbit x i = true
    /\ forall j, 0 <= j < i -> Z.testbit x j = false.
Proof.
  unfold KEY_BITS. intros Hx. destruct x as [|p|p]; try lia.
  destruct (lowest_bit_of_positive p) as (i & Hi & Hland & Hbit & Hlow).
  exists i. split; [|split; [|auto]].
  - split; [exact Hi|]. destruct (Z.lt_ge_cases i 32) as [|Hge]; [auto|].
    rewrite (testbit_small (Z.pos p) 32 i) in Hbit by lia. discriminate.
  - unfold get_lowest_bit, wrap, KEY_BITS.
    rewrite Zplus_mod_idemp_l.
    rewrite <- (Z.land_ones (Z.lnot (Z.pos p) + 1) 32) by lia.
    rewrite Z.succ_lnot.
    rewrite (Z.land_comm (- Z.pos p)), Z.land_assoc, Z.land_ones by lia.
    rewrite Z.mod_small by lia. exact Hland.
Qed.

Lemma testbit_mod_pow2 k i j :
  0 <= j < i -> Z.testbit (k mod 2 ^ i) j = Z.testbit k j.
Proof. intros Hj. apply Z.mod_pow2_bits_low. lia. Qed.

(** Two numbers with the same bits below [i] are equal modulo [2^i]. *)
Lemma mod_pow2_eq a b i :
  0 <= i ->
  (forall j, 0 <= j < i -> Z.testbit a j = Z.testbit b j) ->
  a mod 2 ^ i = b mod 2 ^ i.
Proof.
  intros Hi Hbits. apply Z.bits_inj'. intros n Hn.
  destruct (Z.lt_ge_cases n i).
  - rewrite !Z.mod_pow2_bits_low by lia. apply Hbits. lia.
  - rewrite !Z.mod_pow2_bits_high by lia. reflexivity.
Qed.

(** The branching bit of two different keys: the lowest bit at which
    they differ. *)
Lemma get_branching_bit_spec a b :
  0 <= a < 2 ^ KEY_BITS -> 0 <= b < 2 ^ KEY_BITS -> a <> b ->
  exists i,
    0 <= i < KEY_BITS /\ get_branching_bit a b = 2 ^ i
    /\ Z.testbit a i = negb (Z.testbit b i)
    /\ a mod 2 ^ i = b mod 2 ^ i.
Proof.
  intros Ha Hb Hne. unfold get_branching_bit.
  assert (Hx : 0 < Z.lxor a b < 2 ^ KEY_BITS).
  { unfold KEY_BITS in *. split.
    - assert (0 <= Z.lxor a b) by (apply Z.lxor_nonneg; lia).
      assert (Z.lxor a b <> 0) by (intros H0; apply Z.lxor_eq in H0; lia).
      lia.
    - destruct (Z.eq_dec (Z.lxor a b) 0) as [->|Hnz]; [lia|].
      apply Z.log2_lt_cancel. rewrite Z.log2_pow2 by lia.
      assert (0 <= Z.lxor a b) by (apply Z.lxor_nonneg; lia).
      destruct (Z.lt_ge_cases (Z.log2 (Z.lxor a b)) 32) as [|Hge]; [lia|].
      assert (Hbit : Z.testbit (Z.lxor a b) (Z.log2 (Z.lxor a b)) = true)
        by (apply Z.bit_log2; lia).
      rewrite Z.lxor_spec in Hbit.
      rewrite (testbit_small a 32), (testbit_small b 32) in Hbit by lia.
      discriminate. }
  destruct (get_lowest_bit_spec _ Hx) as (i & Hi & Hlow & Hbit & Hbelow).
  exists i. split; [exact Hi|]. split; [exact Hlow|]. split.
  - rewrite Z.lxor_spec in Hbit.
    destruct (Z.testbit a i), (Z.testbit b i); cbn in *; congruence.
  - apply mod_pow2_eq; [lia|]. intros j Hj.
    specialize (Hbelow j Hj). rewrite Z.lxor_spec in Hbelow.
    destruct (Z.testbit a j), (Z.testbit b j); cbn in *; congruence.
Qed.

End PatriciaBits.

Section PatriciaUpdate.
Import pt_util ptmap_impl ptmap_shape.
Context {Value : Type} `{Domain.AbstractDomain Value} `{!Lawful Value}.

Local Abbreviation tree := (PatriciaTree Value).
Local Abbreviation at_ := PatriciaTreeMap.at_.

Lemma wf_mono n n' (t : tree) : wf n t -> (n <= n')%N -> wf n' t.
Proof.
  intros Hwf Hle. destruct Hwf.
  - constructor.
  - constructor; auto; lia.
  - econstructor; eauto; lia.
Qed.

Lemma wf_root n (t : tree) a : wf n t -> get t = Some a -> (a < n)%N.
Proof. intros Hwf. destruct Hwf; cbn; congruence. Qed.

Lemma get_None (t : tree) : get t = None <-> t = nullptr.
Proof. destruct t; cbn; split; congruence. Qed.

Lemma ptr_eq_spec (s t : tree) : ptr_eq s t = true <-> get s = get t.
Proof. unfold ptr_eq. apply bool_decide_eq_true. Qed.

Lemma ptr_eq_nullptr (t : tree) : ptr_eq t nullptr = true <-> t = nullptr.
Proof. rewrite ptr_eq_spec. apply get_None. Qed.

Lemma keys_branch a p m (l r : tree) :
  keys (PatriciaTreeBranch a p m l r) = keys l ++ keys r.
Proof. unfold keys. cbn [bindings]. apply fmap_app. Qed.

Lemma find_value_keys k (t : tree) r :
  find_value k t = Some r -> k ∈ keys t.
Proof.
  induction t as [|a k' v|a p m l IHl r' IHr]; cbn [find_value].
  - discriminate.
  - destruct (Z.eqb_spec k k') as [->|]; [|discriminate].
    intros _. unfold keys. cbn. left.
  - rewrite keys_branch, elem_of_app.
    destruct (is_zero_bit k m); auto.
Qed.

Lemma at_not_key k (t : tree) : k ∉ keys t -> at_ t k = Domain.top.
Proof.
  intros Hk. unfold PatriciaTreeMap.at_.
  destruct (find_value k t) as [[a v]|] eqn:Hfind; [|reflexivity].
  exfalso. exact (Hk (find_value_keys _ _ _ Hfind)).
Qed.

Lemma at_branch a p m (l r : tree) k :
  at_ (PatriciaTreeBranch a p m l r) k
  = if is_zero_bit k m then at_ l k else at_ r k.
Proof.
  unfold PatriciaTreeMap.at_. cbn [find_value]. now destruct (is_zero_bit k m).
Qed.

Lemma at_leaf a k' v k :
  at_ (PatriciaTreeLeaf a k' v : tree) k
  = if k =? k' then v else Domain.top.
Proof.
  unfold PatriciaTreeMap.at_. cbn [find_value]. now destruct (k =? k').
Qed.

Lemma not_top_neq (c : Value) :
  Domain.is_top c = false <-> c <> Domain.top.
Proof.
  rewrite <- is_top_eq. destruct (Domain.is_top c); split; congruence.
Qed.

(** [combine_new_leaf]: nothing when the combined value is Top, and a
    fresh leaf with the combined value otherwise. *)
Lemma combine_new_leaf_spec combine key value n :
  let c := combine Domain.top value in
  (c = Domain.top /\ combine_new_leaf combine key value n = (nullptr, N.succ n))
  \/ (Domain.is_top c = false
      /\ combine_new_leaf combine key value n
         = (PatriciaTreeLeaf (N.succ n) key c, N.succ (N.succ n))).
Proof.
  cbv zeta. unfold combine_new_leaf, combine_leaf.
  destruct (Domain.is_top (combine Domain.top value)) eqn:Htop.
  - left. split; [now apply is_top_eq | reflexivity].
  - right. split; [reflexivity|].
    destruct (Domain.equals (combine Domain.top value) Domain.top) eqn:Heq.
    + apply equals_eq, is_top_eq in Heq. congruence.
    + reflexivity.
Qed.

(** [combine_leaf] on a leaf of the tree. *)
Lemma combine_leaf_spec combine value a k v n :
  let c := combine v value in
  (c = Domain.top /\ combine_leaf combine value a k v n = (nullptr, n))
  \/ (Domain.is_top c = false /\ c <> v
      /\ combine_leaf combine value a k v n
         = (PatriciaTreeLeaf n k c, N.succ n))
  \/ (Domain.is_top c = false /\ c = v
      /\ combine_leaf combine value a k v n = (PatriciaTreeLeaf a k v, n)).
Proof.
  cbv zeta. unfold combine_leaf.
  destruct (Domain.is_top (combine v value)) eqn:Htop.
  - left. split; [now apply is_top_eq | reflexivity].
  - right. destruct (Domain.equals (combine v value) v) eqn:Heq.
    + right. apply equals_eq in Heq. auto.
    + left. split; [reflexivity|]. split; [|reflexivity].
      intros Hc. apply equals_eq in Hc. congruence.
Qed.

(** [join] of a fresh leaf for [key] with a tree whose keys all agree
    with [q] up to the bit at which [key] and [q] first differ. *)
Lemma join_spec key a c q (t : tree) n i :
  0 <= key < 2 ^ KEY_BITS -> (a < n)%N -> Domain.is_top c = false ->
  wf n t -> t <> nullptr ->
  0 <= i < KEY_BITS -> get_branching_bit key q = 2 ^ i ->
  Z.testbit key i = negb (Z.testbit q i) ->
  key mod 2 ^ i = q mod 2 ^ i ->
  (forall k, k ∈ keys t ->
     k mod 2 ^ i = q mod 2 ^ i /\ Z.testbit k i = Z.testbit q i) ->
  exists r,
    join key (PatriciaTreeLeaf a key c) q t n = (r, N.succ n)
    /\ wf (N.succ n) r
    /\ get r = Some n
    /\ (forall k, k ∈ keys r -> k = key \/ k ∈ keys t)
    /\ (forall k, at_ r k = if k =? key then c else at_ t k).
Proof.
  intros Hkey Ha Hc Hwf Hnn Hi Hbit Hdiff Hsame Hkeys.
  assert (Hpos : 0 < 2 ^ i) by (apply Z.pow_pos_nonneg; lia).
  assert (Hleaf : wf n (PatriciaTreeLeaf a key c : tree))
    by (constructor; auto).
  assert (Hprefix : 0 <= key mod 2 ^ i < 2 ^ i)
    by (apply Z.mod_pos_bound; lia).
  assert (Hat_other : forall k, k <> key ->
            Z.testbit k i = Z.testbit key i -> at_ t k = Domain.top).
  { intros k _ Hk. apply at_not_key. intros Hin.
    destruct (Hkeys k Hin) as [_ Hq]. rewrite Hq, Hdiff in Hk.
    now destruct (Z.testbit q i). }
  unfold join, make_shared_branch. rewrite Hbit.
  rewrite is_zero_bit_pow2, mask_pow2 by lia.
  destruct (Z.testbit key i) eqn:Hki; cbn [negb];
    eexists; (split; [reflexivity|]); (split; [|split; [reflexivity|split]]).
  - eapply (wf_branch _ _ _ _ i); eauto; try lia; try discriminate.
    + intros k Hk. destruct (Hkeys k Hk) as [Hm Hb]. split; [lia|].
      rewrite Hb. now destruct (Z.testbit q i).
    + intros k Hk. unfold keys in Hk. cbn in Hk.
      apply list_elem_of_singleton in Hk as ->. auto.
  - intros k. rewrite keys_branch, elem_of_app. intros [Hk|Hk]; [auto|].
    unfold keys in Hk. cbn in Hk. apply list_elem_of_singleton in Hk. auto.
  - intros k. rewrite at_branch, is_zero_bit_pow2, at_leaf by lia.
    destruct (Z.eqb_spec k key) as [->|Hne].
    + now rewrite Hki.
    + destruct (Z.testbit k i) eqn:Hk; cbn [negb]; [|reflexivity].
      symmetry. apply Hat_other; congruence.
  - eapply (wf_branch _ _ _ _ i); eauto; try lia; try discriminate.
    + intros k Hk. unfold keys in Hk. cbn in Hk.
      apply list_elem_of_singleton in Hk as ->. auto.
    + intros k Hk. destruct (Hkeys k Hk) as [Hm Hb]. split; [lia|].
      rewrite Hb. now destruct (Z.testbit q i).
  - intros k. rewrite keys_branch, elem_of_app. intros [Hk|Hk]; [|auto].
    unfold keys in Hk. cbn in Hk. apply list_elem_of_singleton in Hk. auto.
  - intros k. rewrite at_branch, is_zero_bit_pow2, at_leaf by lia.
    destruct (Z.eqb_spec k key) as [->|Hne].
    + now rewrite Hki.
    + destruct (Z.testbit k i) eqn:Hk; cbn [negb]; [reflexivity|].
      symmetry. apply Hat_other; congruence.
Qed.

Lemma keys_leaf a k v x : x ∈ keys (PatriciaTreeLeaf a k v : tree) -> x = k.
Proof. unfold keys. cbn. apply list_elem_of_singleton. Qed.

Lemma keys_nullptr x : x ∉ keys (nullptr : tree).
Proof. unfold keys. cbn. apply not_elem_of_nil. Qed.

(** The keys of a well-formed branch have its prefix. *)
Lemma wf_branch_keys n a p m (l r : tree) :
  wf n (PatriciaTreeBranch a p m l r) ->
  exists i, m = 2 ^ i /\ 0 <= i < KEY_BITS /\ 0 <= p < 2 ^ i
            /\ forall k, k ∈ keys (PatriciaTreeBranch a p m l r) ->
                          k mod 2 ^ i = p.
Proof.
  intros Hwf. inversion Hwf as [| |? ? ? ? i ? ? ? ? ? ? ? ? ? ? Hl Hr]; subst.
  exists i. repeat split; try assumption; try lia.
  intros k. rewrite keys_branch, elem_of_app.
  intros [Hk|Hk]; [apply Hl | apply Hr]; exact Hk.
Qed.

Lemma wf_child_root (t : tree) a :
  wf a t -> t <> nullptr -> get t <> Some a.
Proof.
  intros Hwf Hnn Hget. pose proof (wf_root _ _ _ Hwf Hget). lia.
Qed.

(** What [update] does to a well-formed tree. *)
Lemma update_spec combine key value :
  0 <= key < 2 ^ KEY_BITS ->
  forall (t : tree) n, wf n t ->
  exists r n',
    update combine key value t n = (r, n')
    /\ (n <= n')%N /\ wf n' r
    /\ (forall k, k ∈ keys r -> k = key \/ k ∈ keys t)
    /\ (forall k, at_ r k
                  = if k =? key then combine (at_ t key) value else at_ t k)
    /\ (get r = get t -> r = t)
    /\ (combine (at_ t key) value = at_ t key -> r = t).
Proof.
  intros Hkey.
  induction t as [|a k v|a p m l IHl r IHr]; intros n Hwf.
  - cbn [update].
    destruct (combine_new_leaf_spec combine key value n)
      as [[Hc Hrun]|[Hc Hrun]]; rewrite Hrun; do 2 eexists;
      (split; [reflexivity|]); (split; [lia|]).
    + split; [constructor|]. split; [auto|]. split; [|auto].
      intros k. rewrite at_not_key by apply keys_nullptr.
      rewrite (at_not_key key) by apply keys_nullptr. rewrite Hc.
      now destruct (k =? key).
    + split; [constructor; auto; lia|]. split.
      { intros k Hk. left. exact (keys_leaf _ _ _ _ Hk). }
      split.
      { intros k. rewrite at_leaf, (at_not_key key) by apply keys_nullptr.
        rewrite (at_not_key k) by apply keys_nullptr. reflexivity. }
      split; [discriminate|].
      rewrite (at_not_key key) by apply keys_nullptr.
      intros Hsame. apply not_top_neq in Hc. contradiction.
  - inversion Hwf as [|? ? ? ? Ha Hk Hv|]; subst. cbn [update].
    destruct (Z.eqb_spec key k) as [->|Hne].
    + assert (Hatk : at_ (PatriciaTreeLeaf a k v : tree) k = v)
        by (rewrite at_leaf, Z.eqb_refl; reflexivity).
      rewrite Hatk.
      destruct (combine_leaf_spec combine value a k v n)
        as [[Hc Hrun]|[(Hc & Hcv & Hrun)|(Hc & Hcv & Hrun)]];
        rewrite Hrun; do 2 eexists;
        (split; [reflexivity|]); (split; [lia|]).
      * split; [constructor|]. split.
        { intros x Hx. destruct (keys_nullptr _ Hx). }
        split.
        { intros x. rewrite (at_not_key x nullptr) by apply keys_nullptr.
          rewrite at_leaf, Hc. now destruct (x =? k). }
        split; [discriminate|].
        intros Hsame. apply not_top_neq in Hv. congruence.
      * split; [constructor; auto; lia|]. split.
        { intros x Hx. left. exact (keys_leaf _ _ _ _ Hx). }
        split.
        { intros x. rewrite !at_leaf. now destruct (x =? k). }
        split; [|contradiction].
        cbn. intros [= ->]. lia.
      * split; [exact Hwf|]. split; [auto|]. split; [|auto].
        intros x. rewrite at_leaf, Hcv. now destruct (x =? k).
    + assert (Hatk : at_ (PatriciaTreeLeaf a k v : tree) key = Domain.top)
        by (rewrite at_leaf; destruct (Z.eqb_spec key k); congruence).
      rewrite Hatk. unfold bind.
      destruct (combine_new_leaf_spec combine key value n)
        as [[Hc Hrun]|[Hc Hrun]]; rewrite Hrun.
      * replace (ptr_eq (nullptr : tree) nullptr) with true by reflexivity.
        do 2 eexists. split; [reflexivity|]. split; [lia|].
        split; [apply (wf_mono n); [exact Hwf|lia]|].
        split; [auto|]. split; [|auto].
        intros x. rewrite Hc.
        destruct (Z.eqb_spec x key) as [->|]; [exact Hatk|reflexivity].
      * replace (ptr_eq (PatriciaTreeLeaf (N.succ n) key
                           (combine Domain.top value) : tree) nullptr)
          with false by reflexivity.
        destruct (get_branching_bit_spec key k)
          as (i & Hi & Hbit & Hdiff & Hsame);
          [exact Hkey | exact Hk | exact Hne |].
        destruct (join_spec key (N.succ n) (combine Domain.top value) k
                    (PatriciaTreeLeaf a k v) (N.succ (N.succ n)) i)
          as (r & Hrun' & Hwf' & Hget & Hkeys & Hat); auto; try lia;
          try discriminate.
        { apply (wf_mono n); [exact Hwf|lia]. }
        { intros x Hx. apply keys_leaf in Hx as ->. auto. }
        rewrite Hrun'. do 2 eexists. split; [reflexivity|]. split; [lia|].
        split; [exact Hwf'|]. split; [exact Hkeys|]. split; [exact Hat|].
        split.
        { rewrite Hget. cbn. intros [= <-]. lia. }
        { intros Hc'. apply not_top_neq in Hc. contradiction. }
  - destruct (wf_branch_keys _ _ _ _ _ _ Hwf)
      as (i & -> & Hi & Hp & Hprefix).
    inversion Hwf as [| |? ? ? ? i' ? ? Ha Hm Hi' Hp' Hl Hr Hwl Hwr Hkl Hkr];
      subst.
    assert (i' = i) as -> by (apply (Z.pow_inj_r 2); lia). clear Hm.
    cbn [update]. rewrite match_prefix_pow2 by exact Hi.
    destruct (Z.eqb_spec (key mod 2 ^ i) p) as [Hmatch|Hmatch].
    + rewrite is_zero_bit_pow2 by lia.
      destruct (Z.testbit key i) eqn:Hki; cbn [negb].
      * (* the key goes right *)
        destruct (IHr n) as (r' & n' & Hrun & Hle & Hwf' & Hkeys & Hat
                             & Hget & Hshare);
          [apply (wf_mono a); [exact Hwr|lia]|].
        unfold bind. rewrite Hrun.
        assert (Hatr : forall x, Z.testbit x i = true ->
                  at_ (PatriciaTreeBranch a p (2 ^ i) l r) x = at_ r x).
        { intros x Hx. rewrite at_branch, is_zero_bit_pow2, Hx by lia.
          reflexivity. }
        assert (Hatl : forall x, Z.testbit x i = false ->
                  at_ (PatriciaTreeBranch a p (2 ^ i) l r) x = at_ l x).
        { intros x Hx. rewrite at_branch, is_zero_bit_pow2, Hx by lia.
          reflexivity. }
        rewrite (Hatr key Hki).
        destruct (ptr_eq r' r) eqn:Hptr.
        -- apply ptr_eq_spec, Hget in Hptr. subst r'.
           do 2 eexists. split; [reflexivity|]. split; [exact Hle|].
           split; [apply (wf_mono n); [exact Hwf|exact Hle]|].
           split; [auto|]. split; [|auto].
           intros x. destruct (Z.eqb_spec x key) as [->|Hx]; [|reflexivity].
           rewrite (Hatr key Hki). specialize (Hat key).
           rewrite Z.eqb_refl in Hat. exact Hat.
        -- unfold make_branch.
           replace (ptr_eq l nullptr) with false
             by (symmetry; apply not_true_iff_false;
                 rewrite ptr_eq_nullptr; exact Hl).
           destruct (ptr_eq r' nullptr) eqn:Hnull.
           ++ apply ptr_eq_nullptr in Hnull. subst r'.
              do 2 eexists. split; [reflexivity|]. split; [exact Hle|].
              split; [apply (wf_mono a); [exact Hwl|lia]|].
              split.
              { intros x Hx. right. rewrite keys_branch, elem_of_app. auto. }
              split.
              { intros x. specialize (Hat x).
                rewrite (at_not_key x nullptr) in Hat by apply keys_nullptr.
                destruct (Z.testbit x i) eqn:Hx.
                - rewrite (Hatr x Hx), <- Hat. apply at_not_key.
                  intros Hin. destruct (Hkl x Hin). congruence.
                - rewrite (Hatl x Hx).
                  destruct (Z.eqb_spec x key) as [Hxk|]; [|reflexivity].
                  rewrite Hxk in Hx. congruence. }
              split.
              { intros Hroot. exfalso.
                exact (wf_child_root l a Hwl Hl Hroot). }
              { intros Hsame. apply Hshare in Hsame. congruence. }
           ++ assert (Hnn : r' <> nullptr).
              { intros Hn. apply ptr_eq_nullptr in Hn. congruence. }
              unfold make_shared_branch.
              do 2 eexists. split; [reflexivity|]. split; [lia|].
              split.
              { eapply (wf_branch _ _ _ _ i); eauto; try lia.
                - apply (wf_mono a); [exact Hwl|lia].
                - intros x Hx. destruct (Hkeys x Hx) as [->|Hin]; auto. }
              split.
              { intros x. rewrite !keys_branch, !elem_of_app.
                intros [Hx|Hx]; [auto|].
                destruct (Hkeys x Hx); auto. }
              split.
              { intros x. rewrite at_branch, is_zero_bit_pow2 by lia.
                destruct (Z.testbit x i) eqn:Hx; cbn [negb].
                - rewrite (Hatr x Hx). apply Hat.
                - rewrite (Hatl x Hx).
                  destruct (Z.eqb_spec x key) as [Hxk|]; [|reflexivity].
                  rewrite Hxk in Hx. congruence. }
              split.
              { cbn. intros [= <-]. lia. }
              { intros Hsame. apply Hshare in Hsame. subst r'.
                unfold ptr_eq in Hptr.
                rewrite bool_decide_eq_false in Hptr. contradiction. }
      * (* the key goes left *)
        destruct (IHl n) as (l' & n' & Hrun & Hle & Hwf' & Hkeys & Hat
                             & Hget & Hshare);
          [apply (wf_mono a); [exact Hwl|lia]|].
        unfold bind. rewrite Hrun.
        assert (Hatr : forall x, Z.testbit x i = true ->
                  at_ (PatriciaTreeBranch a p (2 ^ i) l r) x = at_ r x).
        { intros x Hx. rewrite at_branch, is_zero_bit_pow2, Hx by lia.
          reflexivity. }
        assert (Hatl : forall x, Z.testbit x i = false ->
                  at_ (PatriciaTreeBranch a p (2 ^ i) l r) x = at_ l x).
        { intros x Hx. rewrite at_branch, is_zero_bit_pow2, Hx by lia.
          reflexivity. }
        rewrite (Hatl key Hki).
        destruct (ptr_eq l' l) eqn:Hptr.
        -- apply ptr_eq_spec, Hget in Hptr. subst l'.
           do 2 eexists. split; [reflexivity|]. split; [exact Hle|].
           split; [apply (wf_mono n); [exact Hwf|exact Hle]|].
           split; [auto|]. split; [|auto].
           intros x. destruct (Z.eqb_spec x key) as [->|Hx]; [|reflexivity].
           rewrite (Hatl key Hki). specialize (Hat key).
           rewrite Z.eqb_refl in Hat. exact Hat.
        -- unfold make_branch.
           destruct (ptr_eq l' nullptr) eqn:Hnull.
           ++ apply ptr_eq_nullptr in Hnull. subst l'.
              do 2 eexists. split; [reflexivity|]. split; [exact Hle|].
              split; [apply (wf_mono a); [exact Hwr|lia]|].
              split.
              { intros x Hx. right. rewrite keys_branch, elem_of_app. auto. }
              split.
              { intros x. specialize (Hat x).
                rewrite (at_not_key x nullptr) in Hat by apply keys_nullptr.
                destruct (Z.testbit x i) eqn:Hx.
                - rewrite (Hatr x Hx).
                  destruct (Z.eqb_spec x key) as [Hxk|]; [|reflexivity].
                  rewrite Hxk in Hx. congruence.
                - rewrite (Hatl x Hx), <- Hat. apply at_not_key.
                  intros Hin. destruct (Hkr x Hin). congruence. }
              split.
              { intros Hroot. exfalso.
                exact (wf_child_root r a Hwr Hr Hroot). }
              { intros Hsame. apply Hshare in Hsame. congruence. }
           ++ assert (Hnn : l' <> nullptr).
              { intros Hn. apply ptr_eq_nullptr in Hn. congruence. }
              replace (ptr_eq r nullptr) with false
                by (symmetry; apply not_true_iff_false;
                    rewrite ptr_eq_nullptr; exact Hr).
              unfold make_shared_branch.
              do 2 eexists. split; [reflexivity|]. split; [lia|].
              split.
              { eapply (wf_branch _ _ _ _ i); eauto; try lia.
                - apply (wf_mono a); [exact Hwr|lia].
                - intros x Hx. destruct (Hkeys x Hx) as [->|Hin]; auto. }
              split.
              { intros x. rewrite !keys_branch, !elem_of_app.
                intros [Hx|Hx]; [|auto].
                destruct (Hkeys x Hx); auto. }
              split.
              { intros x. rewrite at_branch, is_zero_bit_pow2 by lia.
                destruct (Z.testbit x i) eqn:Hx; cbn [negb].
                - rewrite (Hatr x Hx).
                  destruct (Z.eqb_spec x key) as [Hxk|]; [|reflexivity].
                  rewrite Hxk in Hx. congruence.
                - rewrite (Hatl x Hx). apply Hat. }
              split.
              { cbn. intros [= <-]. lia. }
              { intros Hsame. apply Hshare in Hsame. subst l'.
                unfold ptr_eq in Hptr.
                rewrite bool_decide_eq_false in Hptr. contradiction. }
    + (* the key does not have the prefix *)
      assert (Hatk : at_ (PatriciaTreeBranch a p (2 ^ i) l r) key
                     = Domain.top).
      { apply at_not_key. intros Hin. apply Hmatch, Hprefix, Hin. }
      rewrite Hatk. unfold bind.
      destruct (combine_new_leaf_spec combine key value n)
        as [[Hc Hrun]|[Hc Hrun]]; rewrite Hrun.
      * replace (ptr_eq (nullptr : tree) nullptr) with true by reflexivity.
        do 2 eexists. split; [reflexivity|]. split; [lia|].
        split; [apply (wf_mono n); [exact Hwf|lia]|].
        split; [auto|]. split; [|auto].
        intros x. rewrite Hc.
        destruct (Z.eqb_spec x key) as [->|]; [exact Hatk|reflexivity].
      * replace (ptr_eq (PatriciaTreeLeaf (N.succ n) key
                           (combine Domain.top value) : tree) nullptr)
          with false by reflexivity.
        assert (Hp32 : 0 <= p < 2 ^ KEY_BITS).
        { unfold KEY_BITS in *.
          assert (2 ^ i <= 2 ^ 31) by (apply Z.pow_le_mono_r; lia). lia. }
        assert (Hkp : key <> p).
        { intros ->. apply Hmatch. apply Z.mod_small. exact Hp. }
        destruct (get_branching_bit_spec key p Hkey Hp32 Hkp)
          as (j & Hj & Hbit & Hdiff & Hsame).
        assert (Hji : j < i).
        { destruct (Z.lt_ge_cases j i) as [|Hge]; [assumption|].
          exfalso. apply Hmatch.
          rewrite <- (Z.mod_small p (2 ^ i)) by exact Hp.
          apply mod_pow2_eq; [lia|]. intros b Hb.
          rewrite <- (testbit_mod_pow2 key j b),
            <- (testbit_mod_pow2 p j b) by lia.
          now rewrite Hsame. }
        destruct (join_spec key (N.succ n) (combine Domain.top value) p
                    (PatriciaTreeBranch a p (2 ^ i) l r)
                    (N.succ (N.succ n)) j)
          as (t' & Hrun' & Hwf' & Hget & Hkeys & Hat); auto; try lia;
          try discriminate.
        { apply (wf_mono n); [exact Hwf|lia]. }
        { intros x Hx. specialize (Hprefix x Hx). split.
          - apply mod_pow2_eq; [lia|]. intros b Hb.
            rewrite <- Hprefix. symmetry. apply testbit_mod_pow2. lia.
          - rewrite <- Hprefix. symmetry. apply testbit_mod_pow2. lia. }
        rewrite Hrun'. do 2 eexists. split; [reflexivity|]. split; [lia|].
        split; [exact Hwf'|]. split; [exact Hkeys|]. split; [exact Hat|].
        split.
        { rewrite Hget. cbn. intros [= <-]. lia. }
        { intros Hc'. apply not_top_neq in Hc. contradiction. }
Qed.

(** X15. Lookup after update: on a well-formed tree, [update] binds [key]
    to [combine(bound_value, value)], where an unbound key counts as bound
    to Top, and leaves every other key as it was. In particular
    [insert_or_assign(key, value)] makes [at(key)] return [value], and
    [update(operation, key)] makes it return the operation applied to the
    value bound before. *)
Theorem at_after_update combine operation key value (t : tree) n k :
  wf n t -> 0 <= key < 2 ^ KEY_BITS ->
  at_ (fst (ptmap_impl.update combine key value t n)) k
  = (if k =? key then combine (at_ t key) value else at_ t k)
  /\ at_ (fst (PatriciaTreeMap.insert_or_assign key value t n)) k
     = (if k =? key then value else at_ t k)
  /\ at_ (fst (PatriciaTreeMap.update operation key t n)) k
     = (if k =? key then operation (at_ t key) else at_ t k).
Proof.
  intros Hwf Hkey. split; [|split].
  - destruct (update_spec combine key value Hkey t n Hwf)
      as (r & n' & -> & _ & _ & _ & Hat & _). apply Hat.
  - unfold PatriciaTreeMap.insert_or_assign.
    destruct (update_spec snd_ key value Hkey t n Hwf)
      as (r & n' & -> & _ & _ & _ & Hat & _). apply Hat.
  - unfold PatriciaTreeMap.update.
    destruct (update_spec (fun x _ => operation x) key Domain.top Hkey t n
                Hwf) as (r & n' & -> & _ & _ & _ & Hat & _). apply Hat.
Qed.

(** X16. [update] keeps the trees well formed: on a well-formed tree it
    returns a well-formed tree, whose nodes are those of the tree and
    nodes allocated meanwhile; no leaf holds Top, no branch has an empty
    side, and the keys of each side have the prefix and the branching bit
    of their branch. The keys of the result are among the key updated and
    the keys of the tree. *)
Theorem update_keeps_the_tree_well_formed combine key value (t : tree) n :
  wf n t -> 0 <= key < 2 ^ KEY_BITS ->
  (n <= snd (ptmap_impl.update combine key value t n))%N
  /\ wf (snd (ptmap_impl.update combine key value t n))
        (fst (ptmap_impl.update combine key value t n))
  /\ forall k, k ∈ keys (fst (ptmap_impl.update combine key value t n)) ->
                k = key \/ k ∈ keys t.
Proof.
  intros Hwf Hkey.
  destruct (update_spec combine key value Hkey t n Hwf)
    as (r & n' & -> & Hle & Hwf' & Hkeys & _). auto.
Qed.

(** X17. An update that changes nothing returns the tree itself: on a
    well-formed tree, [update] returns the very same pointer exactly when
    the combined value equals the value bound before. *)
Theorem update_returns_the_same_tree_iff_nothing_changes
    combine key value (t : tree) n :
  wf n t -> 0 <= key < 2 ^ KEY_BITS ->
  fst (ptmap_impl.update combine key value t n) = t
  <-> combine (at_ t key) value = at_ t key.
Proof.
  intros Hwf Hkey.
  destruct (update_spec combine key value Hkey t n Hwf)
    as (r & n' & -> & _ & _ & _ & Hat & _ & Hshare). cbn [fst]. split.
  - intros ->. specialize (Hat key). rewrite Z.eqb_refl in Hat. congruence.
  - exact Hshare.
Qed.

End PatriciaUpdate.

Section HashedSetFacts.
Import pt_util ptmap_impl ptmap_shape HashedSet Scenario.

#[local] Instance HashedSet_lawful : Lawful HashedSetAbstractDomain.
Proof.
  split.
  - intros [|a|] [|b|]; cbn; split; try congruence; try discriminate.
    + intros Heq. apply bool_decide_eq_true in Heq. congruence.
    + intros [= ->]. now apply bool_decide_eq_true.
  - intros [|a|]; cbn; split; congruence.
Qed.

(** The maps built by successive [insert_or_assign]s are well formed. *)
Lemma of_list_wf l :
  Forall (fun kv => 0 <= fst kv < 2 ^ KEY_BITS) l ->
  forall n, wf (snd (of_list l n)) (fst (of_list l n)).
Proof.
  unfold of_list. intros Hl n.
  set (acc := ret PatriciaTreeMap.empty).
  assert (Hstart : wf (snd (acc n)) (fst (acc n))) by exact (wf_nullptr n).
  clearbody acc. revert acc Hstart.
  induction l as [|kv l IH]; intros acc Hacc; cbn [fold_left].
  - exact Hacc.
  - apply Forall_cons in Hl as [Hkv Hl]. apply (IH Hl).
    unfold bind. destruct (acc n) as [m n1]. cbn [fst snd] in Hacc.
    unfold PatriciaTreeMap.insert_or_assign.
    destruct (update_spec snd_ (fst kv) (snd kv) Hkv m n1 Hacc)
      as (r & n' & -> & _ & Hwf & _). exact Hwf.
Qed.

End HashedSetFacts.

Section PatriciaWitnesses.
Import HashedSet.
Local Open Scope string_scope.

Lemma m1_bindings_in_range :
  Forall (fun kv : Z * HashedSet.HashedSetAbstractDomain =>
            0 <= fst kv < 2 ^ pt_util.KEY_BITS) Scenario.m1_bindings.
Proof. apply (bool_decide_unpack _). vm_compute. exact I. Defined.

Lemma at_after_update_witness :
  let m1 := fst (Scenario.of_list Scenario.m1_bindings 0%N) in
  let n := snd (Scenario.of_list Scenario.m1_bindings 0%N) in
  PatriciaTreeMap.at_
    (fst (PatriciaTreeMap.insert_or_assign 5 (HashedSet.Value {["x"]}) m1 n))
    5 = HashedSet.Value {["x"]}
  /\ PatriciaTreeMap.at_
       (fst (PatriciaTreeMap.insert_or_assign 5 (HashedSet.Value {["x"]})
               m1 n)) 1 = PatriciaTreeMap.at_ m1 1.
Proof.
  cbv zeta. split.
  - exact (proj1 (proj2 (at_after_update (Lawful0 := HashedSet_lawful)
                           HashedSet.join (fun x => x) 5
                           (HashedSet.Value {["x"]}) _ _ 5
                           (of_list_wf _ m1_bindings_in_range 0%N)
                           ltac:(unfold pt_util.KEY_BITS; lia)))).
  - exact (proj1 (proj2 (at_after_update (Lawful0 := HashedSet_lawful)
                           HashedSet.join (fun x => x) 5
                           (HashedSet.Value {["x"]}) _ _ 1
                           (of_list_wf _ m1_bindings_in_range 0%N)
                           ltac:(unfold pt_util.KEY_BITS; lia)))).
Defined.

Lemma update_keeps_the_tree_well_formed_witness :
  let m1 := fst (Scenario.of_list Scenario.m1_bindings 0%N) in
  let n := snd (Scenario.of_list Scenario.m1_bindings 0%N) in
  ptmap_shape.wf
    (snd (ptmap_impl.update HashedSet.join 9 (HashedSet.Value {["x"]}) m1 n))
    (fst (ptmap_impl.update HashedSet.join 9 (HashedSet.Value {["x"]}) m1 n)).
Proof.
  cbv zeta.
  exact (proj1 (proj2 (update_keeps_the_tree_well_formed
                         (Lawful0 := HashedSet_lawful)
                         HashedSet.join 9 (HashedSet.Value {["x"]}) _ _
                         (of_list_wf _ m1_bindings_in_range 0%N)
                         ltac:(unfold pt_util.KEY_BITS; lia)))).
Defined.

Lemma update_returns_the_same_tree_iff_nothing_changes_witness :
  let m1 := fst (Scenario.of_list Scenario.m1_bindings 0%N) in
  let n := snd (Scenario.of_list Scenario.m1_bindings 0%N) in
  fst (ptmap_impl.update HashedSet.join 3 (HashedSet.Value {["d"]}) m1 n)
  = m1.
Proof.
  cbv zeta.
  apply (update_returns_the_same_tree_iff_nothing_changes
           (Lawful0 := HashedSet_lawful)
           HashedSet.join 3 (HashedSet.Value {["d"]}) _ _
           (of_list_wf _ m1_bindings_in_range 0%N)
           ltac:(unfold pt_util.KEY_BITS; lia)).
  vm_compute. reflexivity.
Defined.

End PatriciaWitnesses.

(** ** The offsets of a build *)

Section BuildOffsets.
Import oatmeal oatmeal_build util_h dump_oat build_sizes.

Lemma nth_is_byte l i : Forall is_byte l -> is_byte (nth i l 0).
Proof.
  intros Hl. destruct (Nat.lt_ge_cases i (length l)) as [Hi|Hi].
  - apply (proj1 (List.Forall_nth is_byte l) Hl i 0 Hi).
  - rewrite nth_overflow by lia. unfold is_byte. lia.
Qed.

(** A word read from bytes is a 32-bit value. *)
Lemma le32_range l i : Forall is_byte l -> 0 <= le32 l i < 2 ^ 32.
Proof.
  intros Hl. unfold le32.
  pose proof (nth_is_byte l i Hl) as H0.
  pose proof (nth_is_byte l (i + 1) Hl) as H1.
  pose proof (nth_is_byte l (i + 2) Hl) as H2.
  pose proof (nth_is_byte l (i + 3) Hl) as H3.
  unfold is_byte in *.
  set (b0 := nth i l 0) in *. set (b1 := nth (i + 1) l 0) in *.
  set (b2 := nth (i + 2) l 0) in *. set (b3 := nth (i + 3) l 0) in *.
  assert (E3 : Z.lor (Z.shiftl b2 16) (Z.shiftl b3 24)
               = Z.shiftl (b3 * 2 ^ 8 + b2) 16).
  { rewrite Z.lor_comm, lor_shiftl_small
      by (rewrite ?Z.shiftl_mul_pow2; lia).
    rewrite !Z.shiftl_mul_pow2 by lia. lia. }
  assert (E2 : Z.lor (Z.shiftl b1 8) (Z.shiftl (b3 * 2 ^ 8 + b2) 16)
               = Z.shiftl ((b3 * 2 ^ 8 + b2) * 2 ^ 8 + b1) 8).
  { rewrite Z.lor_comm, lor_shiftl_small
      by (rewrite ?Z.shiftl_mul_pow2; lia).
    rewrite !Z.shiftl_mul_pow2 by lia. lia. }
  rewrite E3, E2, Z.lor_comm, lor_shiftl_small by lia. lia.
Qed.

Lemma classes_of_range fs e :
  holds_bytes fs -> 0 <= classes_of fs e < 2 ^ 32.
Proof.
  intros Hfs. unfold classes_of, read_dex_header.
  destruct (fopen_r fs (filename e)) as [data|] eqn:Hopen; [|lia].
  destruct (sizeof_DexFileHeader <=? length data)%nat; [|lia].
  cbn [snd class_defs_size]. apply le32_range. exact (Hfs _ _ Hopen).
Qed.

Lemma class_data_size_nonneg fs l :
  holds_bytes fs -> 0 <= class_data_size fs l.
Proof.
  intros Hfs. induction l as [|e l IH]; cbn [class_data_size fold_right].
  - lia.
  - pose proof (classes_of_range fs e Hfs). fold (class_data_size fs l).
    lia.
Qed.

Lemma locations_size_nonneg l : 0 <= locations_size l.
Proof.
  induction l as [|e l IH]; cbn [locations_size fold_right]; [lia|].
  fold (locations_size l). lia.
Qed.

Lemma read_dex_header_Done fs e r :
  read_dex_header fs e = Done r ->
  class_defs_size (snd r) = classes_of fs e
  /\ Z.of_nat (fst r) = size_of fs e.
Proof. intros Hr. unfold classes_of, size_of. now rewrite Hr. Qed.

Lemma wrap32_idemp_add_r x y : wrap32 (x + wrap32 y) = wrap32 (x + y).
Proof. unfold wrap32. apply Zplus_mod_idemp_r. Qed.

Lemma wrap32_small x : 0 <= x < 2 ^ 32 -> wrap32 x = x.
Proof. intros Hx. unfold wrap32. apply Z.mod_small. exact Hx. Qed.

Lemma wrap32_range x : 0 <= wrap32 x < 2 ^ 32.
Proof. unfold wrap32. apply Z.mod_pos_bound. lia. Qed.

Lemma total_class_data_size_wrap fs l : forall acc T,
  total_class_data_size fs l (wrap32 acc) = Done T ->
  T = wrap32 (acc + class_data_size fs l).
Proof.
  induction l as [|e l IH]; intros acc T;
    cbn [total_class_data_size class_data_size fold_right].
  - intros [= <-]. f_equal. lia.
  - destruct (read_dex_header fs e) as [|r] eqn:Hr; [discriminate|].
    cbn [oatmeal_build.bind]. intros Hrun.
    destruct (read_dex_header_Done _ _ _ Hr) as [Hn _].
    rewrite Hn, wrap32_idemp_add_r, wrap32_idemp_add in Hrun.
    apply IH in Hrun. rewrite Hrun. fold (class_data_size fs l).
    f_equal. lia.
Qed.

Lemma locations_size_wrap l : forall acc,
  fold_left
    (fun acc e => wrap32 (acc + Z.of_nat (String.length (location e))))
    l (wrap32 acc)
  = wrap32 (acc + locations_size l).
Proof.
  induction l as [|e l IH]; intros acc;
    cbn [fold_left locations_size fold_right].
  - f_equal. lia.
  - rewrite wrap32_idemp_add, IH. fold (locations_size l). f_equal. lia.
Qed.

(** The size that [DexFileListing_064::compute_size] returns. *)
Lemma DexFileListing_064_compute_size_wrap fs dex_input size :
  DexFileListing_064_compute_size fs dex_input = Done size ->
  size = wrap32 (listing_size fs dex_input).
Proof.
  unfold DexFileListing_064_compute_size. cbv zeta.
  destruct (total_class_data_size fs dex_input 0) as [|T] eqn:HT;
    [discriminate|].
  cbn [oatmeal_build.bind]. intros [= <-].
  apply (total_class_data_size_wrap fs dex_input 0) in HT.
  pose proof (locations_size_wrap dex_input 0) as HL.
  change (wrap32 0) with 0 in HL. rewrite HL, HT, !Z.add_0_l.
  unfold listing_size.
  set (a := locations_size dex_input).
  set (b := class_data_size fs dex_input).
  set (n := Z.of_nat (length dex_input)).
  replace (wrap32 a + wrap32 b + n * 4 + n * 4 + n * 4)
    with (wrap32 a + (wrap32 b + 12 * n)) by lia.
  rewrite wrap32_idemp_add.
  replace (a + (wrap32 b + 12 * n)) with (wrap32 b + (a + 12 * n)) by lia.
  rewrite wrap32_idemp_add. f_equal. lia.
Qed.

(** The files that the first loop of [DexFileListing_064::build] adds. *)
Lemma build_064_loop_shape fs next : forall l tds tcis acc tds' tcis' files,
  build_064_loop fs l next tds tcis acc = Done (tds', tcis', files) ->
  exists raw,
    files = acc ++ raw
    /\ Forall2 (built_from fs) l raw
    /\ (forall f, head raw = Some f ->
        file_offset_064 f = wrap32 (next + tds)).
Proof.
  induction l as [|e l IH]; intros tds tcis acc tds' tcis' files;
    cbn [build_064_loop].
  - intros [= _ _ <-]. exists []. rewrite app_nil_r.
    split; [reflexivity|]. split; [constructor|]. discriminate.
  - destruct (read_dex_header fs e) as [|r] eqn:Hr; [discriminate|].
    cbn [oatmeal_build.bind]. cbv zeta. intros Hrun.
    destruct (read_dex_header_Done _ _ _ Hr) as [Hn _].
    apply IH in Hrun. destruct Hrun as (raw & -> & Hall & _).
    eexists (_ :: raw). rewrite <- app_assoc. split; [reflexivity|].
    split.
    + constructor; [|exact Hall]. unfold built_from.
      cbn [location_064 class_offsets class_info].
      rewrite !repeat_length, Hn. auto.
    + intros f [= <-]. reflexivity.
Qed.

Lemma assign_class_offsets_shape fs : forall l raw first,
  Forall2 (built_from fs) l raw ->
  Forall2 (built_from fs) l (assign_class_offsets raw first)
  /\ head (file_offset_064 <$> assign_class_offsets raw first)
     = head (file_offset_064 <$> raw).
Proof.
  intros l raw first Hall. revert first.
  induction Hall as [|e f l raw Hf Hall IH]; intros first;
    cbn [assign_class_offsets].
  - split; [constructor|reflexivity].
  - split; [|reflexivity]. constructor; [|apply IH].
    destruct Hf as (Hloc & Hoff & Hinfo). unfold built_from.
    cbn [location_064 class_offsets class_info].
    rewrite length_map, length_seq. auto.
Qed.

(** The count of bytes that [DexFileListing_064::write] emits. *)
Lemma length_DexFileListing_064_write fs : forall l files,
  holds_bytes fs -> Forall2 (built_from fs) l files ->
  Z.of_nat (length (DexFileListing_064_write files)) = listing_size fs l.
Proof.
  intros l files Hfs Hall. unfold listing_size, DexFileListing_064_write.
  induction Hall as [|e f l files Hf Hall IH];
    cbn [flat_map locations_size class_data_size fold_right length].
  - reflexivity.
  - fold (locations_size l). fold (class_data_size fs l).
    destruct Hf as (Hloc & Hoff & _).
    rewrite !length_app, length_string_bytes, length_flat_map_le32_bytes.
    rewrite Hloc, Hoff. cbn [length le32_bytes].
    pose proof (classes_of_range fs e Hfs).
    rewrite !Nat2Z.inj_add, Nat2Z.inj_mul, Z2Nat.id by lia.
    lia.
Qed.

Lemma length_key_value_bytes art_image_location :
  length (KeyValueStore_bytes (key_value art_image_location))
  = (202 + String.length art_image_location)%nat.
Proof.
  unfold KeyValueStore_bytes, key_value, terminated.
  cbn [flat_map fst snd]. rewrite !length_app, !length_string_bytes.
  generalize (String.length art_image_location). intros n. simpl. lia.
Qed.

Lemma bytes_written_write_buf (h : ChecksummingFileHandle) data :
  bytes_written (write_buf h data) = (bytes_written h + length data)%nat.
Proof. reflexivity. Qed.

Lemma bytes_written_write_word ws : forall fh : FileHandle,
  bytes_written_ (fold_left write_word ws fh)
  = (bytes_written_ fh + 4 * length ws)%nat.
Proof.
  induction ws as [|w ws IH]; intros fh; cbn [fold_left length]; [lia|].
  rewrite IH. unfold write_word.
  cbn [fwrite FileHandle_Handle fwrite_impl bytes_written_ le32_bytes
       length]. lia.
Qed.

(** The header of a build takes 72 bytes, whatever the version. *)
Lemma bytes_written_build_header v d isa kv sz img (write_elf : bool) :
  bytes_written_
    (OatHeader_write (build_header v d isa kv sz img)
       (if write_elf
        then reset_bytes_written
               (set_seek_reference_to_fpos
                  (write_padding fopen_w 0 elf_rodata_offset))
        else fopen_w))
  = 72%nat.
Proof.
  unfold OatHeader_write. rewrite bytes_written_write_word.
  rewrite length_build_header_fields. destruct write_elf; reflexivity.
Qed.

Lemma write_dex_files_first fs e l f files written bytes :
  @write_dex_files Layout_064 fs (e :: l) (f :: files) written = Done bytes ->
  file_offset_064 f = Z.of_nat written.
Proof.
  cbn [write_dex_files file_offset Layout_064].
  destruct (Z.eqb_spec (file_offset_064 f) (Z.of_nat written)) as [Heq|];
    [intros _; exact Heq | discriminate].
Qed.

(** X18. A build of version 045 never succeeds. [OatFile::build] sends
    version 045 to the builder of version 064, which computes the offsets
    with a header of 84 bytes ([OatHeader::size]) while [OatHeader::write]
    emits 72 bytes, since the header written first carries a placeholder
    version: the check of the offset of the first dex file fails, unless a
    check fails before that. The build returns only when the output
    cannot be opened, with BUILD_IO_ERROR. *)
Theorem build_of_version_045_never_succeeds
    (write_elf_headers :
       FileSystem -> list DexInput -> Z -> Z -> Z ->
       ChecksummingFileHandle -> ChecksummingFileHandle)
    fs oat_file_name dex_input isa write_elf art_image_location :
  holds_bytes fs -> dex_input <> [] ->
  Z.of_nat (String.length art_image_location) + listing_size fs dex_input
    < 2 ^ 31 ->
  OatFile_064_build write_elf_headers fs oat_file_name dex_input V_045 isa
    write_elf art_image_location = CheckFailed
  \/ (can_create fs oat_file_name = false
      /\ OatFile_064_build write_elf_headers fs oat_file_name dex_input
           V_045 isa write_elf art_image_location
         = Done (BUILD_IO_ERROR, [])).
Proof.
  intros Hfs Hne Hsmall.
  unfold OatFile_064_build, build_oatfile, write_oat_data. cbv zeta.
  cbn [compute_size build listing_write file_offset Layout_064].
  destruct (DexFileListing_064_compute_size fs dex_input) as [|size]
    eqn:Hsize; [left; reflexivity|].
  cbn [oatmeal_build.bind].
  apply DexFileListing_064_compute_size_wrap in Hsize.
  rewrite KeyValueStore_compute_size_wrap, length_key_value_bytes.
  set (next0 := align 4 _).
  destruct (DexFileListing_064_build fs dex_input next0) as [|built]
    eqn:Hbuilt; [left; reflexivity|].
  cbn [oatmeal_build.bind].
  destruct (can_create fs oat_file_name); cbn [negb];
    [|right; split; reflexivity].
  left.
  unfold DexFileListing_064_build in Hbuilt.
  destruct (build_064_loop fs dex_input next0 0 0 [])
    as [|[[tds tcis] raw0]] eqn:Hloop; [discriminate|].
  cbn [oatmeal_build.bind fst snd] in Hbuilt.
  injection Hbuilt as <-. cbn [fst snd].
  apply build_064_loop_shape in Hloop.
  destruct Hloop as (raw & -> & Hall & Hhead). cbn [app].
  destruct (assign_class_offsets_shape fs dex_input raw
              (wrap32 (next0 + tds)) Hall) as [Hall' Hhead'].
  pose proof (length_DexFileListing_064_write fs _ _ Hfs Hall') as Hlen.
  set (files := assign_class_offsets raw (wrap32 (next0 + tds))) in *.
  rewrite !bytes_written_write_buf, KeyValueStore_write_bytes_written.
  cbn [bytes_written ChecksummingFileHandle_Handle base].
  rewrite bytes_written_build_header, length_key_value_bytes, repeat_length.
  set (bw := (72 + (202 + String.length art_image_location)
              + length (DexFileListing_064_write files))%nat).
  set (written := (bw + _)%nat).
  destruct (@write_dex_files Layout_064 fs dex_input files written)
    as [|bytes]
    eqn:Hdex; [reflexivity|exfalso].
  clearbody files.
  destruct dex_input as [|e l]; [congruence|].
  inversion Hall as [|e0 r l0 raw' _ _ He0 Hraw]. subst e0 l0 raw.
  inversion Hall' as [|e0 f l0 files' _ _ He0 Hfiles]. subst e0 l0 files.
  cbn [head fmap list_fmap] in Hhead'. injection Hhead' as Hoff.
  rewrite (Hhead r eq_refl) in Hoff.
  apply write_dex_files_first in Hdex. rewrite Hoff in Hdex.
  pose proof (locations_size_nonneg (e :: l)).
  pose proof (class_data_size_nonneg fs (e :: l) Hfs).
  set (L := listing_size fs (e :: l)) in *.
  assert (HL : 0 <= L) by (unfold L, listing_size; lia).
  set (n := String.length art_image_location) in *.
  assert (Hbw : Z.of_nat bw = 274 + Z.of_nat n + L) by (unfold bw; lia).
  change (OatHeader_size V_045) with 84 in next0.
  assert (Hnext : next0 = align (2 ^ 2) (286 + Z.of_nat n + L)).
  { unfold next0. rewrite Hsize.
    rewrite (wrap32_small L), (wrap32_small (Z.of_nat (202 + n))) by lia.
    rewrite wrap32_small by lia. f_equal. lia. }
  destruct (align_fits 2 (286 + Z.of_nat n + L)) as [_ Hfit1]; try lia.
  destruct (align_fits 2 (274 + Z.of_nat n + L)) as [_ Hfit2]; try lia.
  rewrite <- Hnext in Hfit1.
  assert (Hwritten : Z.of_nat written
                     = align (2 ^ 2) (274 + Z.of_nat n + L)).
  { unfold written. rewrite Nat2Z.inj_add, Hbw.
    rewrite (wrap32_small (274 + Z.of_nat n + L)) by lia.
    change 4 with (2 ^ 2). rewrite Z2Nat.id by lia. lia. }
  rewrite Z.add_0_r, wrap32_small in Hdex by lia. lia.
Qed.















Lemma bind_Done {A B} (a : A) (k : A -> Checked B) :
  oatmeal_build.bind (Done a) k = k a.
Proof. reflexivity. Qed.



(** [align] returns a multiple of the width, also when the addition
    wraps. *)
Lemma align_is_multiple k x : 0 <= k < 32 -> align (2 ^ k) x mod 2 ^ k = 0.
Proof.
  intros Hk. unfold align.
  rewrite land_opp_pow2 by (try apply wrap32_range; lia).
  apply Z.mod_mul. apply Z.pow_nonzero; lia.
Qed.

(** Two inputs in a row: the offsets that the first loop of
    [DexFileListing_064::build] gives them differ by the padded size of
    the first. *)
Lemma build_064_loop_offsets fs next : forall l tds tcis acc t c files i e,
  build_064_loop fs l next tds tcis acc = Done (t, c, files) ->
  l !! i = Some e -> is_Some (l !! S i) ->
  exists x f f',
    files !! (length acc + i)%nat = Some f
    /\ files !! (length acc + S i)%nat = Some f'
    /\ file_offset_064 f = wrap32 (next + x)
    /\ file_offset_064 f'
       = wrap32 (next + wrap32 (x + align 4 (wrap32 (size_of fs e)))).
Proof.
  induction l as [|e0 l IH]; intros tds tcis acc t c files i e Hrun Hi Hnext;
    [discriminate|].
  cbn [build_064_loop] in Hrun.
  destruct (read_dex_header fs e0) as [|r] eqn:Hr; [discriminate|].
  cbn [oatmeal_build.bind] in Hrun. cbv zeta in Hrun.
  destruct (read_dex_header_Done _ _ _ Hr) as [_ Hsize].
  destruct i as [|i].
  - injection Hi as <-. destruct Hnext as [e' He'].
    destruct l as [|e1 l]; [discriminate|].
    match type of Hrun with
    | context [acc ++ [?f]] => set (f0 := f) in Hrun
    end.
    apply build_064_loop_shape in Hrun.
    destruct Hrun as (raw & -> & Hall & Hhead).
    inversion Hall as [|? f1 ? raw' _ _]. subst.
    exists tds, f0, f1.
    split.
    { rewrite <- app_assoc. cbn [app].
      apply list_lookup_middle. lia. }
    split.
    { apply list_lookup_middle. rewrite length_app. cbn [length]. lia. }
    split; [reflexivity|].
    rewrite (Hhead f1 eq_refl), Hsize. reflexivity.
  - cbn [lookup list_lookup] in Hi, Hnext.
    destruct (IH _ _ _ _ _ _ i e Hrun Hi Hnext)
      as (x & f & f' & Hf & Hf' & Hoff & Hoff').
    rewrite length_app in Hf, Hf'. cbn [length] in Hf, Hf'.
    exists x, f, f'.
    replace (length acc + S i)%nat with (length acc + 1 + i)%nat by lia.
    replace (length acc + S (S i))%nat with (length acc + 1 + S i)%nat
      by lia.
    auto.
Qed.

Lemma assign_class_offsets_file_offsets : forall raw first,
  file_offset_064 <$> assign_class_offsets raw first
  = file_offset_064 <$> raw.
Proof.
  induction raw as [|f raw IH]; intros first;
    cbn [assign_class_offsets fmap list_fmap]; [reflexivity|].
  cbn [file_offset_064]. f_equal. apply IH.
Qed.

(** Two inputs in a row: [write_dex_files] checks that their offsets
    differ by the size of the first. *)
Lemma write_dex_files_offsets fs : forall l files written bytes i e,
  @write_dex_files Layout_064 fs l files written = Done bytes ->
  l !! i = Some e -> is_Some (l !! S i) ->
  exists w f f' data,
    files !! i = Some f /\ files !! S i = Some f'
    /\ fopen_r fs (filename e) = Some data
    /\ file_offset_064 f = Z.of_nat w
    /\ file_offset_064 f' = Z.of_nat w + Z.of_nat (length data).
Proof.
  induction l as [|e0 l IH]; intros files written bytes i e Hrun Hi Hnext;
    [discriminate|].
  destruct files as [|f0 files]; [discriminate|].
  cbn [write_dex_files file_offset Layout_064] in Hrun.
  destruct (Z.eqb_spec (file_offset_064 f0) (Z.of_nat written))
    as [Hoff|]; [|discriminate].
  destruct (fopen_r fs (filename e0)) as [data|] eqn:Hopen; [|discriminate].
  destruct (write_dex_files fs l files (written + length data))
    as [|more] eqn:Hmore; [discriminate|].
  destruct i as [|i].
  - injection Hi as <-. destruct Hnext as [e' He'].
    destruct l as [|e1 l]; [discriminate|].
    destruct files as [|f1 files]; [discriminate|].
    apply write_dex_files_first in Hmore.
    exists written, f0, f1, data. repeat split; auto.
    rewrite Hmore. lia.
  - cbn [lookup list_lookup] in Hi, Hnext.
    destruct (IH _ _ _ i e Hmore Hi Hnext)
      as (w & f & f' & d & Hf & Hf' & Hd & Hoff1 & Hoff2).
    exists w, f, f', d. auto.
Qed.

(** X20. The builder of versions 045 and 064 cannot place a dex file
    after one whose size is not a multiple of four:
    [DexFileListing_064::build] advances the offsets by the sizes padded
    to four bytes, while [stream_file] copies each input as it is, so the
    check of the offset of the next input fails in [write_dex_files]
    (unless a check failed before). *)
Theorem build_stops_after_a_dex_file_of_unaligned_size
    (write_elf_headers :
       FileSystem -> list DexInput -> Z -> Z -> Z ->
       ChecksummingFileHandle -> ChecksummingFileHandle)
    fs oat_file_name before e e' after oat_version isa write_elf
    art_image_location :
  size_of fs e mod 4 <> 0 ->
  let dex_input := before ++ e :: e' :: after in
  OatFile_064_build write_elf_headers fs oat_file_name dex_input
    oat_version isa write_elf art_image_location = CheckFailed
  \/ (can_create fs oat_file_name = false
      /\ OatFile_064_build write_elf_headers fs oat_file_name dex_input
           oat_version isa write_elf art_image_location
         = Done (BUILD_IO_ERROR, [])).
Proof.
  intros Hodd dex_input.
  unfold OatFile_064_build, build_oatfile, write_oat_data. cbv zeta.
  cbn [compute_size build listing_write file_offset Layout_064].
  destruct (DexFileListing_064_compute_size fs dex_input) as [|size];
    [left; reflexivity|].
  rewrite bind_Done.
  set (next0 := align 4 _).
  destruct (DexFileListing_064_build fs dex_input next0) as [|built]
    eqn:Hbuilt; [left; reflexivity|].
  rewrite bind_Done.
  destruct (can_create fs oat_file_name); cbn [negb];
    [|right; split; reflexivity].
  left.
  match goal with
  | |- context [@write_dex_files ?L fs dex_input ?fl ?w] =>
      destruct (@write_dex_files L fs dex_input fl w) as [|bytes] eqn:Hdex
  end; [reflexivity|exfalso].
  assert (Hi : dex_input !! length before = Some e)
    by (apply list_lookup_middle; reflexivity).
  assert (Hnext : is_Some (dex_input !! S (length before))).
  { exists e'. unfold dex_input.
    rewrite (cons_middle e), app_assoc.
    apply list_lookup_middle. rewrite length_app. cbn [length]. lia. }
  destruct (write_dex_files_offsets fs _ _ _ _ _ _ Hdex Hi Hnext)
    as (w & f & f' & data & Hf & Hf' & Hopen & Hoff & Hoff').
  unfold DexFileListing_064_build in Hbuilt.
  destruct (build_064_loop fs dex_input next0 0 0 [])
    as [|[[tds tcis] raw]] eqn:Hloop; [discriminate|].
  rewrite bind_Done in Hbuilt. cbn [fst snd] in Hbuilt.
  injection Hbuilt as <-. cbn [fst DexFileT Layout_064] in Hf, Hf'.
  destruct (build_064_loop_offsets fs next0 _ _ _ _ _ _ _ _ e Hloop Hi Hnext)
    as (x & g & g' & Hg & Hg' & Hgoff & Hgoff').
  cbn [length Nat.add] in Hg, Hg'.
  pose proof (assign_class_offsets_file_offsets raw (wrap32 (next0 + tds)))
    as Hsame.
  assert (Hfg : file_offset_064 f = file_offset_064 g).
  { apply (f_equal (fun l => l !! length before)) in Hsame.
    rewrite !list_lookup_fmap, Hf, Hg in Hsame. now injection Hsame. }
  assert (Hfg' : file_offset_064 f' = file_offset_064 g').
  { apply (f_equal (fun l => l !! S (length before))) in Hsame.
    rewrite !list_lookup_fmap, Hf', Hg' in Hsame. now injection Hsame. }
  rewrite Hgoff in Hfg. rewrite Hgoff' in Hfg'.
  assert (Hsize : size_of fs e = Z.of_nat (length data)).
  { unfold size_of, read_dex_header in *. rewrite Hopen in *.
    destruct (sizeof_DexFileHeader <=? length data)%nat; [reflexivity|].
    contradiction Hodd. reflexivity. }
  rewrite Hsize in *.
  set (s := Z.of_nat (length data)) in *.
  pose proof (align_is_multiple 2 (wrap32 s)) as Hpad.
  change (2 ^ 2) with 4 in Hpad.
  set (a := align 4 (wrap32 s)) in *.
  unfold wrap32 in Hfg, Hfg'.
  rewrite Zplus_mod_idemp_r in Hfg'.
  rewrite Z.add_assoc, <- Zplus_mod_idemp_l, <- Hfg, Hoff in Hfg'.
  rewrite Hoff' in Hfg'.
  assert (0 <= Z.of_nat w + s < 2 ^ 32)
    by (rewrite Hfg'; apply Z.mod_pos_bound; lia).
  pose proof (Z.div_mod (Z.of_nat w + a) (2 ^ 32)) as Hdiv.
  pose proof (Z.div_mod a 4) as Ha. pose proof (Z.div_mod s 4) as Hs.
  pose proof (Z.mod_pos_bound s 4). lia.
Qed.

End BuildOffsets.

Lemma disk_holds_bytes : build_sizes.holds_bytes oatmeal_build.disk.
Proof.
  intros name data. unfold oatmeal_build.disk.
  cbn [oatmeal_build.fopen_r].
  destruct (String.eqb name "a.dex"); [|discriminate].
  intros [= <-]. unfold oatmeal_build.empty_dex.
  apply Forall_forall. intros x Hx. apply list_elem_of_In in Hx.
  apply repeat_spec in Hx. subst x. unfold util_h.is_byte. lia.
Qed.

Lemma build_of_version_045_never_succeeds_witness :
  oatmeal_build.OatFile_064_build oatmeal_build.no_elf_writer
    oatmeal_build.disk "out.oat" oatmeal_build.one_dex oatmeal.V_045
    oatmeal_build.kArm false EmptyString
  = oatmeal.CheckFailed
  \/ (oatmeal_build.can_create oatmeal_build.disk "out.oat" = false
      /\ oatmeal_build.OatFile_064_build oatmeal_build.no_elf_writer
           oatmeal_build.disk "out.oat" oatmeal_build.one_dex oatmeal.V_045
           oatmeal_build.kArm false EmptyString
         = oatmeal.Done (oatmeal.BUILD_IO_ERROR, [])).
Proof.
  apply (build_of_version_045_never_succeeds oatmeal_build.no_elf_writer
           oatmeal_build.disk "out.oat" oatmeal_build.one_dex
           oatmeal_build.kArm false EmptyString).
  - exact disk_holds_bytes.
  - discriminate.
  - vm_compute. reflexivity.
Defined.


Lemma build_stops_after_a_dex_file_of_unaligned_size_witness :
  oatmeal_build.OatFile_064_build oatmeal_build.no_elf_writer
    build_sizes.unaligned_disk "out.oat"
    (oatmeal_build.one_dex ++ oatmeal_build.one_dex) oatmeal.V_064
    oatmeal_build.kArm false EmptyString
  = oatmeal.CheckFailed
  \/ (oatmeal_build.can_create build_sizes.unaligned_disk "out.oat" = false
      /\ oatmeal_build.OatFile_064_build oatmeal_build.no_elf_writer
           build_sizes.unaligned_disk "out.oat"
           (oatmeal_build.one_dex ++ oatmeal_build.one_dex) oatmeal.V_064
           oatmeal_build.kArm false EmptyString
         = oatmeal.Done (oatmeal.BUILD_IO_ERROR, [])).
Proof.
  apply (build_stops_after_a_dex_file_of_unaligned_size
           oatmeal_build.no_elf_writer build_sizes.unaligned_disk "out.oat"
           []
           {| oatmeal_build.filename := "a.dex";
              oatmeal_build.location := "a.dex" |}
           {| oatmeal_build.filename := "a.dex";
              oatmeal_build.location := "a.dex" |}
           [] oatmeal.V_064 oatmeal_build.kArm false EmptyString).
  vm_compute. discriminate.
Defined.

(** ** dump-oat.cpp: the listing of the dex files, read back *)

Section ListingFacts.
Import oatmeal oatmeal_build util_h dump_oat dex_file_listing.

Lemma string_of_bytes_string_bytes s : string_of_bytes (string_bytes s) = s.
Proof.
  induction s as [|c s IH]; cbn [string_bytes string_of_bytes];
    [reflexivity|].
  rewrite N2Z.id, Ascii.ascii_N_embedding, IH. reflexivity.
Qed.

Lemma le32_at pre l i : le32 (pre ++ l) (length pre + i) = le32 l i.
Proof.
  unfold le32. rewrite <- !Nat.add_assoc, !app_nth2_plus. reflexivity.
Qed.

Lemma READ_WORD_at buf off ma pre w rest :
  bytes buf = pre ++ le32_bytes w ++ rest -> off = length pre ->
  READ_WORD buf off ma = Returns (w mod 2 ^ 32, (ptr buf + off, 4)%nat :: ma).
Proof.
  intros Hbytes ->. unfold READ_WORD, len. rewrite Hbytes.
  rewrite !length_app. cbn [le32_bytes length].
  destruct (Nat.leb_spec (length pre + 4) (length pre + (4 + length rest)));
    [|lia].
  rewrite <- (Nat.add_0_r (length pre)) at 1. rewrite le32_at.
  unfold le32, le32_bytes. cbn [app nth Nat.add]. rewrite le32_word.
  reflexivity.
Qed.

Lemma READ_WORDS_at buf ws rest : forall off ma pre,
  bytes buf = pre ++ flat_map le32_bytes ws ++ rest -> off = length pre ->
  exists ma',
    READ_WORDS (length ws) buf off ma
    = Returns ((fun w => w mod 2 ^ 32) <$> ws, ma').
Proof.
  induction ws as [|w ws IH]; intros off ma pre Hbytes Hoff;
    cbn [length READ_WORDS].
  - exists ma. reflexivity.
  - cbn [flat_map] in Hbytes. rewrite <- app_assoc in Hbytes.
    rewrite (READ_WORD_at buf off ma pre w _ Hbytes Hoff).
    destruct (IH (off + 4)%nat ((ptr buf + off, 4)%nat :: ma)
                 (pre ++ le32_bytes w)) as [ma' Hrun].
    { rewrite Hbytes, <- app_assoc. reflexivity. }
    { rewrite length_app, Hoff. reflexivity. }
    rewrite Hrun. exists ma'. reflexivity.
Qed.

Lemma read_location_at buf off ma pre s rest :
  bytes buf = pre ++ string_bytes s ++ rest -> off = length pre ->
  read_location buf off (Z.of_nat (String.length s)) ma
  = Returns (s, (off + String.length s)%nat,
             (ptr buf + off, String.length s)%nat :: ma).
Proof.
  intros Hbytes ->. unfold read_location, len. rewrite Hbytes, Nat2Z.id.
  rewrite !length_app, length_string_bytes.
  destruct (Nat.leb_spec (length pre + String.length s)
              (length pre + (String.length s + length rest))); [|lia].
  rewrite drop_app_length, <- length_string_bytes, take_app_length.
  rewrite string_of_bytes_string_bytes. reflexivity.
Qed.

Lemma uint32_mod x : uint32 x -> x mod 2 ^ 32 = x.
Proof. intros Hx. apply Z.mod_small. exact Hx. Qed.

(** The loop of the constructor on the bytes of a written listing. *)
Lemma DexFileListing_079_loop_written indeterminate buf rest :
  forall dex_files pre off ma acc,
  Forall listed_079 dex_files ->
  bytes buf = pre ++ DexFileListing_079_write dex_files ++ rest ->
  off = length pre ->
  exists ma',
    DexFileListing_079_loop (length dex_files) indeterminate buf off ma acc
    = Returns (acc ++ (as_read indeterminate <$> dex_files), ma').
Proof.
  induction dex_files as [|file dex_files IH];
    intros pre off ma acc Hall Hbytes Hoff;
    cbn [length DexFileListing_079_loop fmap list_fmap].
  - exists ma. now rewrite app_nil_r.
  - inversion Hall as [|f l Hfile Hrest]. subst f l.
    destruct Hfile as (Hlen & Hc & Hf & Hco & Hlo).
    cbn [DexFileListing_079_write flat_map] in Hbytes.
    fold (DexFileListing_079_write dex_files) in Hbytes.
    rewrite <- !app_assoc in Hbytes.
    rewrite wrap32_small in Hbytes by lia.
    rewrite (READ_WORD_at buf off ma pre _ _ Hbytes Hoff).
    cbn [and_then]. rewrite Z.mod_small by lia.
    set (pre1 := pre ++ le32_bytes (Z.of_nat (String.length
                                                (location_079 file)))).
    assert (Hbytes1 : bytes buf
                      = pre1 ++ string_bytes (location_079 file)
                        ++ flat_map le32_bytes
                             [location_checksum_079 file;
                              file_offset_079 file; classes_offset file;
                              lookup_table_offset file]
                        ++ DexFileListing_079_write dex_files ++ rest).
    { rewrite Hbytes. unfold pre1. cbn [flat_map].
      now rewrite <- !app_assoc. }
    assert (Hoff1 : (off + 4)%nat = length pre1)
      by (unfold pre1; rewrite length_app, Hoff; reflexivity).
    rewrite (read_location_at buf (off + 4) _ pre1 _ _ Hbytes1 Hoff1).
    cbn [and_then].
    set (off2 := (off + 4 + String.length (location_079 file))%nat).
    set (pre2 := pre1 ++ string_bytes (location_079 file)).
    assert (Hbytes2 : bytes buf
                      = pre2 ++ flat_map le32_bytes
                                  [location_checksum_079 file;
                                   file_offset_079 file;
                                   classes_offset file;
                                   lookup_table_offset file]
                        ++ DexFileListing_079_write dex_files ++ rest).
    { rewrite Hbytes1. unfold pre2. now rewrite <- !app_assoc. }
    assert (Hoff2 : off2 = length pre2).
    { unfold off2, pre2. rewrite length_app, length_string_bytes, Hoff1.
      reflexivity. }
    match goal with
    | |- context [READ_WORDS 4 buf off2 ?m] =>
        destruct (READ_WORDS_at buf
                    [location_checksum_079 file; file_offset_079 file;
                     classes_offset file; lookup_table_offset file]
                    _ off2 m pre2 Hbytes2 Hoff2) as [ma2 Hrun]
    end.
    cbn [length] in Hrun. rewrite Hrun. cbn [and_then fmap list_fmap].
    unfold word. cbn [nth].
    rewrite !uint32_mod by assumption.
    destruct (IH (pre2 ++ flat_map le32_bytes
                            [location_checksum_079 file;
                             file_offset_079 file; classes_offset file;
                             lookup_table_offset file])
                 (off2 + 16)%nat ma2
                 (acc ++ [as_read indeterminate file]) Hrest)
      as [ma' Hloop].
    { rewrite Hbytes2. now rewrite <- !app_assoc. }
    { rewrite length_app, Hoff2. reflexivity. }
    exists ma'. unfold as_read in Hloop at 1. rewrite Hloop.
    now rewrite <- app_assoc.
Qed.

(** X21. The listing of versions 079 and 088 round-trips: on the bytes
    that [DexFileListing_079::write] emits for entries of 32-bit words,
    followed by anything, the constructor [DexFileListing_079] given the
    count of entries returns the entries in order, with their location,
    checksum and three offsets; only [num_classes], which is not part of
    the format, is lost. For entries that carry the locations of the
    inputs, the bytes written are as many as
    [DexFileListing_079::compute_size] announces, modulo 2^32. *)
Theorem DexFileListing_079_reads_what_write_wrote
    indeterminate dex_files rest p ma :
  Forall listed_079 dex_files ->
  (exists ma',
     DexFileListing_079_new indeterminate (Z.of_nat (length dex_files))
       {| ptr := p; bytes := DexFileListing_079_write dex_files ++ rest |} ma
     = Returns (as_read indeterminate <$> dex_files, ma'))
  /\ forall dex_input,
       oatmeal_build.location <$> dex_input = location_079 <$> dex_files ->
       DexFileListing_079_compute_size dex_input
       = wrap32 (Z.of_nat (length (DexFileListing_079_write dex_files))).
Proof.
  intros Hall. split.
  - unfold DexFileListing_079_new. rewrite Nat2Z.id.
    apply (DexFileListing_079_loop_written indeterminate _ rest dex_files
             [] 0%nat ma [] Hall); reflexivity.
  - intros dex_input Hloc. unfold DexFileListing_079_compute_size.
    cbv zeta.
    assert (Hgen : forall l files acc,
      oatmeal_build.location <$> l = location_079 <$> files ->
      wrap32 (fold_left
                (fun acc e =>
                   wrap32 (acc + Z.of_nat
                                   (String.length (oatmeal_build.location e))))
                l (wrap32 acc) + 20 * Z.of_nat (length l))
      = wrap32 (acc + Z.of_nat (length (DexFileListing_079_write files)))).
    { clear. induction l as [|e l IH]; intros files acc Hloc;
        destruct files as [|f files]; try discriminate;
        cbn [fold_left length DexFileListing_079_write flat_map].
      - rewrite wrap32_idemp_add. reflexivity.
      - injection Hloc as He Hl.
        rewrite wrap32_idemp_add.
        replace (20 * Z.of_nat (S (length l)))
          with (20 * Z.of_nat (length l) + 20) by lia.
        rewrite Z.add_assoc.
        rewrite <- (wrap32_idemp_add (_ + _) 20), (IH files _ Hl).
        rewrite wrap32_idemp_add.
        unfold DexFileListing_079_write.
        rewrite !length_app, length_string_bytes, He.
        cbn [le32_bytes length]. f_equal. lia. }
    specialize (Hgen dex_input dex_files 0 Hloc).
    change (wrap32 0) with 0 in Hgen. rewrite Z.add_0_l in Hgen.
    rewrite <- Hgen. f_equal. lia.
Qed.






End ListingFacts.

Lemma DexFileListing_079_reads_what_write_wrote_witness :
  exists ma',
    dex_file_listing.DexFileListing_079_new 7 2
      {| oatmeal.ptr := 0x112;
         oatmeal.bytes :=
           dex_file_listing.DexFileListing_079_write
             dex_file_listing.sample_listing_079 ++ [1; 2; 3] |} []
    = dump_oat.Returns
        (dex_file_listing.as_read 7
           <$> dex_file_listing.sample_listing_079, ma').
Proof.
  assert (Hall : Forall dex_file_listing.listed_079
                   dex_file_listing.sample_listing_079).
  { unfold dex_file_listing.sample_listing_079,
      dex_file_listing.listed_079, dump_oat.uint32.
    repeat (apply List.Forall_cons; [simpl; lia|]).
    apply List.Forall_nil. }
  destruct (DexFileListing_079_reads_what_write_wrote 7
              dex_file_listing.sample_listing_079 [1; 2; 3] 0x112 [] Hall)
    as [Hread _].
  exact Hread.
Defined.

(** ** dump-oat.cpp: the reader on the files that the builder writes *)

Section ReaderOfBuilds.
Import oatmeal oatmeal_build util_h dump_oat build_sizes dex_file_listing.








End ReaderOfBuilds.

